(** * NDID platform API: task queue, block gate and callback delivery

    A shallow embedding of the asynchronous engine of the node:

    - [Callback]: [main-server/src/utils/callback.js], the retried HTTP
      delivery of callbacks ([callbackWithRetry], [stopAllCallbackRetries],
      the [pendingCallbacksCount] counter);
    - [Queue]: the per-request task queue of [core/common]
      ([addTaskToQueue], [executeTaskInQueue], [onTaskExecutionFinished],
      [cleanUpQueue], [restoreTaskFromPersistentQueue]);
    - [Gate]: the block-height gate of [core/common]
      ([handleMessageFromMqWithBlockWait], [processMessageInBlocks]);
    - [CallbackApi], [QueueGauges], [GateCleanUp]: the other entry points
      of the three ([callbackToClient] without retry,
      [handleCallbackWorkerLost], the counters of the queue,
      [releaseLockAndCleanUp]);
    - [Rp], [RpSend]: the RP node of [core/rp] ([processMessage],
      [getASReceiverList], [sendRequestToAS]);
    - [Utils], [Salt]: [euclideanGCD], [moduloMultiplicativeInverse],
      [hashWithRandomSalt] and [compareSaltedHash] of [utils];
    - [TendermintHttp]: [httpUriCall] and its callers;
    - [MqSendSocket]: the class of [mq/mqsendsocket.js].

    JavaScript runs one turn at a time: an [async] function runs without
    interruption up to its next [await], and resumes in a later turn.  Each
    module therefore cuts every [async] function at its [await]s, gives one
    state transformer per piece, and takes as events the things that start a
    turn (a call from outside, a promise settling, a [setImmediate] callback
    firing).  [step] runs one turn, [run] a whole schedule of them. *)

From stdpp Require Import gmap strings list pretty.
From Stdlib Require Import ZArith Lia Ascii.

Local Open Scope Z_scope.

(** [config.mode] *)
Inductive Mode := STANDALONE | MASTER | WORKER.

#[global] Instance Mode_eq_dec : EqDecision Mode.
Proof. solve_decision. Defined.

(** JavaScript truthiness of an optional string argument ([undefined] and
    the empty string are falsy) and of an optional number ([undefined] and
    [0] are falsy). *)
Definition truthy_str (o : option string) : bool :=
  match o with
  | Some s => negb (String.eqb s "")
  | None => false
  end.

Definition truthy_num (o : option Z) : bool :=
  match o with
  | Some n => negb (n =? 0)
  | None => false
  end.

(** The names every object inherits from [Object.prototype]: looked up on
    an object that has no such property of its own, they give the inherited
    value, which is not [null] and is truthy. *)
Definition inherited (key : string) : bool :=
  bool_decide (key ∈ ["constructor"; "__defineGetter__"; "__defineSetter__";
                      "hasOwnProperty"; "__lookupGetter__";
                      "__lookupSetter__"; "isPrototypeOf";
                      "propertyIsEnumerable"; "toString"; "valueOf";
                      "__proto__"; "toLocaleString"]).

(** Of the inherited values, the functions [toString], [valueOf] and
    [toLocaleString] have [length] [0]; the others have [length] [1] or [2],
    and [__proto__] gives [Object.prototype], which has none. *)
Definition inherited_nullary (key : string) : bool :=
  bool_decide (key ∈ ["toString"; "valueOf"; "toLocaleString"]).

(** [if (o[key])] on an object used as a table of flags: the flag of the
    key when the object has one of its own, else what it inherits. *)
Definition truthy_at (o : gmap string bool) (key : string) : bool :=
  match o !! key with
  | Some b => b
  | None => inherited key
  end.

(** [a.splice(a.indexOf(x), 1)]: the first occurrence of [x] is removed;
    when there is none [indexOf] is [-1] and [splice(-1, 1)] removes the last
    element. *)
Fixpoint remove_first (x : nat) (a : list nat) : option (list nat) :=
  match a with
  | [] => None
  | y :: a' =>
      if decide (x = y) then Some a'
      else match remove_first x a' with
           | Some r => Some (y :: r)
           | None => None
           end
  end.

Definition splice_indexOf (x : nat) (a : list nat) : list nat :=
  match remove_first x a with
  | Some r => r
  | None => removelast a
  end.

(** The sum of a weight over a list; with weights 0 and 1 it counts. *)
Definition total {A} (w : A → Z) (l : list A) : Z :=
  foldr (λ x n, w x + n) 0 l.

Arguments total : simpl never.

(** Running a schedule: every event must be enabled when its turn comes. *)
Section Run.
Context {St Ev : Type} (step : Ev → St → option St).

Fixpoint run (evs : list Ev) (s : St) : option St :=
  match evs with
  | [] => Some s
  | e :: evs' =>
      match step e s with
      | Some s' => run evs' s'
      | None => None
      end
  end.

End Run.

(** * Callback delivery with retry ([main-server/src/utils/callback.js]) *)
Module Callback.

Definition RESPONSE_BODY_SIZE_LIMIT : Z := 3 * 1024 * 1024.

(** The two settings of [config] the module reads. *)
Record Config := {
  mode : Mode;
  callbackRetryTimeout : Z;   (* seconds *)
}.

(** The arguments of [callbackWithRetry]; they are also the record
    [callbackToClient] saves under [cbId] before the first attempt. *)
Record Args := {
  callbackUrl : string;
  body : string;
  cbId : string;
  shouldRetryFnName : option string;
  shouldRetryArguments : list string;
  responseCallbackFnName : option string;
  dataForResponseCallback : string;
  deadline : option Z;
}.

(** What [catch (error)] looks at: [error.name] and [error.type]. *)
Inductive Error :=
| FetchError (type : string)
| OtherError (name : string).

Definition is_max_size (e : Error) : bool :=
  match e with
  | FetchError type => String.eqb type "max-size"
  | OtherError _ => false
  end.

(** What the endpoint does with one POST: it answers with a status and a
    body (of which the size in bytes is kept), or the request fails. *)
Inductive Reply :=
| Answered (status : Z) (size : Z)
| Failed (e : Error).

Record ResponseObj := {
  status : Z;
  bodySize : Z;
}.

(** [httpPost]: [fetch] is given [size: RESPONSE_BODY_SIZE_LIMIT], so
    reading a longer body rejects with a [FetchError] of type [max-size]. *)
Definition httpPost (r : Reply) : Error + ResponseObj :=
  match r with
  | Answered st size =>
      if RESPONSE_BODY_SIZE_LIMIT <? size then inl (FetchError "max-size")
      else inr {| status := st; bodySize := size |}
  | Failed e => inl e
  end.

(** Events on [metricsEventEmitter]. *)
Inductive Metric :=
| pendingCallbacksCountIs (n : Z)
| callbackTime (status : Z) (hasBody : bool) (ms : Z)
| callbackFail
| callbackTimedOut.

(** A call of the response handler [getResponseCallbackFn(name)(x, data)]. *)
Inductive HandlerArg :=
| WithResponse (r : ResponseObj)
| WithError (errorType : string).

Record HandlerCall := {
  fnName : string;
  arg : HandlerArg;
  data : string;
}.

(** How a loop ended, and where a loop stands between two turns. *)
Inductive Outcome := Delivered | BodyTooLarge | Vetoed | TimedOut | Stopped.

Inductive Pc :=
| AwaitPost                              (* await httpPost(...) *)
| AwaitShouldRetry (nextRetry : Z)       (* await getShouldRetryFn(...)(...) *)
| AwaitWait (nextRetry : Z) (stopped : bool)   (* await waitPromise *)
| Returned (o : Outcome).

Record Loop := {
  args : Args;
  startTime : Z;
  pc : Pc;
}.

(** The module's variables, the cache database's callback table, what was
    observed from outside (metrics, handler calls, POSTs started, each by
    the index of its loop) and the calls of [callbackWithRetry] so far. *)
Record State := {
  stopCallbackRetry : bool;
  pendingCallbacksCount : Z;
  pendingCallback : gmap string Z;
  waitPromises : list nat;
  cacheDb : gmap string Args;
  emitted : list Metric;
  handled : list HandlerCall;
  posts : list nat;
  loops : list Loop;
}.

Definition init : State := {|
  stopCallbackRetry := false;
  pendingCallbacksCount := 0;
  pendingCallback := ∅;
  waitPromises := [];
  cacheDb := ∅;
  emitted := [];
  handled := [];
  posts := [];
  loops := [];
|}.

Definition set_stop (b : bool) (s : State) : State :=
  {| stopCallbackRetry := b;
     pendingCallbacksCount := pendingCallbacksCount s;
     pendingCallback := pendingCallback s;
     waitPromises := waitPromises s;
     cacheDb := cacheDb s;
     emitted := emitted s;
     handled := handled s;
     posts := posts s;
     loops := loops s |}.

Definition set_count (n : Z) (s : State) : State :=
  {| stopCallbackRetry := stopCallbackRetry s;
     pendingCallbacksCount := n;
     pendingCallback := pendingCallback s;
     waitPromises := waitPromises s;
     cacheDb := cacheDb s;
     emitted := emitted s;
     handled := handled s;
     posts := posts s;
     loops := loops s |}.

Definition set_pendingCallback (m : gmap string Z) (s : State) : State :=
  {| stopCallbackRetry := stopCallbackRetry s;
     pendingCallbacksCount := pendingCallbacksCount s;
     pendingCallback := m;
     waitPromises := waitPromises s;
     cacheDb := cacheDb s;
     emitted := emitted s;
     handled := handled s;
     posts := posts s;
     loops := loops s |}.

Definition set_waitPromises (w : list nat) (s : State) : State :=
  {| stopCallbackRetry := stopCallbackRetry s;
     pendingCallbacksCount := pendingCallbacksCount s;
     pendingCallback := pendingCallback s;
     waitPromises := w;
     cacheDb := cacheDb s;
     emitted := emitted s;
     handled := handled s;
     posts := posts s;
     loops := loops s |}.

Definition set_cacheDb (d : gmap string Args) (s : State) : State :=
  {| stopCallbackRetry := stopCallbackRetry s;
     pendingCallbacksCount := pendingCallbacksCount s;
     pendingCallback := pendingCallback s;
     waitPromises := waitPromises s;
     cacheDb := d;
     emitted := emitted s;
     handled := handled s;
     posts := posts s;
     loops := loops s |}.

Definition emit (m : Metric) (s : State) : State :=
  {| stopCallbackRetry := stopCallbackRetry s;
     pendingCallbacksCount := pendingCallbacksCount s;
     pendingCallback := pendingCallback s;
     waitPromises := waitPromises s;
     cacheDb := cacheDb s;
     emitted := emitted s ++ [m];
     handled := handled s;
     posts := posts s;
     loops := loops s |}.

Definition add_handled (c : HandlerCall) (s : State) : State :=
  {| stopCallbackRetry := stopCallbackRetry s;
     pendingCallbacksCount := pendingCallbacksCount s;
     pendingCallback := pendingCallback s;
     waitPromises := waitPromises s;
     cacheDb := cacheDb s;
     emitted := emitted s;
     handled := handled s ++ [c];
     posts := posts s;
     loops := loops s |}.

Definition add_posted (i : nat) (s : State) : State :=
  {| stopCallbackRetry := stopCallbackRetry s;
     pendingCallbacksCount := pendingCallbacksCount s;
     pendingCallback := pendingCallback s;
     waitPromises := waitPromises s;
     cacheDb := cacheDb s;
     emitted := emitted s;
     handled := handled s;
     posts := posts s ++ [i];
     loops := loops s |}.

Definition set_loops (ls : list Loop) (s : State) : State :=
  {| stopCallbackRetry := stopCallbackRetry s;
     pendingCallbacksCount := pendingCallbacksCount s;
     pendingCallback := pendingCallback s;
     waitPromises := waitPromises s;
     cacheDb := cacheDb s;
     emitted := emitted s;
     handled := handled s;
     posts := posts s;
     loops := ls |}.

Definition with_pc (p : Pc) (l : Loop) : Loop :=
  {| args := args l; startTime := startTime l; pc := p |}.

(** Loop [i] moves to [p]. *)
Definition goto (i : nat) (l : Loop) (p : Pc) (s : State) : State :=
  set_loops (<[i := with_pc p l]> (loops s)) s.

Definition incrementPendingCallbacksCount (s : State) : State :=
  let s := set_count (pendingCallbacksCount s + 1) s in
  emit (pendingCallbacksCountIs (pendingCallbacksCount s)) s.

Definition decrementPendingCallbacksCount (s : State) : State :=
  let s := set_count (pendingCallbacksCount s - 1) s in
  emit (pendingCallbacksCountIs (pendingCallbacksCount s)) s.

(** Modelled from the spec: [cacheDb.setCallbackWithRetryData] ([db/cache]
    is not among the sources), the durable store's [put] on the table of
    retry records, by [cbId].  The write takes effect when it is issued. *)
Definition setCallbackWithRetryData (a : Args) (s : State) : State :=
  set_cacheDb (<[cbId a := a]> (cacheDb s)) s.

(** Modelled from the spec: [cacheDb.removeCallbackWithRetryData], the
    durable store's [delete] on the same table. *)
Definition removeCallbackWithRetryData (id : string) (s : State) : State :=
  set_cacheDb (delete id (cacheDb s)) s.

(** [if (responseCallbackFnName) getResponseCallbackFn(...)(x, data)].  The
    handlers are [async] functions of the node itself, looked up by name:
    the function is found, and its call, which is not awaited, returns a
    promise; the loop only sees that the call was made. *)
Definition callResponseCallback (a : Args) (x : HandlerArg) (s : State)
  : State :=
  if truthy_str (responseCallbackFnName a)
  then add_handled {| fnName := default "" (responseCallbackFnName a);
                      arg := x;
                      data := dataForResponseCallback a |} s
  else s.

(** The top of [for (;;)]: leave when the stop flag is up, else start a
    POST and wait for it. *)
Definition iterate (i : nat) (l : Loop) (s : State) : State :=
  if stopCallbackRetry s then goto i l (Returned Stopped) s
  else goto i l AwaitPost (add_posted i s).

(** [callbackWithRetry], from the call to its first [await].  [now] and
    [now'] are the two readings of [Date.now()]. *)
Definition callbackWithRetry (cfg : Config) (a : Args) (now now' : Z)
    (s : State) : State :=
  let s := incrementPendingCallbacksCount s in
  let i := length (loops s) in
  let l := {| args := a; startTime := now; pc := AwaitPost |} in
  let s := set_loops (loops s ++ [l]) s in
  let s :=
    if decide (mode cfg = WORKER)
    then set_pendingCallback
           (<[cbId a :=
                if truthy_num (deadline a) then default 0 (deadline a)
                else now' + callbackRetryTimeout cfg * 1000]>
              (pendingCallback s)) s
    else s in
  iterate i l s.

(** Modelled from the spec: the stoppable sleep [wait(ms, true)] of
    main-server's [utils/index.js], which is not among the sources.  "An
    in-flight sleep is tracked and can be interrupted by the global stop
    signal": the handle is pushed on [waitPromises], its [stop()] marks the
    sleep interrupted, and the loop resumes in a later turn, be it because
    the delay has passed or because the sleep was interrupted. *)
Definition wait (i : nat) (l : Loop) (nextRetry : Z) (s : State) : State :=
  goto i l (AwaitWait nextRetry false)
       (set_waitPromises (waitPromises s ++ [i]) s).

(** Modelled from the spec: [waitPromise.stop()], which interrupts the
    sleep of the loop that holds the handle, if it is still asleep. *)
Definition stop (ls : list Loop) (i : nat) : list Loop :=
  match ls !! i with
  | Some l =>
      match pc l with
      | AwaitWait nextRetry _ => <[i := with_pc (AwaitWait nextRetry true) l]> ls
      | _ => ls
      end
  | None => ls
  end.

(** The [try] block after [await httpPost(...)] has resolved. *)
Definition posted_resolved (cfg : Config) (i : nat) (l : Loop)
    (responseObj : ResponseObj) (now : Z) (s : State) : State :=
  let a := args l in
  let s :=
    if decide (mode cfg = WORKER)
    then set_pendingCallback (delete (cbId a) (pendingCallback s)) s
    else s in
  let s := decrementPendingCallbacksCount s in
  let s := emit (callbackTime (status responseObj)
                   (negb (bodySize responseObj =? 0))
                   (now - startTime l)) s in
  let s := removeCallbackWithRetryData (cbId a) s in
  let s := callResponseCallback a (WithResponse responseObj) s in
  goto i l (Returned Delivered) s.

(** The [catch (error)] block, up to its next [await] or [return].
    [nextRetry] is [backoff.next()]; [nowDeadline] and [nowElapsed] are what
    [Date.now()] returns in the deadline test and in the elapsed-time test. *)
Definition posted_rejected (cfg : Config) (i : nat) (l : Loop)
    (error : Error) (nextRetry nowDeadline nowElapsed : Z) (s : State)
  : State :=
  let a := args l in
  if is_max_size error then
    let s := decrementPendingCallbacksCount s in
    let s := removeCallbackWithRetryData (cbId a) s in
    let s := callResponseCallback a (WithError "BODY_TOO_LARGE") s in
    let s := emit callbackFail s in
    goto i l (Returned BodyTooLarge) s
  else if truthy_str (shouldRetryFnName a) then
    goto i l (AwaitShouldRetry nextRetry) s
  else if (negb (truthy_num (deadline a))
           || (nowDeadline <? default 0 (deadline a)))
          && (nowElapsed - startTime l + nextRetry
              >? callbackRetryTimeout cfg * 1000) then
    let s := decrementPendingCallbacksCount s in
    let s := removeCallbackWithRetryData (cbId a) s in
    let s := emit callbackTimedOut s in
    goto i l (Returned TimedOut) s
  else wait i l nextRetry s.

Definition posted (cfg : Config) (i : nat) (l : Loop) (r : Reply)
    (nextRetry now nowDeadline nowElapsed : Z) (s : State) : State :=
  match httpPost r with
  | inr responseObj => posted_resolved cfg i l responseObj now s
  | inl error => posted_rejected cfg i l error nextRetry nowDeadline nowElapsed s
  end.

(** What the should-retry function did: it returned a truthy or a falsy
    value, or it threw (then the code sets [shouldRetry = true]). *)
Inductive Decision := Says (shouldRetry : bool) | Throws.

Definition decided (i : nat) (l : Loop) (nextRetry : Z) (d : Decision)
    (s : State) : State :=
  let shouldRetry := match d with Says b => b | Throws => true end in
  if negb shouldRetry then
    let s := decrementPendingCallbacksCount s in
    let s := removeCallbackWithRetryData (cbId (args l)) s in
    let s := emit callbackFail s in
    goto i l (Returned Vetoed) s
  else wait i l nextRetry s.

(** After [await waitPromise]: the handle is spliced out and the loop goes
    round. *)
Definition woken (i : nat) (l : Loop) (s : State) : State :=
  let s := set_waitPromises (splice_indexOf i (waitPromises s)) s in
  iterate i l s.

Definition stopAllCallbackRetries (s : State) : State :=
  let s := set_stop true s in
  set_loops (foldl stop (loops s) (waitPromises s)) s.

(** The turns of the module. *)
Inductive Event :=
| SetData (a : Args)
| Call (a : Args) (now now' : Z)
| Posted (i : nat) (r : Reply) (nextRetry now nowDeadline nowElapsed : Z)
| Decided (i : nat) (d : Decision)
| Woken (i : nat)
| StopAll.

Definition step (cfg : Config) (e : Event) (s : State) : option State :=
  match e with
  | SetData a => Some (setCallbackWithRetryData a s)
  | Call a now now' => Some (callbackWithRetry cfg a now now' s)
  | Posted i r nextRetry now nowDeadline nowElapsed =>
      l ← loops s !! i;
      match pc l with
      | AwaitPost => Some (posted cfg i l r nextRetry now nowDeadline nowElapsed s)
      | _ => None
      end
  | Decided i d =>
      l ← loops s !! i;
      match pc l with
      | AwaitShouldRetry nextRetry => Some (decided i l nextRetry d s)
      | _ => None
      end
  | Woken i =>
      l ← loops s !! i;
      match pc l with
      | AwaitWait _ _ => Some (woken i l s)
      | _ => None
      end
  | StopAll => Some (stopAllCallbackRetries s)
  end.

(** [callbackToClient] with [retry] set: the record is saved, then the
    loop is entered. *)
Definition callbackToClient (a : Args) (now now' : Z) : list Event :=
  [SetData a; Call a now now'].

(** Modelled from the spec: a restart of the process ("on restart, every
    still-persisted retry record is resumed"): the variables of the module
    are what they are at the start, the cache database is what it was. *)
Definition restart (s : State) : State := set_cacheDb (cacheDb s) init.

(** [resumeCallbackToClient]: one call of [callbackWithRetry] for each saved
    record, with the [cbId] it is saved under and without deadline.  The
    records come from [cacheDb.getAllCallbackWithRetryData], which is not in
    the sources at hand: it is taken to list the table, [map_to_list]. *)
Definition resumed (kv : string * Args) : Args :=
  {| callbackUrl := callbackUrl kv.2;
     body := body kv.2;
     cbId := kv.1;
     shouldRetryFnName := shouldRetryFnName kv.2;
     shouldRetryArguments := shouldRetryArguments kv.2;
     responseCallbackFnName := responseCallbackFnName kv.2;
     dataForResponseCallback := dataForResponseCallback kv.2;
     deadline := None |}.

Definition resumeCallbackToClient (now : Z) (s : State) : list Event :=
  (λ kv, Call (resumed kv) now now) <$> map_to_list (cacheDb s).

(** The number of POSTs loop [i] has started, and its outcome if any. *)
Definition attempts (i : nat) (s : State) : nat :=
  length (filter (λ j, j = i) (posts s)).

Definition pc_of (i : nat) (s : State) : option Pc :=
  pc <$> loops s !! i.

(** A loop still counts in [pendingCallbacksCount] unless it ended in one
    of the four terminal outcomes. *)
Definition counts (l : Loop) : Z :=
  match pc l with
  | Returned Stopped => 1
  | Returned _ => 0
  | _ => 1
  end.

Definition pending (ls : list Loop) : Z := total counts ls.

Definition halted (l : Loop) : Z :=
  match pc l with
  | Returned Stopped => 1
  | _ => 0
  end.

Definition halted_loops (ls : list Loop) : Z := total halted ls.

(** The loop whose turn an event is, if it is the turn of a loop that
    exists already. *)
Definition target (e : Event) : option nat :=
  match e with
  | Posted i _ _ _ _ _ | Decided i _ | Woken i => Some i
  | SetData _ | Call _ _ _ | StopAll => None
  end.

(** Whether a loop has left [callbackWithRetry] for good, with one of the
    four outcomes that decrement the counter. *)
Definition terminal (p : option Pc) : bool :=
  match p with
  | Some (Returned Stopped) => false
  | Some (Returned _) => true
  | _ => false
  end.

(** What "no further attempt" means for loop [i] from state [s] on: in
    every later state it has returned with the same outcome, has started
    no further POST, and no event is its turn. *)
Definition over (cfg : Config) (i : nat) (o : Outcome) (s : State) : Prop :=
  ∀ evs s', run (step cfg) evs s = Some s' →
    pc_of i s' = Some (Returned o) ∧
    attempts i s' = attempts i s ∧
    ∀ e, target e = Some i → step cfg e s' = None.

(** Every POST on record is that of a loop that exists. *)
Definition posts_bounded (s : State) : Prop :=
  Forall (λ j, (j < length (loops s))%nat) (posts s).

(** Every sleeping loop has its handle in [waitPromises]. *)
Definition sleeps_tracked (s : State) : Prop :=
  ∀ i l n b, loops s !! i = Some l → pc l = AwaitWait n b →
             i ∈ waitPromises s.

Definition has_returned (l : Loop) : bool :=
  match pc l with
  | Returned _ => true
  | _ => false
  end.

(** Sample data: a node in standalone mode with a ten-minute retry
    timeout, and three deliveries: a plain one, one with a should-retry
    function, one with a deadline. *)
Definition sample_config : Config :=
  {| mode := STANDALONE; callbackRetryTimeout := 600 |}.

Definition sample_args : Args :=
  {| callbackUrl := "http://client/callback";
     body := "{}";
     cbId := "cb-1";
     shouldRetryFnName := None;
     shouldRetryArguments := [];
     responseCallbackFnName := Some "idp.processIdpResponseAfterCallback";
     dataForResponseCallback := "req-1";
     deadline := None |}.

Definition sample_args_predicate : Args :=
  {| callbackUrl := "http://client/callback";
     body := "{}";
     cbId := "cb-2";
     shouldRetryFnName := Some "common.isRequestClosedOrTimedOut";
     shouldRetryArguments := ["req-2"];
     responseCallbackFnName := None;
     dataForResponseCallback := "";
     deadline := None |}.

Definition sample_args_deadline : Args :=
  {| callbackUrl := "http://client/callback";
     body := "{}";
     cbId := "cb-3";
     shouldRetryFnName := None;
     shouldRetryArguments := [];
     responseCallbackFnName := None;
     dataForResponseCallback := "";
     deadline := Some 15000 |}.

(** The state right after [callbackToClient] of a sample delivery. *)
Definition sample_state (a : Args) : State :=
  callbackWithRetry sample_config a 0 0 (setCallbackWithRetryData a init).

End Callback.

(** * The per-request task queue ([core/common]) *)
Module Queue.

(** [taskData]; [onCallbackFinished] is a function of the node, kept by its
    name. *)
Record Task := {
  nodeId : string;
  callbackFnName : string;
  callbackArgs : list string;
  onCallbackFinished : option string;
  onCallbackFinishedArgs : list string;
  startTime : Z;
}.

#[global] Instance Task_eq_dec : EqDecision Task.
Proof. solve_decision. Defined.

(** Events on [metricsEventEmitter]. *)
Inductive Metric :=
| pendingTasksInQueueCountIs (n : Z)
| processingTasksCountIs (n : Z)
| requestsInQueueCountIs (n : Z)
| taskPendingTime (ms : Z)
| taskProcessTime (ms : Z)
| taskProcessFail.

#[global] Instance Metric_eq_dec : EqDecision Metric.
Proof. solve_decision. Defined.

(** What can be observed of a queue: a task is pushed, its function is
    called (or handed to a worker), and [onTaskExecutionFinished] has
    called its [onCallbackFinished] and got control back. *)
Inductive Obs :=
| Pushed (requestId : string) (t : Task)
| Started (requestId : string) (t : Task)
| Finished (requestId : string) (t : Task).

#[global] Instance Obs_eq_dec : EqDecision Obs.
Proof. solve_decision. Defined.

(** [removePersistentQueuePromise] of a task: absent in master mode, else
    pending (with or without the [then] that schedules the next turn) or
    resolved. *)
Inductive Promise := NoPromise | Pending (then_ : bool) | Resolved.

#[global] Instance Promise_eq_dec : EqDecision Promise.
Proof. solve_decision. Defined.

(** A call of [addTaskToQueue], waiting or not for
    [addTaskToPersistentQueue]. *)
Record Adding := {
  add_requestId : string;
  add_taskData : Task;
  add_awaiting : bool;
}.

#[global] Instance Adding_eq_dec : EqDecision Adding.
Proof. solve_decision. Defined.

(** A task taken by [executeTaskInQueue]: whether its function is still
    running, whether [executeTaskInQueue] still waits for
    [removeFirstTaskFromPersistentQueue], and its promise. *)
Record Job := {
  job_requestId : string;
  job_task : Task;
  job_startTime : Z;
  job_running : bool;
  job_removing : bool;
  job_promise : Promise;
}.

#[global] Instance Job_eq_dec : EqDecision Job.
Proof. solve_decision. Defined.

Record State := {
  requestQueue : gmap string (list Task);
  requestQueueRunning : gmap string bool;
  pendingTasksInQueueCount : Z;
  processingTasksCount : Z;
  requestsInQueueCount : Z;
  persistentQueue : gmap string (list Task);
  immediates : list string;
  adds : list Adding;
  jobs : list Job;
  emitted : list Metric;
  trace : list Obs;
}.

#[global] Instance State_eq_dec : EqDecision State.
Proof. solve_decision. Defined.

Definition init : State := {|
  requestQueue := ∅;
  requestQueueRunning := ∅;
  pendingTasksInQueueCount := 0;
  processingTasksCount := 0;
  requestsInQueueCount := 0;
  persistentQueue := ∅;
  immediates := [];
  adds := [];
  jobs := [];
  emitted := [];
  trace := [];
|}.

Definition set_requestQueue (q : gmap string (list Task)) (s : State) :=
  {| requestQueue := q; requestQueueRunning := requestQueueRunning s;
     pendingTasksInQueueCount := pendingTasksInQueueCount s;
     processingTasksCount := processingTasksCount s;
     requestsInQueueCount := requestsInQueueCount s;
     persistentQueue := persistentQueue s; immediates := immediates s;
     adds := adds s; jobs := jobs s; emitted := emitted s;
     trace := trace s |}.

Definition set_requestQueueRunning (r : gmap string bool) (s : State) :=
  {| requestQueue := requestQueue s; requestQueueRunning := r;
     pendingTasksInQueueCount := pendingTasksInQueueCount s;
     processingTasksCount := processingTasksCount s;
     requestsInQueueCount := requestsInQueueCount s;
     persistentQueue := persistentQueue s; immediates := immediates s;
     adds := adds s; jobs := jobs s; emitted := emitted s;
     trace := trace s |}.

Definition set_pendingTasksInQueueCount (n : Z) (s : State) :=
  {| requestQueue := requestQueue s;
     requestQueueRunning := requestQueueRunning s;
     pendingTasksInQueueCount := n;
     processingTasksCount := processingTasksCount s;
     requestsInQueueCount := requestsInQueueCount s;
     persistentQueue := persistentQueue s; immediates := immediates s;
     adds := adds s; jobs := jobs s; emitted := emitted s;
     trace := trace s |}.

Definition set_processingTasksCount (n : Z) (s : State) :=
  {| requestQueue := requestQueue s;
     requestQueueRunning := requestQueueRunning s;
     pendingTasksInQueueCount := pendingTasksInQueueCount s;
     processingTasksCount := n;
     requestsInQueueCount := requestsInQueueCount s;
     persistentQueue := persistentQueue s; immediates := immediates s;
     adds := adds s; jobs := jobs s; emitted := emitted s;
     trace := trace s |}.

Definition set_requestsInQueueCount (n : Z) (s : State) :=
  {| requestQueue := requestQueue s;
     requestQueueRunning := requestQueueRunning s;
     pendingTasksInQueueCount := pendingTasksInQueueCount s;
     processingTasksCount := processingTasksCount s;
     requestsInQueueCount := n;
     persistentQueue := persistentQueue s; immediates := immediates s;
     adds := adds s; jobs := jobs s; emitted := emitted s;
     trace := trace s |}.

Definition set_persistentQueue (p : gmap string (list Task)) (s : State) :=
  {| requestQueue := requestQueue s;
     requestQueueRunning := requestQueueRunning s;
     pendingTasksInQueueCount := pendingTasksInQueueCount s;
     processingTasksCount := processingTasksCount s;
     requestsInQueueCount := requestsInQueueCount s;
     persistentQueue := p; immediates := immediates s;
     adds := adds s; jobs := jobs s; emitted := emitted s;
     trace := trace s |}.

Definition set_immediates (i : list string) (s : State) :=
  {| requestQueue := requestQueue s;
     requestQueueRunning := requestQueueRunning s;
     pendingTasksInQueueCount := pendingTasksInQueueCount s;
     processingTasksCount := processingTasksCount s;
     requestsInQueueCount := requestsInQueueCount s;
     persistentQueue := persistentQueue s; immediates := i;
     adds := adds s; jobs := jobs s; emitted := emitted s;
     trace := trace s |}.

Definition set_adds (a : list Adding) (s : State) :=
  {| requestQueue := requestQueue s;
     requestQueueRunning := requestQueueRunning s;
     pendingTasksInQueueCount := pendingTasksInQueueCount s;
     processingTasksCount := processingTasksCount s;
     requestsInQueueCount := requestsInQueueCount s;
     persistentQueue := persistentQueue s; immediates := immediates s;
     adds := a; jobs := jobs s; emitted := emitted s;
     trace := trace s |}.

Definition set_jobs (j : list Job) (s : State) :=
  {| requestQueue := requestQueue s;
     requestQueueRunning := requestQueueRunning s;
     pendingTasksInQueueCount := pendingTasksInQueueCount s;
     processingTasksCount := processingTasksCount s;
     requestsInQueueCount := requestsInQueueCount s;
     persistentQueue := persistentQueue s; immediates := immediates s;
     adds := adds s; jobs := j; emitted := emitted s;
     trace := trace s |}.

Definition emit (m : Metric) (s : State) :=
  {| requestQueue := requestQueue s;
     requestQueueRunning := requestQueueRunning s;
     pendingTasksInQueueCount := pendingTasksInQueueCount s;
     processingTasksCount := processingTasksCount s;
     requestsInQueueCount := requestsInQueueCount s;
     persistentQueue := persistentQueue s; immediates := immediates s;
     adds := adds s; jobs := jobs s; emitted := emitted s ++ [m];
     trace := trace s |}.

Definition observe (o : Obs) (s : State) :=
  {| requestQueue := requestQueue s;
     requestQueueRunning := requestQueueRunning s;
     pendingTasksInQueueCount := pendingTasksInQueueCount s;
     processingTasksCount := processingTasksCount s;
     requestsInQueueCount := requestsInQueueCount s;
     persistentQueue := persistentQueue s; immediates := immediates s;
     adds := adds s; jobs := jobs s; emitted := emitted s;
     trace := trace s ++ [o] |}.

Definition incrementPendingTasksInQueueCount (s : State) : State :=
  let s := set_pendingTasksInQueueCount (pendingTasksInQueueCount s + 1) s in
  emit (pendingTasksInQueueCountIs (pendingTasksInQueueCount s)) s.

Definition decrementPendingTasksInQueueCount (s : State) : State :=
  let s := set_pendingTasksInQueueCount (pendingTasksInQueueCount s - 1) s in
  emit (pendingTasksInQueueCountIs (pendingTasksInQueueCount s)) s.

Definition notifyTaskPendingTime (now startTime : Z) (s : State) : State :=
  emit (taskPendingTime (now - startTime)) s.

Definition incrementProcessingTasksCount (s : State) : State :=
  let s := set_processingTasksCount (processingTasksCount s + 1) s in
  emit (processingTasksCountIs (processingTasksCount s)) s.

Definition decrementProcessingTasksCount (s : State) : State :=
  let s := set_processingTasksCount (processingTasksCount s - 1) s in
  emit (processingTasksCountIs (processingTasksCount s)) s.

Definition notifyTaskProcessTime (now startTime : Z) (s : State) : State :=
  emit (taskProcessTime (now - startTime)) s.

Definition notifyTaskProcessFail (s : State) : State :=
  emit taskProcessFail s.

Definition incrementRequestsInQueueCount (s : State) : State :=
  let s := set_requestsInQueueCount (requestsInQueueCount s + 1) s in
  emit (requestsInQueueCountIs (requestsInQueueCount s)) s.

Definition decrementRequestsInQueueCount (s : State) : State :=
  let s := set_requestsInQueueCount (requestsInQueueCount s - 1) s in
  emit (requestsInQueueCountIs (requestsInQueueCount s)) s.

(** Modelled from the spec: the persistent queue of the cache database
    ([db/cache] is not among the sources), a durable store of the queued
    tasks of each key, in order.  A write takes effect when it is issued;
    the caller's [await] resolves in a later turn. *)
Definition persisted (requestId : string) (s : State) : list Task :=
  default [] (persistentQueue s !! requestId).

(** Modelled from the spec: [cacheDb.addTaskToPersistentQueue], which
    appends the task to the persisted tasks of the key. *)
Definition addTaskToPersistentQueue (requestId : string) (taskData : Task)
    (s : State) : State :=
  set_persistentQueue
    (<[requestId := persisted requestId s ++ [taskData]]> (persistentQueue s)) s.

(** Modelled from the spec: [cacheDb.removeFirstTaskFromPersistentQueue],
    which removes the first of the persisted tasks of the key. *)
Definition removeFirstTaskFromPersistentQueue (requestId : string)
    (s : State) : State :=
  set_persistentQueue
    (<[requestId := tail (persisted requestId s)]> (persistentQueue s)) s.

Definition cleanUpQueue (requestId : string) (s : State) : State :=
  let s := set_requestQueue (delete requestId (requestQueue s)) s in
  decrementRequestsInQueueCount s.

(** [setImmediate(executeTaskInQueue, requestId)] *)
Definition setImmediate (requestId : string) (s : State) : State :=
  set_immediates (immediates s ++ [requestId]) s.

(** [addTaskToQueue], from the call to its [await]; [taskData] has
    [Date.now()] as its [startTime].  [requestQueue] is a plain object:
    under a name it inherits and has no queue for,
    [requestQueue[requestId] == null] is false and no queue is made. *)
Definition addTaskToQueue (requestId : string) (taskData : Task) (s : State)
  : State :=
  let s :=
    match requestQueue s !! requestId with
    | None =>
        if inherited requestId then s
        else
          let s := set_requestQueue (<[requestId := []]> (requestQueue s)) s in
          incrementRequestsInQueueCount s
    | Some _ => s
    end in
  let s := addTaskToPersistentQueue requestId taskData s in
  set_adds (adds s ++ [{| add_requestId := requestId;
                          add_taskData := taskData;
                          add_awaiting := true |}]) s.

(** [addTaskToQueue] after its [await]:
    [requestQueue[requestId].push(taskData)] throws a [TypeError] when the
    key has no queue (it is no longer there, or the name is an inherited
    one, whose value has no [push]), and the call ends at that point. *)
Definition addTaskToQueue_persisted (n : nat) (a : Adding) (s : State)
  : State :=
  let requestId := add_requestId a in
  let taskData := add_taskData a in
  let s := set_adds (<[n := {| add_requestId := requestId;
                               add_taskData := taskData;
                               add_awaiting := false |}]> (adds s)) s in
  match requestQueue s !! requestId with
  | None => s
  | Some q =>
      let s := set_requestQueue (<[requestId := q ++ [taskData]]> (requestQueue s)) s in
      let s := observe (Pushed requestId taskData) s in
      let s := incrementPendingTasksInQueueCount s in
      setImmediate requestId s
  end.

(** The task's function is called (standalone, after
    [removePersistentQueueEmitter.once(requestId, resolve)]) or handed to
    [delegateToWorker] (master). *)
Definition dispatch (requestId : string) (task : Task) (startTime : Z)
    (p : Promise) (s : State) : State :=
  let s := set_jobs (jobs s ++ [{| job_requestId := requestId;
                                   job_task := task;
                                   job_startTime := startTime;
                                   job_running := true;
                                   job_removing := true;
                                   job_promise := p |}]) s in
  observe (Started requestId task) s.

(** [executeTaskInQueue], up to its [await].  The test
    [requestQueueRunning[requestId]] also passes for a name the object
    inherits.  [requestQueue[requestId].shift()] throws when the key has no
    queue; in worker mode the function throws after it has marked the key
    running. *)
Definition executeTaskInQueue (mode : Mode) (requestId : string)
    (now now' : Z) (s : State) : State :=
  if truthy_at (requestQueueRunning s) requestId then s
  else
    match requestQueue s !! requestId with
    | None => s
    | Some [] => cleanUpQueue requestId s
    | Some (task :: rest) =>
        let s := set_requestQueue (<[requestId := rest]> (requestQueue s)) s in
        let s := set_requestQueueRunning
                   (<[requestId := true]> (requestQueueRunning s)) s in
        let s := decrementPendingTasksInQueueCount s in
        let s := notifyTaskPendingTime now (startTime task) s in
        let s := incrementProcessingTasksCount s in
        match mode with
        | STANDALONE =>
            let s := dispatch requestId task now' (Pending false) s in
            removeFirstTaskFromPersistentQueue requestId s
        | MASTER =>
            let s := dispatch requestId task now' NoPromise s in
            removeFirstTaskFromPersistentQueue requestId s
        | WORKER => s
        end
    end.

Definition with_job (running removing : bool) (p : Promise) (j : Job) : Job :=
  {| job_requestId := job_requestId j;
     job_task := job_task j;
     job_startTime := job_startTime j;
     job_running := running;
     job_removing := removing;
     job_promise := p |}.

(** [removePersistentQueueEmitter.emit(requestId)]: every promise still
    listening on the key resolves, and those with a [then] schedule a
    turn. *)
Definition listens (requestId : string) (j : Job) : bool :=
  bool_decide (job_requestId j = requestId) &&
  match job_promise j with Pending _ => true | _ => false end.

Definition schedules (requestId : string) (j : Job) : bool :=
  bool_decide (job_requestId j = requestId) &&
  match job_promise j with Pending true => true | _ => false end.

Definition resolve (requestId : string) (j : Job) : Job :=
  if listens requestId j
  then with_job (job_running j) (job_removing j) Resolved j
  else j.

Definition removePersistentQueueEmitter_emit (requestId : string)
    (s : State) : State :=
  let turns := job_requestId <$> filter (λ j, schedules requestId j = true) (jobs s) in
  let s := set_jobs (resolve requestId <$> jobs s) s in
  set_immediates (immediates s ++ turns) s.

(** [executeTaskInQueue] after its [await]. *)
Definition executeTaskInQueue_removed (n : nat) (j : Job) (s : State)
  : State :=
  let s := set_jobs (<[n := with_job (job_running j) false (job_promise j) j]>
                       (jobs s)) s in
  removePersistentQueueEmitter_emit (job_requestId j) s.

Definition onTaskExecutionSuccess (now startTime : Z) (s : State) : State :=
  notifyTaskProcessTime now startTime s.

Definition onTaskExecutionFail (s : State) : State :=
  notifyTaskProcessFail s.

(** [onTaskExecutionFinished].  [Finished] is observed where
    [onCallbackFinished], if there is one, has been called and has returned.
    [requestQueue[requestId].length] throws when the key has no queue and
    the name is not an inherited one; under an inherited name it is the
    [length] of the inherited value. *)
Definition onTaskExecutionFinished (n : nat) (j : Job) (s : State) : State :=
  let requestId := job_requestId j in
  let ended p s :=
    set_jobs (<[n := with_job false (job_removing j) p j]> (jobs s)) s in
  let next s :=
    match job_promise j with
    | NoPromise | Resolved => setImmediate requestId (ended (job_promise j) s)
    | Pending _ => ended (Pending true) s
    end in
  let s := decrementProcessingTasksCount s in
  let s := observe (Finished requestId (job_task j)) s in
  let s := set_requestQueueRunning (delete requestId (requestQueueRunning s)) s in
  match requestQueue s !! requestId with
  | None =>
      if inherited requestId then
        if inherited_nullary requestId
        then cleanUpQueue requestId (ended (job_promise j) s)
        else next s
      else ended (job_promise j) s
  | Some [] => cleanUpQueue requestId (ended (job_promise j) s)
  | Some (_ :: _) => next s
  end.

(** The end of a task: the promise chain of standalone mode, or
    [onTaskExecutionCallback] in master mode. *)
Definition onTaskExecutionCallback (n : nat) (j : Job) (ok : bool) (now : Z)
    (s : State) : State :=
  let s := if ok then onTaskExecutionSuccess now (job_startTime j) s
           else onTaskExecutionFail s in
  onTaskExecutionFinished n j s.

(** The callback of [tasksInPersistentQueue.forEach]: the tasks become
    the queue of the key, each is counted as pending, and a turn of
    [executeTaskInQueue] is scheduled.  [incrementRequestsInQueueCount] is
    not called. *)
Definition restoreTask (s : State) (entry : string * list Task) : State :=
  let requestId := entry.1 in
  let tasks := entry.2 in
  let s := set_requestQueue (<[requestId := tasks]> (requestQueue s)) s in
  let s := foldl (λ s _, incrementPendingTasksInQueueCount s) s tasks in
  setImmediate requestId s.

(** [restoreTaskFromPersistentQueue] after its [await], with what
    [cacheDb.getAllTaskInPersistentQueue] has answered. *)
Definition restoreTaskFromPersistentQueue
    (tasksInPersistentQueue : list (string * list Task)) (s : State)
  : State :=
  foldl restoreTask s tasksInPersistentQueue.

(** Modelled from the spec: the start-up recovery.  Nothing in the sources
    calls [restoreTaskFromPersistentQueue]; by the spec it runs on process
    start, when "all persisted tasks are reloaded per key".  So its turn is
    taken in the first state only; [cacheDb.getAllTaskInPersistentQueue]
    ([db/cache] is not among the sources) answers with the persisted tasks
    of each key, one entry per key, which the store holds from then on.  An
    entry under the name [__proto__] would replace the prototype of
    [requestQueue]; the model has no turn for it. *)
Definition recovers (tasksInPersistentQueue : list (string * list Task))
    (s : State) : Prop :=
  s = init ∧ NoDup tasksInPersistentQueue.*1 ∧
  "__proto__" ∉ tasksInPersistentQueue.*1.

#[global] Instance recovers_dec l s : Decision (recovers l s).
Proof. unfold recovers. apply _. Defined.

(** The turns of the queue. *)
Inductive Event :=
| Restore (tasksInPersistentQueue : list (string * list Task))
| Add (requestId : string) (taskData : Task)
| Persisted (n : nat)
| Immediate (now now' : Z)
| Removed (n : nat)
| Done (n : nat) (ok : bool) (now : Z).

Definition step (mode : Mode) (e : Event) (s : State) : option State :=
  match e with
  | Restore tasksInPersistentQueue =>
      if decide (recovers tasksInPersistentQueue s)
      then Some (restoreTaskFromPersistentQueue tasksInPersistentQueue
                   (set_persistentQueue (list_to_map tasksInPersistentQueue) s))
      else None
  | Add requestId taskData => Some (addTaskToQueue requestId taskData s)
  | Persisted n =>
      a ← adds s !! n;
      if add_awaiting a then Some (addTaskToQueue_persisted n a s) else None
  | Immediate now now' =>
      match immediates s with
      | requestId :: rest =>
          Some (executeTaskInQueue mode requestId now now' (set_immediates rest s))
      | [] => None
      end
  | Removed n =>
      j ← jobs s !! n;
      if job_removing j then Some (executeTaskInQueue_removed n j s) else None
  | Done n ok now =>
      j ← jobs s !! n;
      if job_running j then Some (onTaskExecutionCallback n j ok now s) else None
  end.

(** The tasks pushed, and the tasks started, for a key, in order. *)
Definition pushed (requestId : string) (tr : list Obs) : list Task :=
  omap (λ o, match o with
             | Pushed k t => if decide (k = requestId) then Some t else None
             | _ => None
             end) tr.

Definition started (requestId : string) (tr : list Obs) : list Task :=
  omap (λ o, match o with
             | Started k t => if decide (k = requestId) then Some t else None
             | _ => None
             end) tr.

Definition finished (requestId : string) (tr : list Obs) : list Task :=
  omap (λ o, match o with
             | Finished k t => if decide (k = requestId) then Some t else None
             | _ => None
             end) tr.

(** The tasks for which [addTaskToQueue] was called with a key, in the
    order of the calls. *)
Definition called_of (requestId : string) (l : list Adding) : list Task :=
  add_taskData <$> filter (λ a, add_requestId a = requestId) l.

Definition called (requestId : string) (s : State) : list Task :=
  called_of requestId (adds s).

(** The calls of [addTaskToQueue] whose [await] has resolved, in the order
    in which they resumed. *)
Definition acknowledged (evs : list Event) : list nat :=
  omap (λ e, match e with Persisted n => Some n | _ => None end) evs.

Fixpoint ascending_from (b : nat) (ns : list nat) : bool :=
  match ns with
  | [] => true
  | n :: ns' => (b <=? n)%nat && ascending_from (S n) ns'
  end.

(** The persistent queue acknowledges the writes in the order in which
    they were issued: the calls of [addTaskToQueue] resume in the order in
    which they were made. *)
Definition in_order (evs : list Event) : bool :=
  ascending_from 0 (acknowledged evs).


(** The tasks that the start-up recovery put on the queue of a key, and
    the number of queues it made. *)
Definition tasks_of (requestId : string) (l : list (string * list Task))
  : list Task :=
  mjoin (snd <$> filter (λ entry, entry.1 = requestId) l).


Definition recoveredQueues (evs : list Event) : Z :=
  total (λ e, match e with
              | Restore l => Z.of_nat (length l)
              | _ => 0
              end) evs.

(** Reading a trace for one key: [Some c] while every task of the key was
    started when none was executing and finished while it was the one
    executing, [c] being the task executing at the end, if any; [None] as
    soon as two tasks of the key overlap. *)
Definition serial_step (requestId : string) (c : option (option Task))
    (o : Obs) : option (option Task) :=
  match c, o with
  | None, _ => None
  | Some c, Pushed _ _ => Some c
  | Some c, Started k t =>
      if decide (k = requestId)
      then match c with None => Some (Some t) | Some _ => None end
      else Some c
  | Some c, Finished k t =>
      if decide (k = requestId)
      then match c with
           | Some t' => if decide (t = t') then Some None else None
           | None => None
           end
      else Some c
  end.

Definition serial (requestId : string) (tr : list Obs)
  : option (option Task) :=
  foldl (serial_step requestId) (Some None) tr.


(** How many tasks of a key are executing. *)
Definition is_running (requestId : string) (j : Job) : Z :=
  if job_running j && bool_decide (job_requestId j = requestId) then 1 else 0.

Definition running_count (requestId : string) (s : State) : Z :=
  total (is_running requestId) (jobs s).

(** The queue of a key, empty when the key has none. *)
Definition queued (requestId : string) (s : State) : list Task :=
  default [] (requestQueue s !! requestId).

(** Nothing is left to do: no turn is scheduled, no call waits, no task
    is executing. *)
Definition idle (s : State) : bool :=
  bool_decide (immediates s = [])
  && forallb (λ a, negb (add_awaiting a)) (adds s)
  && forallb (λ j, negb (job_running j) && negb (job_removing j)) (jobs s).

(** Sample data: two tasks of the message handler for one request. *)
Definition sample_task (name : string) (now : Z) : Task :=
  {| nodeId := "idp1";
     callbackFnName := "idp.processMessage";
     callbackArgs := ["idp1"; name];
     onCallbackFinished := Some "releaseLock";
     onCallbackFinishedArgs := [name];
     startTime := now |}.


(** What holds of every key in every state the queue can be in: at most
    one of its tasks is executing, and then the key is marked running; its
    trace is serial, with that task as the one executing; and the tasks
    recovered, [l0], followed by the tasks pushed are the tasks started
    followed by the tasks in its queue (in worker mode, where
    [executeTaskInQueue] throws, none is started). *)
Record inv (mode : Mode) (requestId : string) (l0 : list Task) (s : State)
  : Prop := {
  inv_count : running_count requestId s ≤ 1;
  inv_flag :
    running_count requestId s = 1 →
    requestQueueRunning s !! requestId = Some true;
  inv_serial :
    ∃ c, serial requestId (trace s) = Some c ∧
         (running_count requestId s = 0 → c = None) ∧
         Forall (λ j, is_running requestId j = 1 → c = Some (job_task j))
                (jobs s);
  inv_fifo :
    if decide (mode = WORKER) then started requestId (trace s) = []
    else l0 ++ pushed requestId (trace s) =
         started requestId (trace s) ++ queued requestId s;
  inv_inherited :
    inherited requestId = true →
    requestQueueRunning s !! requestId = None ∧
    started requestId (trace s) = [];
}.

End Queue.

(** * The block-height gate ([core/common]) *)
Module Gate.

(** The routing fields of a message from the message queue. *)
Record Message := {
  chain_id : string;
  height : Z;
  request_id : string;
}.

(** The [onCallbackFinished] of the two ways into the task queue, by
    name: [addMqMessageTaskToQueue] gives [releaseLock], the sweep gives
    [releaseLockAndCleanUp]. *)
Inductive Finisher := Fn_releaseLock | Fn_releaseLockAndCleanUp.

(** A call of [addTaskToQueue] for a message, and whether the task has
    ended (its [onCallbackFinished] has been called). *)
Record Admission := {
  adm_messageId : string;
  adm_onCallbackFinished : Finisher;
  adm_finished : bool;
}.

(** Where a call of [handleMessageFromMqWithBlockWait] stands. *)
Inductive ArrivalPc :=
| AwaitHasSeenChain      (* await utils.hasSeenChain(...) *)
| AwaitSave              (* await Promise.all([setMessageFromMQ, addMessageIdToProcessAtBlock]) *)
| AwaitRemove            (* await Promise.all([removeMessageFromMQ, removeMessageIdToProcessAtBlock]) *)
| Thrown                 (* UNRECOGNIZED_MESSAGE_CHAIN_ID *)
| ReturnedFalse
| ReturnedTrue
| Queued.                (* returned true, and the caller has queued the task *)

Record Arrival := {
  arr_messageId : string;
  arr_message : Message;
  arr_pc : ArrivalPc;
}.

(** A call of [processMessageInBlocks], waiting or not for
    [getMessageIdsToProcessAtBlock], with the ids it gets. *)
Record Sweep := {
  fromHeight : Z;
  toHeight : Z;
  messageIds : list string;
  sweep_awaiting : bool;
}.

(** One of the closures of [messageIds.map], waiting or not for
    [getMessageFromMQ], with the message it gets. *)
Record Lookup := {
  look_messageId : string;
  look_message : option Message;
  look_awaiting : bool;
}.

(** [tendermint.chainId] and [tendermint.latestBlockHeight], the lock, the
    two tables of the cache database (for the node's own id), and the calls
    in progress. *)
Record State := {
  chainId : string;
  latestBlockHeight : Z;
  messageProcessLock : gmap string bool;
  messageFromMQ : gmap string Message;
  messageIdToProcessAtBlock : gmap string Z;
  arrivals : list Arrival;
  sweeps : list Sweep;
  lookups : list Lookup;
  admissions : list Admission;
}.

Definition init (chain : string) (h : Z) : State := {|
  chainId := chain;
  latestBlockHeight := h;
  messageProcessLock := ∅;
  messageFromMQ := ∅;
  messageIdToProcessAtBlock := ∅;
  arrivals := [];
  sweeps := [];
  lookups := [];
  admissions := [];
|}.

Definition set_latestBlockHeight (h : Z) (s : State) : State :=
  {| chainId := chainId s; latestBlockHeight := h;
     messageProcessLock := messageProcessLock s;
     messageFromMQ := messageFromMQ s;
     messageIdToProcessAtBlock := messageIdToProcessAtBlock s;
     arrivals := arrivals s; sweeps := sweeps s; lookups := lookups s;
     admissions := admissions s |}.

Definition set_messageProcessLock (l : gmap string bool) (s : State) : State :=
  {| chainId := chainId s; latestBlockHeight := latestBlockHeight s;
     messageProcessLock := l;
     messageFromMQ := messageFromMQ s;
     messageIdToProcessAtBlock := messageIdToProcessAtBlock s;
     arrivals := arrivals s; sweeps := sweeps s; lookups := lookups s;
     admissions := admissions s |}.

Definition set_messageFromMQ (m : gmap string Message) (s : State) : State :=
  {| chainId := chainId s; latestBlockHeight := latestBlockHeight s;
     messageProcessLock := messageProcessLock s;
     messageFromMQ := m;
     messageIdToProcessAtBlock := messageIdToProcessAtBlock s;
     arrivals := arrivals s; sweeps := sweeps s; lookups := lookups s;
     admissions := admissions s |}.

Definition set_messageIdToProcessAtBlock (m : gmap string Z) (s : State)
  : State :=
  {| chainId := chainId s; latestBlockHeight := latestBlockHeight s;
     messageProcessLock := messageProcessLock s;
     messageFromMQ := messageFromMQ s;
     messageIdToProcessAtBlock := m;
     arrivals := arrivals s; sweeps := sweeps s; lookups := lookups s;
     admissions := admissions s |}.

Definition set_arrivals (a : list Arrival) (s : State) : State :=
  {| chainId := chainId s; latestBlockHeight := latestBlockHeight s;
     messageProcessLock := messageProcessLock s;
     messageFromMQ := messageFromMQ s;
     messageIdToProcessAtBlock := messageIdToProcessAtBlock s;
     arrivals := a; sweeps := sweeps s; lookups := lookups s;
     admissions := admissions s |}.

Definition set_sweeps (w : list Sweep) (s : State) : State :=
  {| chainId := chainId s; latestBlockHeight := latestBlockHeight s;
     messageProcessLock := messageProcessLock s;
     messageFromMQ := messageFromMQ s;
     messageIdToProcessAtBlock := messageIdToProcessAtBlock s;
     arrivals := arrivals s; sweeps := w; lookups := lookups s;
     admissions := admissions s |}.

Definition set_lookups (l : list Lookup) (s : State) : State :=
  {| chainId := chainId s; latestBlockHeight := latestBlockHeight s;
     messageProcessLock := messageProcessLock s;
     messageFromMQ := messageFromMQ s;
     messageIdToProcessAtBlock := messageIdToProcessAtBlock s;
     arrivals := arrivals s; sweeps := sweeps s; lookups := l;
     admissions := admissions s |}.

Definition set_admissions (a : list Admission) (s : State) : State :=
  {| chainId := chainId s; latestBlockHeight := latestBlockHeight s;
     messageProcessLock := messageProcessLock s;
     messageFromMQ := messageFromMQ s;
     messageIdToProcessAtBlock := messageIdToProcessAtBlock s;
     arrivals := arrivals s; sweeps := sweeps s; lookups := lookups s;
     admissions := a |}.

(** Modelled from the spec: the two cache tables of deferred messages
    ([db/cache] is not among the sources), "both the raw message and an
    index entry keyed by target height".  Writes and reads take effect when
    they are issued; the caller's [await] resolves in a later turn. *)
Definition setMessageFromMQ (messageId : string) (message : Message)
    (s : State) : State :=
  set_messageFromMQ (<[messageId := message]> (messageFromMQ s)) s.

(** Modelled from the spec: [cacheDb.removeMessageFromMQ]. *)
Definition removeMessageFromMQ (messageId : string) (s : State) : State :=
  set_messageFromMQ (delete messageId (messageFromMQ s)) s.

(** Modelled from the spec: [cacheDb.getMessageFromMQ]; [None] is the
    [null] of a message that is not in the cache. *)
Definition getMessageFromMQ (messageId : string) (s : State)
  : option Message :=
  messageFromMQ s !! messageId.

(** Modelled from the spec: [cacheDb.addMessageIdToProcessAtBlock], the
    index entry of a message, keyed by the height it waits for. *)
Definition addMessageIdToProcessAtBlock (h : Z) (messageId : string)
    (s : State) : State :=
  set_messageIdToProcessAtBlock
    (<[messageId := h]> (messageIdToProcessAtBlock s)) s.

(** Modelled from the spec: [cacheDb.removeMessageIdToProcessAtBlock]. *)
Definition removeMessageIdToProcessAtBlock (messageId : string) (s : State)
  : State :=
  set_messageIdToProcessAtBlock
    (delete messageId (messageIdToProcessAtBlock s)) s.

(** Modelled from the spec: [cacheDb.getMessageIdsToProcessAtBlock], the
    durable store's [listByRange]: the ids of the messages that wait for a
    height from [fromHeight] to [toHeight]. *)
Definition getMessageIdsToProcessAtBlock (fromHeight toHeight : Z)
    (s : State) : list string :=
  (map_to_list (filter (λ kv, fromHeight ≤ kv.2 ≤ toHeight)
                       (messageIdToProcessAtBlock s))).*1.

Definition with_arr_pc (p : ArrivalPc) (a : Arrival) : Arrival :=
  {| arr_messageId := arr_messageId a;
     arr_message := arr_message a;
     arr_pc := p |}.

Definition arrival_goto (i : nat) (a : Arrival) (p : ArrivalPc) (s : State)
  : State :=
  set_arrivals (<[i := with_arr_pc p a]> (arrivals s)) s.

(** [if (messageProcessLock[messageId])]: [messageProcessLock] is a plain
    object, so the test also passes for a message id that is a name of
    [Object.prototype], whether or not the lock was taken.  (Under the name
    [__proto__] the assignment that takes the lock leaves the object as it
    is; the table of the model gets an entry, and the test, which is all
    that reads the table, passes in the one as in the other.) *)
Definition locked (messageId : string) (s : State) : bool :=
  truthy_at (messageProcessLock s) messageId.

(** [handleMessageFromMqWithBlockWait] from [const latestBlockHeight = ...]
    to its next [await] or [return]. *)
Definition blockWait (i : nat) (a : Arrival) (s : State) : State :=
  let messageId := arr_messageId a in
  let message := arr_message a in
  let latestBlockHeight := latestBlockHeight s in
  if latestBlockHeight <=? height message then
    let s := set_messageProcessLock
               (<[messageId := true]> (messageProcessLock s)) s in
    let s := setMessageFromMQ messageId message s in
    let s := addMessageIdToProcessAtBlock (height message) messageId s in
    arrival_goto i a AwaitSave s
  else arrival_goto i a ReturnedTrue s.

(** [handleMessageFromMqWithBlockWait], from the call. *)
Definition handleMessageFromMqWithBlockWait (messageId : string)
    (message : Message) (s : State) : State :=
  let i := length (arrivals s) in
  let a := {| arr_messageId := messageId;
              arr_message := message;
              arr_pc := AwaitHasSeenChain |} in
  let s := set_arrivals (arrivals s ++ [a]) s in
  if bool_decide (chainId s ≠ chain_id message) then s
  else blockWait i a s.

(** After [await utils.hasSeenChain(message.chain_id)]. *)
Definition hasSeenChain_resolved (i : nat) (a : Arrival) (seen : bool)
    (s : State) : State :=
  if negb seen then arrival_goto i a Thrown s
  else blockWait i a s.

(** After the two writes: the second look at [tendermint.latestBlockHeight]. *)
Definition save_resolved (i : nat) (a : Arrival) (s : State) : State :=
  let messageId := arr_messageId a in
  if latestBlockHeight s <=? height (arr_message a) then
    let s := set_messageProcessLock
               (delete messageId (messageProcessLock s)) s in
    arrival_goto i a ReturnedFalse s
  else
    let s := removeMessageFromMQ messageId s in
    let s := removeMessageIdToProcessAtBlock messageId s in
    arrival_goto i a AwaitRemove s.

(** After the two removals: [return true]. *)
Definition remove_resolved (i : nat) (a : Arrival) (s : State) : State :=
  arrival_goto i a ReturnedTrue s.

(** [addTaskToQueue] as the gate sees it: the call is put on record, with
    the [onCallbackFinished] it was given; what the queue does with the task
    is in [Queue]. *)
Definition addTaskToQueue (messageId : string) (f : Finisher) (s : State)
  : State :=
  set_admissions (admissions s ++ [{| adm_messageId := messageId;
                                      adm_onCallbackFinished := f;
                                      adm_finished := false |}]) s.

Definition addMqMessageTaskToQueue (messageId : string) (s : State) : State :=
  addTaskToQueue messageId Fn_releaseLock s.

(** Modelled from the spec: the message handler of the node's role
    ([event_handlers] is not among the sources), which calls the gate and,
    when it returns true, [addMqMessageTaskToQueue]: "if the observed height
    already covers the message, admission proceeds immediately". *)
Definition handleMessageFromQueue_admit (i : nat) (a : Arrival) (s : State)
  : State :=
  let s := addMqMessageTaskToQueue (arr_messageId a) s in
  arrival_goto i a Queued s.

(** [processMessageInBlocks], from the call to its [await]. *)
Definition processMessageInBlocks (fromHeight toHeight : Z) (s : State)
  : State :=
  set_sweeps (sweeps s ++ [{| fromHeight := fromHeight;
                              toHeight := toHeight;
                              messageIds := getMessageIdsToProcessAtBlock
                                              fromHeight toHeight s;
                              sweep_awaiting := true |}]) s.

(** The closure of [messageIds.map], up to its [await]: nothing when the
    lock of the message is held. *)
Definition look (s : State) (messageId : string) : option Lookup :=
  if locked messageId s then None
  else Some {| look_messageId := messageId;
               look_message := getMessageFromMQ messageId s;
               look_awaiting := true |}.

(** [processMessageInBlocks] after [getMessageIdsToProcessAtBlock]. *)
Definition ids_resolved (j : nat) (w : Sweep) (s : State) : State :=
  let s := set_sweeps (<[j := {| fromHeight := fromHeight w;
                                 toHeight := toHeight w;
                                 messageIds := messageIds w;
                                 sweep_awaiting := false |}]> (sweeps s)) s in
  set_lookups (lookups s ++ omap (look s) (messageIds w)) s.

(** The closure after [getMessageFromMQ]: [if (message == null) return],
    else the task is queued with [releaseLockAndCleanUp]. *)
Definition message_resolved (n : nat) (l : Lookup) (s : State) : State :=
  let s := set_lookups (<[n := {| look_messageId := look_messageId l;
                                  look_message := look_message l;
                                  look_awaiting := false |}]> (lookups s)) s in
  match look_message l with
  | None => s
  | Some _ => addTaskToQueue (look_messageId l) Fn_releaseLockAndCleanUp s
  end.

Definition releaseLock (messageId : string) (s : State) : State :=
  set_messageProcessLock (delete messageId (messageProcessLock s)) s.

(** [cleanUpMessage], whose two removals are issued at once. *)
Definition cleanUpMessage (messageId : string) (s : State) : State :=
  let s := removeMessageFromMQ messageId s in
  removeMessageIdToProcessAtBlock messageId s.

Definition releaseLockAndCleanUp (messageId : string) (s : State)
  : State :=
  let s := releaseLock messageId s in
  cleanUpMessage messageId s.

(** The task of an admission ends: [onTaskExecutionFinished] calls its
    [onCallbackFinished], once (see [Queue]). *)
Definition task_finished (n : nat) (a : Admission) (s : State) : State :=
  let s := set_admissions (<[n := {| adm_messageId := adm_messageId a;
                                     adm_onCallbackFinished :=
                                       adm_onCallbackFinished a;
                                     adm_finished := true |}]>
                             (admissions s)) s in
  match adm_onCallbackFinished a with
  | Fn_releaseLock => releaseLock (adm_messageId a) s
  | Fn_releaseLockAndCleanUp => releaseLockAndCleanUp (adm_messageId a) s
  end.

(** Modelled from the spec: the ledger client ([tendermint] is not among
    the sources), which "emits a notification each time the observed height
    advances"; the sweep is "invoked whenever the node's observed height
    advances to cover a new range [from, to]", and "retrieves all deferred
    message ids in that height range".  When the observed height goes from
    [h] to [h'], the new range is [h + 1 .. h']. *)
Definition newBlock (h' : Z) (s : State) : State :=
  let h := latestBlockHeight s in
  let s := set_latestBlockHeight h' s in
  processMessageInBlocks (h + 1) h' s.

(** The turns of the gate. *)
Inductive Event :=
| Arrive (messageId : string) (message : Message)
| SeenChain (i : nat) (seen : bool)
| Saved (i : nat)
| Removed (i : nat)
| Enqueue (i : nat)
| NewBlock (h' : Z)
| GotIds (j : nat)
| GotMessage (n : nat)
| Finish (n : nat).

Definition step (e : Event) (s : State) : option State :=
  match e with
  | Arrive messageId message =>
      Some (handleMessageFromMqWithBlockWait messageId message s)
  | SeenChain i seen =>
      a ← arrivals s !! i;
      match arr_pc a with
      | AwaitHasSeenChain => Some (hasSeenChain_resolved i a seen s)
      | _ => None
      end
  | Saved i =>
      a ← arrivals s !! i;
      match arr_pc a with
      | AwaitSave => Some (save_resolved i a s)
      | _ => None
      end
  | Removed i =>
      a ← arrivals s !! i;
      match arr_pc a with
      | AwaitRemove => Some (remove_resolved i a s)
      | _ => None
      end
  | Enqueue i =>
      a ← arrivals s !! i;
      match arr_pc a with
      | ReturnedTrue => Some (handleMessageFromQueue_admit i a s)
      | _ => None
      end
  | NewBlock h' =>
      if latestBlockHeight s <? h' then Some (newBlock h' s) else None
  | GotIds j =>
      w ← sweeps s !! j;
      if sweep_awaiting w then Some (ids_resolved j w s) else None
  | GotMessage n =>
      l ← lookups s !! n;
      if look_awaiting l then Some (message_resolved n l s) else None
  | Finish n =>
      a ← admissions s !! n;
      if adm_finished a then None else Some (task_finished n a s)
  end.

(** How often a message was handed to the task queue, and how often it
    arrived. *)
Definition is_admission (messageId : string) (a : Admission) : Z :=
  if decide (adm_messageId a = messageId) then 1 else 0.

Definition admitted (messageId : string) (s : State) : Z :=
  total (is_admission messageId) (admissions s).

Definition is_arrival (messageId : string) (a : Arrival) : Z :=
  if decide (arr_messageId a = messageId) then 1 else 0.

Definition arrived (messageId : string) (s : State) : Z :=
  total (is_arrival messageId) (arrivals s).



Definition arr_pc_of (i : nat) (s : State) : option ArrivalPc :=
  arr_pc <$> arrivals s !! i.

(** What can still bring a message into the task queue by the sweep: a
    sweep that waits for ids among which the message is, or a closure that
    waits for the message and gets it. *)
Definition holds_id (messageId : string) (w : Sweep) : Z :=
  if sweep_awaiting w && bool_decide (messageId ∈ messageIds w)
  then 1 else 0.

Definition will_admit (messageId : string) (l : Lookup) : Z :=
  if look_awaiting l && bool_decide (look_messageId l = messageId)
     && bool_decide (is_Some (look_message l))
  then 1 else 0.

(** What the invariant of a message looks at: its own entry in
    [messageProcessLock], its two records in the cache, what can still
    bring it into the task queue, and how often it was admitted. *)
Record View := {
  v_lock : option bool;
  v_message : option Message;
  v_height : option Z;
  v_sweeps : Z;
  v_lookups : Z;
  v_admitted : Z;
  v_latest : Z;
}.

Definition view (messageId : string) (s : State) : View :=
  {| v_lock := messageProcessLock s !! messageId;
     v_message := messageFromMQ s !! messageId;
     v_height := messageIdToProcessAtBlock s !! messageId;
     v_sweeps := total (holds_id messageId) (sweeps s);
     v_lookups := total (will_admit messageId) (lookups s);
     v_admitted := admitted messageId s;
     v_latest := latestBlockHeight s |}.

Definition tickets (v : View) : Z := v_sweeps v + v_lookups v + v_admitted v.

(** What holds of a message at each point of its call of the gate.  A
    sweep gets its id only when the observed height goes from below its
    height to its height or beyond, which happens once. *)
Definition phase_ok (message : Message) (p : ArrivalPc) (v : View) : Prop :=
  match p with
  | AwaitHasSeenChain | Thrown =>
      v_message v = None ∧ v_height v = None ∧ tickets v = 0
  | AwaitSave =>
      v_lock v = Some true ∧ v_message v = Some message ∧
      v_height v = Some (height message) ∧
      v_lookups v + v_admitted v = 0 ∧
      v_sweeps v ≤ 1 ∧
      (v_latest v < height message → v_sweeps v = 0)
  | ReturnedFalse =>
      v_lock v = None ∧
      tickets v ≤ 1 ∧
      (v_latest v < height message → tickets v = 0) ∧
      (v_admitted v = 0 →
       v_message v = Some message ∧ v_height v = Some (height message))
  | AwaitRemove | ReturnedTrue =>
      v_message v = None ∧ v_lookups v + v_admitted v = 0 ∧
      height message < v_latest v
  | Queued =>
      v_message v = None ∧ v_lookups v = 0 ∧ v_admitted v = 1 ∧
      height message < v_latest v
  end.

(** The message with this id arrived at most once, as [message]. *)
Definition sole (messageId : string) (message : Message) (s : State) : Prop :=
  arrived messageId s ≤ 1 ∧
  Forall (λ a, arr_messageId a = messageId → arr_message a = message)
         (arrivals s).

(** The invariant of a message. *)
Record inv (messageId : string) (message : Message) (s : State) : Prop := {
  inv_sweeps :
    Forall (λ w, toHeight w ≤ latestBlockHeight s ∧ NoDup (messageIds w))
           (sweeps s);
  inv_height :
    ∀ h, messageIdToProcessAtBlock s !! messageId = Some h →
         h = height message;
  inv_absent :
    arrived messageId s = 0 → phase_ok message Thrown (view messageId s);
  inv_phase :
    Forall (λ a, arr_messageId a = messageId →
                 phase_ok message (arr_pc a) (view messageId s))
           (arrivals s);
}.

(** Sample data: a message for height 105; the schedule in which the gate
    defers it at the observed height 100; the one in which the observed
    height then advances to 105 and the sweep admits it; and the one in
    which the observed height reaches 105 while the gate is saving it. *)
Definition sample_message : Message :=
  {| chain_id := "ndid"; height := 105; request_id := "req-1" |}.




End Gate.

(** * The other entry points of callback delivery
      ([main-server/src/utils/callback.js]) *)
Module CallbackApi.
Import Callback.

(** [callbackToClient] without [retry]: one POST, and this turn when it has
    settled.  Nothing is saved and no loop is entered. *)
Definition callbackToClient_once (a : Args) (startTime : Z) (r : Reply)
    (now : Z) (s : State) : State :=
  match httpPost r with
  | inr responseObj =>
      let s := emit (callbackTime (status responseObj)
                       (negb (bodySize responseObj =? 0))
                       (now - startTime)) s in
      callResponseCallback a (WithResponse responseObj) s
  | inl error =>
      let s := emit callbackFail s in
      if is_max_size error
      then callResponseCallback a (WithError "BODY_TOO_LARGE") s
      else s
  end.

(** A call of [handleCallbackWorkerLost], waiting or not for
    [cacheDb.getCallbackWithRetryData], with the record it gets. *)
Record Lost := {
  lost_cbId : string;
  lost_deadline : option Z;
  backupCallbackData : option Args;
  lost_awaiting : bool;
}.

(** The state of the module, and the calls of [handleCallbackWorkerLost]. *)
Record State := {
  retry : Callback.State;
  lost : list Lost;
}.

Definition init : State := {| retry := Callback.init; lost := [] |}.

(** [handleCallbackWorkerLost], from the call to its [await].  Modelled
    from the spec: [cacheDb.getCallbackWithRetryData] ([db/cache] is not
    among the sources), the durable store's [get] on the table of retry
    records; the read takes effect when it is issued. *)
Definition handleCallbackWorkerLost (cbId : string) (deadline : option Z)
    (s : State) : State :=
  {| retry := retry s;
     lost := lost s ++ [{| lost_cbId := cbId;
                           lost_deadline := deadline;
                           backupCallbackData := cacheDb (retry s) !! cbId;
                           lost_awaiting := true |}] |}.

(** The arguments [handleCallbackWorkerLost] gives to [callbackWithRetry]:
    those of the record, the [cbId] and the [deadline] it was called with. *)
Definition restored (cbId : string) (deadline : option Z) (data : Args)
  : Args :=
  {| callbackUrl := callbackUrl data;
     body := body data;
     cbId := cbId;
     shouldRetryFnName := shouldRetryFnName data;
     shouldRetryArguments := shouldRetryArguments data;
     responseCallbackFnName := responseCallbackFnName data;
     dataForResponseCallback := dataForResponseCallback data;
     deadline := deadline |}.

(** [handleCallbackWorkerLost] after its [await]:
    [if (backupCallbackData)]. *)
Definition handleCallbackWorkerLost_resolved (cfg : Config) (n : nat)
    (l : Lost) (now now' : Z) (s : State) : State :=
  let lost' := <[n := {| lost_cbId := lost_cbId l;
                         lost_deadline := lost_deadline l;
                         backupCallbackData := backupCallbackData l;
                         lost_awaiting := false |}]> (lost s) in
  match backupCallbackData l with
  | Some data =>
      {| retry := callbackWithRetry cfg
                    (restored (lost_cbId l) (lost_deadline l) data)
                    now now' (retry s);
         lost := lost' |}
  | None => {| retry := retry s; lost := lost' |}
  end.

(** The turns of the module, with all its entry points: the turns of the
    retry loops, a delivery without retry, and the two turns of
    [handleCallbackWorkerLost]. *)
Inductive Event :=
| Retry (e : Callback.Event)
| Once (a : Args) (startTime : Z) (r : Reply) (now : Z)
| WorkerLost (cbId : string) (deadline : option Z)
| GotBackup (n : nat) (now now' : Z).

Definition step (cfg : Config) (e : Event) (s : State) : option State :=
  match e with
  | Retry e =>
      r ← Callback.step cfg e (retry s);
      Some {| retry := r; lost := lost s |}
  | Once a startTime r now =>
      Some {| retry := callbackToClient_once a startTime r now (retry s);
              lost := lost s |}
  | WorkerLost cbId deadline =>
      Some (handleCallbackWorkerLost cbId deadline s)
  | GotBackup n now now' =>
      l ← lost s !! n;
      if lost_awaiting l
      then Some (handleCallbackWorkerLost_resolved cfg n l now now' s)
      else None
  end.

(** The calls of [callbackWithRetry] that have not returned. *)
Definition unreturned (ls : list Loop) : Z :=
  total (λ l, if has_returned l then 0 else 1) ls.

(** A loop is asleep between [waitPromises.push] and
    [waitPromises.splice]. *)
Definition asleep (l : Loop) : bool :=
  match pc l with
  | AwaitWait _ _ => true
  | _ => false
  end.

(** [waitPromises] holds the handles of the loops that are asleep, each
    once. *)
Definition handles_exact (ls : list Loop) (wp : list nat) : Prop :=
  NoDup wp ∧ ∀ i, i ∈ wp ↔ ∃ l, ls !! i = Some l ∧ asleep l = true.

(** Sample data: a delivery in worker mode, a failed POST and a POST that
    is answered with status 500. *)
Definition sample_worker : Config :=
  {| mode := WORKER; callbackRetryTimeout := 600 |}.

Definition sample_failure : Callback.Event :=
  Posted 0 (Failed (FetchError "system")) 5000 10 10 10.

Definition sample_answer : Callback.Event :=
  Posted 0 (Answered 500 2) 5000 10 10 10.

End CallbackApi.

(** * The counters of the task queue ([core/common]) *)
Module QueueGauges.
Import Queue.

(** The sum of the lengths of the queues of a table of queues. *)
Definition sum_lengths (m : gmap string (list Task)) : Z :=
  map_fold (λ _ q n, Z.of_nat (length q) + n) 0 m.

(** The number of tasks that wait in the queues of all keys. *)
Definition waiting (s : State) : Z :=
  map_fold (λ _ q n, Z.of_nat (length q) + n) 0 (requestQueue s).

(** What the three counters count; [r] is the number of queues that the
    start-up recovery made. *)
Record gauges (r : Z) (s : State) : Prop := {
  gauge_requests :
    requestsInQueueCount s = Z.of_nat (size (requestQueue s)) - r;
  gauge_pending : pendingTasksInQueueCount s = waiting s;
  gauge_processing :
    processingTasksCount s = Z.of_nat (size (requestQueueRunning s));
  gauge_flags : ∀ k b, requestQueueRunning s !! k = Some b → b = true;
}.

(** Sample data: two tasks are added for one key, and the first is
    started; and a task recovered at start-up is run to its end. *)
Definition sample_schedule : list Event :=
  [Add "req-1" (sample_task "m1" 0); Persisted 0;
   Add "req-1" (sample_task "m2" 1); Persisted 1;
   Immediate 2 2].

Definition sample_recovery : list Event :=
  [Restore [("req-1", [sample_task "m1" 0])];
   Immediate 2 2; Removed 0; Done 0 true 200].

End QueueGauges.

(** * The cache of the gate once a swept message is done ([core/common]) *)
Module GateCleanUp.
Import Gate.

(** A task of the sweep has ended for the message: its
    [onCallbackFinished], [releaseLockAndCleanUp], was called. *)
Definition swept (messageId : string) (a : Admission) : bool :=
  bool_decide (adm_messageId a = messageId)
  && adm_finished a
  && match adm_onCallbackFinished a with
     | Fn_releaseLockAndCleanUp => true
     | Fn_releaseLock => false
     end.

(** Once a task of the sweep has ended for a message, nothing of the
    message is in the cache. *)
Definition cleaned (messageId : string) (s : State) : Prop :=
  (∃ a, a ∈ admissions s ∧ swept messageId a = true) →
  messageFromMQ s !! messageId = None ∧
  messageIdToProcessAtBlock s !! messageId = None.

(** Sample data: a message of a chain never seen; and a message that
    waits for its block, is swept and processed. *)
Definition sample_foreign : list Event :=
  [Arrive "m0" {| chain_id := "other"; height := 105; request_id := "req-0" |};
   SeenChain 0 false].

Definition sample_swept : list Event :=
  [Arrive "m1" sample_message; Saved 0; NewBlock 106; GotIds 0;
   GotMessage 0; Finish 0].

End GateCleanUp.

(** * The RP node: messages from the message queue ([core/rp]) *)
Module Rp.

(** ** [isAllIdpResponsesValid], [isAllIdpRespondedAndValid] *)

(** An entry of the list of checked IdP responses; [valid_ial] is [true],
    [false] or absent. *)
Record ResponseValid := {
  idp_id : string;
  valid_ial : option bool;
}.

Record Service := {
  service_id : string;
  signed_data_count : Z;
}.

(** What [utils.getDetailedRequestStatus] returns, as far as it is read. *)
Record RequestStatus := {
  status : string;
  mode : Z;
  min_idp : Z;
  answered_idp_count : Z;
  closed : bool;
  timed_out : bool;
  service_list : list Service;
}.

Definition isAllIdpResponsesValid (responseValidList : list ResponseValid)
  : bool :=
  forallb (λ r, bool_decide (valid_ial r = Some true)) responseValidList.

Definition isAllIdpRespondedAndValid (requestStatus : RequestStatus)
    (responseValidList : list ResponseValid) : bool :=
  if negb (String.eqb (status requestStatus) "confirmed") then false
  else if negb (answered_idp_count requestStatus =? min_idp requestStatus)
  then false
  else if closed requestStatus || timed_out requestStatus then false
  else
    let asAnswerCount :=
      foldl (λ total service, total + signed_data_count service) 0
            (service_list requestStatus) in
    if asAnswerCount =? 0 then
      if (mode requestStatus =? 1)
         || (((mode requestStatus =? 2) || (mode requestStatus =? 3))
             && isAllIdpResponsesValid responseValidList)
      then true else false
    else false.

(** The test of [processMessage] before [common.closeRequest]. *)
Definition completedAndValid (requestStatus : RequestStatus)
    (responseValidList : list ResponseValid) : bool :=
  String.eqb (status requestStatus) "completed"
  && negb (closed requestStatus)
  && negb (timed_out requestStatus)
  && ((mode requestStatus =? 1)
      || (((mode requestStatus =? 2) || (mode requestStatus =? 3))
          && isAllIdpResponsesValid responseValidList)).

(** ** [processMessage] *)

(** [message.type], by the constants of [mq/message/type]. *)
Inductive MessageType := IDP_RESPONSE | AS_DATA_RESPONSE | OtherType.

Record Message := {
  type : MessageType;
  request_id : string;
  msg_mode : Z;
  msg_idp_id : string;
  accessor_id : string;
  height : Z;
}.

Record Response := {
  resp_idp_id : string;
  ial : Z;
}.

Record RequestDetail := {
  response_list : list Response;
  creation_chain_id : string;
}.

Record RequestData := {
  callback_url : string;
}.

(** The calls [processMessage] makes on the other modules of the node that
    write, tell the client or tell other nodes, in order.  (The reads, and
    the write to the cache inside [common.getAndSaveIdpResponseValid], are
    not listed.) *)
Inductive Action :=
| AddResponsePrivateDataForRequest (idp accessor : string)
| CallbackToClient (callbackUrl : string) (requestStatus : RequestStatus)
    (response_valid_list : list ResponseValid) (block_height : string)
| SendRequestToAS (requestData : RequestData) (height : Z)
| CloseRequest (request : string)
| ProcessAsData (request : string)
| NotifyError (action : string) (request : string).

Inductive Error :=
| Rejected (by_ : string)
| TypeError
| CustomError (message : string) (cause : Error).

(** What the calls on the cache database, the ledger and the other modules
    of the node answer, each once: a value, or a rejection. *)
Record Answers := {
  getRequestData : Error + option RequestData;
  addResponsePrivateDataForRequest : Error + unit;
  getRequestDetail : Error + RequestDetail;
  getDetailedRequestStatus : RequestStatus;
  getIdpResponseValidList : Error + list ResponseValid;
  getAndSaveIdpResponseValid : Error + ResponseValid;
  callbackToClient : Error + unit;
  getRequestData_again : Error + option RequestData;
  sendRequestToAS_result : Error + unit;
  closeRequest : Error + unit;
  processAsData : Error + unit;
  notifyError : Error + unit;
}.

(** The body of an [async] function that acts and may throw: what it did,
    and how it ended. *)
Definition M (A : Type) : Type := list Action → list Action * (Error + A).

Definition ret {A} (x : A) : M A := λ acts, (acts, inr x).
Definition throw {A} (e : Error) : M A := λ acts, (acts, inl e).
Definition bind {A B} (m : M A) (f : A → M B) : M B :=
  λ acts, match m acts with
          | (acts', inr x) => f x acts'
          | (acts', inl e) => (acts', inl e)
          end.
Definition act (a : Action) : M unit := λ acts, (acts ++ [a], inr tt).
(** [await] of a call that has answered. *)
Definition await {A} (r : Error + A) : M A := λ acts, (acts, r).
Definition try_catch {A} (m : M A) (h : Error → M A) : M A :=
  λ acts, match m acts with
          | (acts', inl e) => h e acts'
          | r => r
          end.

#[export] Instance M_ret : MRet M := @ret.
#[export] Instance M_bind : MBind M := λ A B f m, bind m f.

Definition when (b : bool) (m : M unit) : M unit := if b then m else ret tt.

(** The [IDP_RESPONSE] branch, from [requestData != null] on; it ends at
    once when the request is closed or timed out (the [return] in the
    middle). *)
Definition processIdpResponse (nodeId : string) (message : Message)
    (env : Answers) (requestData : RequestData) : M unit :=
  when ((msg_mode message =? 2) || (msg_mode message =? 3))
       (act (AddResponsePrivateDataForRequest (msg_idp_id message)
                                              (accessor_id message)) ;;
        await (addResponsePrivateDataForRequest env)) ;;
  requestDetail ← await (getRequestDetail env);
  let requestStatus := getDetailedRequestStatus env in
  if closed requestStatus || timed_out requestStatus then ret tt
  else
    savedResponseValidList ← await (getIdpResponseValidList env);
    response ←
      match list_find (λ response, resp_idp_id response = msg_idp_id message)
                      (response_list requestDetail) with
      | Some (_, response) => ret response
      | None => throw TypeError
      end;
    responseValid ← await (getAndSaveIdpResponseValid env);
    let responseValidList := savedResponseValidList ++ [responseValid] in
    act (CallbackToClient (callback_url requestData) requestStatus
           responseValidList
           (creation_chain_id requestDetail +:+ ":"
            +:+ pretty (height message))) ;;
    await (callbackToClient env) ;;
    when (isAllIdpRespondedAndValid requestStatus responseValidList)
         (requestData ← await (getRequestData_again env);
          match requestData with
          | Some requestData =>
              act (SendRequestToAS requestData (height message)) ;;
              await (sendRequestToAS_result env)
          | None => ret tt
          end) ;;
    when (completedAndValid requestStatus responseValidList)
         (act (CloseRequest (request_id message)) ;;
          await (closeRequest env)).

Definition processMessage (nodeId messageId : string) (message : Message)
    (env : Answers) : M unit :=
  try_catch
    (match type message with
     | IDP_RESPONSE =>
         requestData ← await (getRequestData env);
         match requestData with
         | Some requestData => processIdpResponse nodeId message env requestData
         | None => ret tt
         end
     | AS_DATA_RESPONSE =>
         act (ProcessAsData (request_id message)) ;;
         await (processAsData env)
     | OtherType => ret tt
     end)
    (λ error,
       let err := CustomError "Error processing message from message queue"
                              error in
       act (NotifyError "rp.processMessage" (request_id message)) ;;
       await (notifyError env) ;;
       throw err).

(** What [processMessage] tells the client or the other nodes. *)
Definition outward (a : Action) : bool :=
  match a with
  | CallbackToClient _ _ _ _ | SendRequestToAS _ _ | CloseRequest _ => true
  | _ => false
  end.

End Rp.

(** * The RP node: data requests to the AS nodes ([core/rp]) *)
Module RpSend.

(** ** [getASReceiverList] *)

Record MqAddress := {
  ip : string;
  port : Z;
}.

Record Proxy := {
  proxy_node_id : string;
  proxy_public_key : string;
  proxy_mq : option (list MqAddress);
  proxy_config : string;
}.

(** An AS node as [tendermintNdid.getAsNodesInfoByServiceId] lists it. *)
Record AsNode := {
  node_id : string;
  public_key : string;
  mq : option (list MqAddress);
  proxy : option Proxy;
}.

Record ReceiverProxy := {
  rp_node_id : string;
  rp_public_key : string;
  rp_ip : string;
  rp_port : Z;
  rp_config : string;
}.

(** A receiver has its own address, or that of its proxy. *)
Inductive Address :=
| Own (ip : string) (port : Z)
| Behind (proxy : ReceiverProxy).

Record Receiver := {
  r_node_id : string;
  r_public_key : string;
  r_address : Address;
}.

(** The callback of [asNodes.map]: [Some None] is [null]; [None] is the
    [TypeError] of [mq[0].ip] on an empty list. *)
Definition toReceiver (asNode : AsNode) : option (option Receiver) :=
  match proxy asNode with
  | Some p =>
      match proxy_mq p with
      | None => Some None
      | Some [] => None
      | Some (a :: _) =>
          Some (Some {| r_node_id := node_id asNode;
                        r_public_key := public_key asNode;
                        r_address :=
                          Behind {| rp_node_id := proxy_node_id p;
                                    rp_public_key := proxy_public_key p;
                                    rp_ip := ip a;
                                    rp_port := port a;
                                    rp_config := proxy_config p |} |})
      end
  | None =>
      match mq asNode with
      | None => Some None
      | Some [] => None
      | Some (a :: _) =>
          Some (Some {| r_node_id := node_id asNode;
                        r_public_key := public_key asNode;
                        r_address := Own (ip a) (port a) |})
      end
  end.

(** [getASReceiverList], after the nodes have come. *)
Definition getASReceiverList (asNodes : list AsNode)
  : option (list Receiver) :=
  receivers ← mapM toReceiver asNodes;
  Some (omap id receivers).

(** ** [sendRequestToAS] *)

Record DataRequest := {
  service_id : string;
  as_id_list : list string;
  request_params : option string;
}.

Record RequestData := {
  request_id : string;
  mode : Z;
  namespace : string;
  identifier : string;
  data_request_list : option (list DataRequest);
  data_request_params_salt_list : list string;
  request_message : string;
  request_message_salt : string;
  request_timeout : Z;
  rp_id : string;
  initial_salt : string;
}.

Record ServiceDataRequest := {
  sdr_service_id : string;
  sdr_request_params : option string;
  request_params_salt : option string;
}.

(** An entry of [dataToSendByNodeId]. *)
Record ToSend := {
  receiver : Receiver;
  service_data_request_list : list ServiceDataRequest;
  concat_service_id_index : string;
}.

(** An entry of [dataToSendByNodeIdAndServiceList]. *)
Record Group := {
  receivers : list Receiver;
  group_service_data_request_list : list ServiceDataRequest;
}.

(** The message of type [DATA_REQUEST]. *)
Record Message := {
  msg_request_id : string;
  msg_mode : Z;
  msg_namespace : string;
  msg_identifier : string;
  msg_service_data_request_list : list ServiceDataRequest;
  msg_request_message : string;
  msg_request_message_salt : string;
  response_private_data_list : list (string * string);
  creation_time : Z;
  msg_request_timeout : Z;
  msg_rp_id : string;
  msg_initial_salt : string;
  chain_id : string;
  height : Z;
}.

(** A call of [mq.send]. *)
Record Send := {
  send_receivers : list Receiver;
  message : Message;
  senderNodeId : string;
}.

(** The callback of [receivers.forEach], for the data request at [index].
    On an inherited name the test [if (dataToSendByNodeId[...])] passes and
    [service_data_request_list.push] throws a [TypeError] ([None]). *)
Definition addReceiver (index : nat) (serviceDataRequest : ServiceDataRequest)
    (dataToSendByNodeId : gmap string ToSend) (r : Receiver)
  : option (gmap string ToSend) :=
  match dataToSendByNodeId !! r_node_id r with
  | Some d =>
      Some (<[r_node_id r :=
                {| receiver := receiver d;
                   service_data_request_list :=
                     service_data_request_list d ++ [serviceDataRequest];
                   concat_service_id_index :=
                     concat_service_id_index d +:+ "|" +:+ pretty index |}]>
              dataToSendByNodeId)
  | None =>
      if inherited (r_node_id r) then None
      else
        Some (<[r_node_id r :=
                  {| receiver := r;
                     service_data_request_list := [serviceDataRequest];
                     concat_service_id_index := pretty index |}]>
                dataToSendByNodeId)
  end.

(** [serviceDataRequest], for the data request at [index]. *)
Definition toServiceDataRequest (requestData : RequestData) (index : nat)
    (data_request : DataRequest) : ServiceDataRequest :=
  {| sdr_service_id := service_id data_request;
     sdr_request_params := request_params data_request;
     request_params_salt :=
       data_request_params_salt_list requestData !! index |}.

(** The callback of [data_request_list.map], after the call on the ledger
    in [getASReceiverList] has answered for the data request at [index]:
    with [asNodes], or with a rejection ([None]). *)
Definition addDataRequest (requestData : RequestData)
    (dataToSendByNodeId : gmap string ToSend)
    (index : nat) (data_request : DataRequest)
    (asNodes : option (list AsNode))
  : option (gmap string ToSend) :=
  asNodes ← asNodes;
  receivers ← getASReceiverList asNodes;
  foldl (λ acc r,
           m ← acc;
           addReceiver index
             (toServiceDataRequest requestData index data_request) m r)
        (Some dataToSendByNodeId) receivers.

(** The callback of [Object.values(dataToSendByNodeId).forEach].  The keys
    start with a digit: none is an inherited name. *)
Definition addToGroup (byServiceList : gmap string Group) (d : ToSend)
  : gmap string Group :=
  match byServiceList !! concat_service_id_index d with
  | Some g =>
      <[concat_service_id_index d :=
          {| receivers := receivers g ++ [receiver d];
             group_service_data_request_list :=
               group_service_data_request_list g |}]> byServiceList
  | None =>
      <[concat_service_id_index d :=
          {| receivers := [receiver d];
             group_service_data_request_list :=
               service_data_request_list d |}]> byServiceList
  end.

Section SendRequestToAS.

(** [Object.values]: the values of the object's own properties, in the
    order of the engine (that of insertion, but for keys that are integers). *)
Context (Object_values : ∀ V, gmap string V → list V).

(** [tendermint.chainId] *)
Context (chainId : string).

(** [sendRequestToAS].  [cache] is what the two reads of the cache give:
    the creation time of [requestCreationMetadata], if there is one, and
    [responsePrivateDataList]; or a rejection ([None]).  [answers] has, in
    the order in which the calls of [getASReceiverList] answer, the index
    of the data request and the answer of the ledger.  The result is the
    list of the calls of [mq.send], all issued in one turn; [None] when the
    function throws, and then no call of [mq.send] is made. *)
Definition sendRequestToAS (nodeId : string) (requestData : RequestData)
    (height : Z) (cache : option (option Z * list (string * string)))
    (answers : list (nat * option (list AsNode))) : option (list Send) :=
  match data_request_list requestData with
  | None => Some []
  | Some [] => Some []
  | Some data_request_list =>
      '(requestCreationMetadata, responsePrivateDataList) ← cache;
      dataToSendByNodeId ←
        foldl (λ acc a,
                 m ← acc;
                 data_request ← data_request_list !! a.1;
                 addDataRequest requestData m a.1 data_request a.2)
              (Some ∅) answers;
      let dataToSendByNodeIdAndServiceList :=
        foldl addToGroup ∅ (Object_values _ dataToSendByNodeId) in
      mapM (λ g,
              creation_time ← requestCreationMetadata;
              Some {| send_receivers := receivers g;
                      message :=
                        {| msg_request_id := request_id requestData;
                           msg_mode := mode requestData;
                           msg_namespace := namespace requestData;
                           msg_identifier := identifier requestData;
                           msg_service_data_request_list :=
                             group_service_data_request_list g;
                           msg_request_message := request_message requestData;
                           msg_request_message_salt :=
                             request_message_salt requestData;
                           response_private_data_list :=
                             responsePrivateDataList;
                           creation_time := creation_time;
                           msg_request_timeout := request_timeout requestData;
                           msg_rp_id := rp_id requestData;
                           msg_initial_salt := initial_salt requestData;
                           chain_id := chainId;
                           height := height |};
                      senderNodeId := nodeId |})
           (Object_values _ dataToSendByNodeIdAndServiceList)
  end.

End SendRequestToAS.

(** The receivers found for an answer, the indices of the data requests
    that found a node (in the order of the answers, once for each time the
    node is listed), and the service data requests of a list of indices. *)
Definition found (a : nat * option (list AsNode)) : list Receiver :=
  default [] (a.2 ≫= getASReceiverList).

Definition hits (id : string) (index : nat) (rs : list Receiver) : list nat :=
  (λ _, index) <$> filter (λ r, r_node_id r = id) rs.

Definition requests_of (id : string)
    (answers : list (nat * option (list AsNode))) : list nat :=
  flat_map (λ a, hits id a.1 (found a)) answers.

Definition services (requestData : RequestData)
    (data_request_list : list DataRequest) (indices : list nat)
  : list ServiceDataRequest :=
  omap (λ i, toServiceDataRequest requestData i <$> data_request_list !! i)
       indices.

(** The address list [getASReceiverList] looks at: that of the proxy for
    a node behind a proxy, the node's own otherwise. *)
Definition effective_mq (asNode : AsNode) : option (list MqAddress) :=
  match proxy asNode with
  | Some p => proxy_mq p
  | None => mq asNode
  end.

(** The node ids a list of calls of [mq.send] is addressed to. *)
Definition addressed (sends : list Send) : list string :=
  flat_map (λ s, r_node_id <$> send_receivers s) sends.

(** The indices of a node's data requests, as [sendRequestToAS] writes
    them in [concat_service_id_index]. *)
Definition concat_index (l : list nat) : string :=
  match l with
  | [] => ""
  | i :: l => foldl (λ s j, s +:+ "|" +:+ pretty j) (pretty i) l
  end.

Definition is_digit (c : ascii) : bool :=
  match Ascii.is_nat c with Some _ => true | None => false end.

Definition index_chars (j : nat) : list ascii :=
  "|"%char :: String.list_ascii_of_string (pretty j).

(** What the first loop keeps: the entry of a node is under its id, and
    holds the services and the index string of the requests that found the
    node so far. *)
Definition tracks (requestData : RequestData) (drl : list DataRequest)
    (m : gmap string ToSend) (reqs : string → list nat) : Prop :=
  ∀ id,
    match m !! id with
    | Some d =>
        r_node_id (receiver d) = id ∧ reqs id ≠ [] ∧
        service_data_request_list d = services requestData drl (reqs id) ∧
        concat_service_id_index d = concat_index (reqs id)
    | None => reqs id = []
    end.

(** What the second loop keeps: a group holds receivers of entries with
    its key and the services of one such entry, and the groups together
    hold the receivers of the entries, each once. *)
Definition grouped (g : gmap string Group) (done : list ToSend) : Prop :=
  (∀ key grp, g !! key = Some grp →
     (∀ r, r ∈ receivers grp →
        ∃ d, d ∈ done ∧ receiver d = r ∧ concat_service_id_index d = key) ∧
     (∃ d, d ∈ done ∧ concat_service_id_index d = key ∧
           group_service_data_request_list grp = service_data_request_list d)) ∧
  flat_map receivers (map_to_list g).*2 ≡ₚ receiver <$> done.

(** Sample data: two data requests; the ledger lists two nodes for the
    first service and one of them again for the second, and the answer for
    the second service comes first. *)
Definition sample_node (id : string) : AsNode :=
  {| node_id := id;
     public_key := "key-" +:+ id;
     mq := Some [{| ip := "10.0.0.1"; port := 5555 |}];
     proxy := None |}.

Definition sample_request : RequestData :=
  {| request_id := "req-1";
     mode := 3;
     namespace := "citizen_id";
     identifier := "1234";
     data_request_list :=
       Some [{| service_id := "bank_statement";
                as_id_list := [];
                request_params := Some "{}" |};
             {| service_id := "customer_info";
                as_id_list := [];
                request_params := None |}];
     data_request_params_salt_list := ["salt-0"; "salt-1"];
     request_message := "message";
     request_message_salt := "salt";
     request_timeout := 3600;
     rp_id := "rp1";
     initial_salt := "initial" |}.

Definition sample_answers : list (nat * option (list AsNode)) :=
  [(1%nat, Some [sample_node "as1"]);
   (0%nat, Some [sample_node "as1"; sample_node "as2"])].

(** [Object.values] in the order of the keys. *)
Definition sample_values (V : Type) (m : gmap string V) : list V :=
  (map_to_list m).*2.

End RpSend.

(** * Numbers and salted hashes ([utils]) *)
Module Utils.

(** [euclideanGCD(a, b)] on [bignum]s.  The numbers are integers of any
    size; [mod] and [div] are those of OpenSSL's [BN_div], which round
    towards zero ([Z.rem], [Z.quot]).  The recursion is on a smaller first
    argument; [fuel] bounds its depth. *)
Fixpoint euclideanGCD_rec (fuel : nat) (a b : Z) : option (Z * Z * Z) :=
  match fuel with
  | O => None
  | S fuel =>
      if a =? 0 then Some (b, 0, 1)
      else
        match euclideanGCD_rec fuel (Z.rem b a) a with
        | Some (g, y, x) => Some (g, x - Z.quot (b - Z.rem b a) a * y, y)
        | None => None
        end
  end.

Definition euclideanGCD (a b : Z) : option (Z * Z * Z) :=
  euclideanGCD_rec (S (Z.abs_nat a)) a b.

(** [x.mod(m)] on [bignum]s: the remainder of the division that rounds
    towards zero, and [0] when [m] is [0].  ([euclideanGCD] divides by [a]
    only after it has found that [a] is not [0].) *)
Definition bn_mod (x m : Z) : Z :=
  if m =? 0 then 0 else Z.rem x m.

(** [moduloMultiplicativeInverse(a, modulo)]: [inl] is the string thrown. *)
Definition moduloMultiplicativeInverse (a modulo : Z)
  : option (string + Z) :=
  match euclideanGCD a modulo with
  | Some (g, x, y) =>
      Some (if negb (g =? 1) then inl "No modular inverse"
            else inr (bn_mod x modulo))
  | None => None
  end.

End Utils.

Module Salt.

Definition saltByteLength : nat := 8.
Definition saltStringLength : nat := saltByteLength * 2.

(** [Buffer.toString('base64')]: three bytes give four characters of the
    standard alphabet, and a last group of one or two bytes is padded with
    [=]. *)
Definition base64_alphabet : string :=
  "ABCDEFGHIJKLMNOPQRSTUVWXYZabcdefghijklmnopqrstuvwxyz0123456789+/".

Definition base64_char (n : Z) : Ascii.ascii :=
  default "="%char (String.get (Z.to_nat n) base64_alphabet).

Fixpoint base64 (bytes : list Z) : string :=
  match bytes with
  | [] => ""
  | [b1] =>
      String (base64_char (b1 / 4))
        (String (base64_char (b1 mod 4 * 16)) "==")
  | [b1; b2] =>
      String (base64_char (b1 / 4))
        (String (base64_char (b1 mod 4 * 16 + b2 / 16))
           (String (base64_char (b2 mod 16 * 4)) "="))
  | b1 :: b2 :: b3 :: rest =>
      String (base64_char (b1 / 4))
        (String (base64_char (b1 mod 4 * 16 + b2 / 16))
           (String (base64_char (b2 mod 16 * 4 + b3 / 64))
              (String (base64_char (b3 mod 64)) (base64 rest))))
  end.

Section Hash.
(** [cryptoUtils.hash] *)
Variable hash : string → string.

Definition hashWithRandomSalt (saltByte : list Z) (stringToHash : string)
  : string :=
  let saltString := base64 saltByte in
  saltString +:+ hash (saltString +:+ stringToHash).

Definition compareSaltedHash (saltedHash plain : string) : bool :=
  let saltString := String.substring 0 saltStringLength saltedHash in
  String.eqb saltedHash (saltString +:+ hash (saltString +:+ plain)).

End Hash.

(** Sample data: a hash of four characters, and a salt of eight bytes. *)
Definition sample_hash (x : string) : string :=
  String.substring 0 4 (x +:+ "====").

Definition sample_salt : list Z := [1; 2; 3; 4; 5; 6; 7; 8].

End Salt.

(** * Calls on the ledger node over HTTP ([tendermint/http_client]) *)
Module TendermintHttp.

(** An entry of [params]; [None] is [null] or [undefined].  The value is
    given as the string [encodeURIComponent] makes of it. *)
Record Param := {
  key : option string;
  value : option string;
}.

(** What [httpUriCall] ends with: the JSON of the response, the
    [CustomError] of a failed call, or a [TypeError]. *)
Inductive Result :=
| Json (responseJson : string)
| TENDERMINT_HTTP_CALL_ERROR (uri : string)
| TypeError.

Definition quote : string := String (ascii_of_nat 34) "".

Section HttpUriCall.
Context (encodeURIComponent : string → string).
Context (tendermintAddress : string).

(** The callback of [params.reduce]. *)
Definition addParam (paramsString : string) (param : Param) : string :=
  match key param, value param with
  | Some k, Some v =>
      let uriEncodedParamValue := encodeURIComponent v in
      if negb (String.eqb paramsString "")
      then paramsString
           +:+ ("&" +:+ k +:+ "=" +:+ quote +:+ uriEncodedParamValue +:+ quote)
      else paramsString
           +:+ (k +:+ "=" +:+ quote +:+ uriEncodedParamValue +:+ quote)
  | _, _ => paramsString
  end.

Definition queryString (params : list Param) : string :=
  foldl addParam "" params.

Definition uriOf (method : string) (params : list Param) : string :=
  let uri := "http://" +:+ tendermintAddress +:+ "/" +:+ method in
  if (0 <? length params)%nat then uri +:+ ("?" +:+ queryString params)
  else uri.

(** [httpUriCall]: [params] is [None] when the caller gives none, and then
    [params.reduce] throws before anything is fetched.  [fetch] is what the
    node at the address answers to a uri, if it answers with JSON. *)
Definition httpUriCall (fetch : string → option string) (method : string)
    (params : option (list Param)) : Result :=
  match params with
  | None => TypeError
  | Some params =>
      let uri := uriOf method params in
      match fetch uri with
      | Some responseJson => Json responseJson
      | None => TENDERMINT_HTTP_CALL_ERROR uri
      end
  end.

Definition abciQuery (fetch : string → option string) (data : option string)
  : Result :=
  httpUriCall fetch "abci_query"
    (Some [{| key := Some "data"; value := data |}]).

Definition broadcastTxCommit (fetch : string → option string)
    (tx : option string) : Result :=
  httpUriCall fetch "broadcast_tx_commit"
    (Some [{| key := Some "tx"; value := tx |}]).

Definition status (fetch : string → option string) : Result :=
  httpUriCall fetch "status" None.

(** The query string by its parts: one [key="value"] for each entry that
    has both, with [&] in between. *)
Definition part (param : Param) : option string :=
  k ← key param;
  v ← value param;
  Some (k +:+ "=" +:+ quote +:+ encodeURIComponent v +:+ quote).

End HttpUriCall.
End TendermintHttp.

(** * The sending sockets of the message queue ([mq/mqsendsocket.js]) *)
Module MqSendSocket.

Record Dest := {
  ip : string;
  port : Z;
}.

(** A [zmq] socket of type [req], as far as the class uses it: its
    options, the address it is connected to, what was sent on it and
    whether it was closed. *)
Record Socket := {
  ZMQ_LINGER : Z;
  ZMQ_RCVTIMEO : Z;
  ZMQ_SNDTIMEO : Z;
  connected : string;
  sent : list string;
  closed : bool;
}.

(** [this.socketMap], a [Map] from [seqId] to socket, and the sockets made
    so far; a socket is known by its place among them. *)
Record State := {
  socketMap : gmap Z nat;
  sockets : list Socket;
}.

Definition init : State := {| socketMap := ∅; sockets := [] |}.

(** [_init(dest)] *)
Definition _init (dest : Dest) (s : State) : nat * State :=
  let destUri := "tcp://" +:+ ip dest +:+ ":" +:+ pretty (port dest) in
  (length (sockets s),
   {| socketMap := socketMap s;
      sockets := sockets s ++ [{| ZMQ_LINGER := 0;
                                  ZMQ_RCVTIMEO := 0;
                                  ZMQ_SNDTIMEO := 0;
                                  connected := destUri;
                                  sent := [];
                                  closed := false |}] |}).

Definition socket_send (payload : string) (k : Socket) : Socket :=
  {| ZMQ_LINGER := ZMQ_LINGER k;
     ZMQ_RCVTIMEO := ZMQ_RCVTIMEO k;
     ZMQ_SNDTIMEO := ZMQ_SNDTIMEO k;
     connected := connected k;
     sent := sent k ++ [payload];
     closed := closed k |}.

Definition socket_close (k : Socket) : Socket :=
  {| ZMQ_LINGER := ZMQ_LINGER k;
     ZMQ_RCVTIMEO := ZMQ_RCVTIMEO k;
     ZMQ_SNDTIMEO := ZMQ_SNDTIMEO k;
     connected := connected k;
     sent := sent k;
     closed := true |}.

(** [send(dest, payload, seqId)] *)
Definition send (dest : Dest) (payload : string) (seqId : Z) (s : State)
  : State :=
  let '(newSocket, s) := _init dest s in
  {| socketMap := <[seqId := newSocket]> (socketMap s);
     sockets := alter (socket_send payload) newSocket (sockets s) |}.

(** [cleanUp(seqId)]: [this.socketMap.get(seqId)] is [undefined] for a
    [seqId] that is not in the map, and [.close()] throws a [TypeError]
    ([None]) before anything is changed. *)
Definition cleanUp (seqId : Z) (s : State) : option State :=
  match socketMap s !! seqId with
  | Some k =>
      Some {| socketMap := delete seqId (socketMap s);
              sockets := alter socket_close k (sockets s) |}
  | None => None
  end.

(** The calls on an instance; a call that throws leaves it as it is. *)
Inductive Call :=
| Send (dest : Dest) (payload : string) (seqId : Z)
| CleanUp (seqId : Z).

Definition call (s : State) (c : Call) : State :=
  match c with
  | Send dest payload seqId => send dest payload seqId s
  | CleanUp seqId => default s (cleanUp seqId s)
  end.

Definition is_open (s : State) (k : nat) : Prop :=
  ∃ sock, sockets s !! k = Some sock ∧ closed sock = false.

(** Every socket in the map is open, and no two entries hold the same
    socket. *)
Definition map_ok (s : State) : Prop :=
  (∀ seqId k, socketMap s !! seqId = Some k → is_open s k) ∧
  (∀ seqId seqId' k, socketMap s !! seqId = Some k →
     socketMap s !! seqId' = Some k → seqId = seqId').

(** Sample data: two messages are sent under one [seqId]. *)
Definition sample_dest : Dest := {| ip := "10.0.0.1"; port := 5555 |}.

End MqSendSocket.

(** * Facts about schedules and sums *)
Section RunFacts.
Context {St Ev : Type} (step : Ev → St → option St).

Lemma run_cons e evs s s' :
  step e s = Some s' → run step (e :: evs) s = run step evs s'.
Proof. intros H. simpl. by rewrite H. Qed.

Lemma run_app evs1 evs2 s :
  run step (evs1 ++ evs2) s = run step evs1 s ≫= run step evs2.
Proof.
  revert s. induction evs1 as [|e evs1 IH]; intros s; simpl; [done|].
  destruct (step e s); [apply IH | done].
Qed.

Lemma run_snoc evs e s :
  run step (evs ++ [e]) s = run step evs s ≫= step e.
Proof.
  rewrite run_app. destruct (run step evs s) as [s'|]; simpl; [|done].
  by destruct (step e s').
Qed.

(** A property kept by every turn is kept by every schedule. *)
Lemma run_invariant (P : St → Prop) :
  (∀ e s s', P s → step e s = Some s' → P s') →
  ∀ evs s s', P s → run step evs s = Some s' → P s'.
Proof.
  intros Hstep evs. induction evs as [|e evs IH]; intros s s' HP Hrun;
    simpl in Hrun.
  - congruence.
  - destruct (step e s) as [s1|] eqn:E; [|done]. eauto.
Qed.

(** The same for a property that depends on what the schedule has
    gathered so far. *)
Lemma run_invariant_acc {A} (P : A → St → Prop) (f : A → Ev → A) :
  (∀ e a s s', P a s → step e s = Some s' → P (f a e) s') →
  ∀ evs a s s', P a s → run step evs s = Some s' → P (foldl f a evs) s'.
Proof.
  intros Hstep evs. induction evs as [|e evs IH]; intros a s s' HP Hrun;
    simpl in Hrun.
  - injection Hrun as <-. done.
  - destruct (step e s) as [s1|] eqn:E; [|done]. simpl. eauto.
Qed.

End RunFacts.


Section TotalFacts.
Context {A : Type} (w : A → Z).

Lemma total_nil : total w [] = 0.
Proof. done. Qed.

Lemma total_cons x l : total w (x :: l) = w x + total w l.
Proof. done. Qed.

Lemma total_app l1 l2 : total w (l1 ++ l2) = total w l1 + total w l2.
Proof.
  induction l1 as [|x l1 IH]; unfold total in *; simpl; [done|].
  rewrite IH. lia.
Qed.

Lemma total_snoc l x : total w (l ++ [x]) = total w l + w x.
Proof. rewrite total_app, total_cons, total_nil. lia. Qed.

Lemma total_insert l i x y :
  l !! i = Some y → total w (<[i := x]> l) = total w l - w y + w x.
Proof.
  revert i. induction l as [|z l IH]; intros [|i] H; simpl in *; try done.
  - injection H as ->. unfold total; simpl. lia.
  - specialize (IH i H). unfold total in *; simpl. lia.
Qed.

Lemma total_nonneg l : (∀ x, 0 ≤ w x) → 0 ≤ total w l.
Proof.
  intros Hw. induction l as [|x l IH]; [done|].
  rewrite total_cons. specialize (Hw x). lia.
Qed.

End TotalFacts.

Lemma total_le {A} (w1 w2 : A → Z) l :
  (∀ x, w1 x ≤ w2 x) → total w1 l ≤ total w2 l.
Proof.
  intros H. induction l as [|x l IH]; [done|].
  rewrite !total_cons. specialize (H x). lia.
Qed.

Lemma total_ext_Forall {A} (w1 w2 : A → Z) l :
  Forall (λ x, w1 x = w2 x) l → total w1 l = total w2 l.
Proof.
  induction 1 as [|x l Hx _ IH]; [done|]. rewrite !total_cons. lia.
Qed.

Lemma total_zero_Forall {A} (w : A → Z) l :
  (∀ x, 0 ≤ w x) → total w l = 0 → Forall (λ x, w x = 0) l.
Proof.
  intros Hw. induction l as [|x l IH]; [constructor|].
  rewrite total_cons. intros H.
  pose proof (Hw x). pose proof (total_nonneg w l Hw).
  constructor; [lia|]. apply IH. lia.
Qed.

Lemma total_fmap {A B} (w : B → Z) (f : A → B) l :
  total w (f <$> l) = total (w ∘ f) l.
Proof.
  induction l as [|x l IH]; [done|].
  rewrite fmap_cons, !total_cons, IH. done.
Qed.

Lemma total_ext {A} (w1 w2 : A → Z) l :
  (∀ x, w1 x = w2 x) → total w1 l = total w2 l.
Proof.
  intros H. induction l as [|x l IH]; [done|].
  by rewrite !total_cons, IH, H.
Qed.

Lemma total_one {A} (w : A → Z) l i x :
  (∀ z, 0 ≤ w z) → l !! i = Some x → w x ≤ total w l.
Proof.
  intros Hw. revert i. induction l as [|z l IH]; intros [|i] Hi;
    simpl in *; try done.
  - injection Hi as ->. rewrite total_cons.
    pose proof (total_nonneg w l Hw). lia.
  - rewrite total_cons. specialize (IH i Hi). specialize (Hw z). lia.
Qed.

(** Two places of a list weigh no more than the list. *)
Lemma total_two {A} (w : A → Z) l i j x y :
  (∀ z, 0 ≤ w z) → l !! i = Some x → l !! j = Some y → i ≠ j →
  w x + w y ≤ total w l.
Proof.
  intros Hw. revert i j.
  induction l as [|z l IH]; intros i j Hi Hj Hne; [done|].
  rewrite total_cons.
  destruct i as [|i], j as [|j]; simpl in *; try done.
  - injection Hi as ->. pose proof (total_one w l j y Hw Hj). lia.
  - injection Hj as ->. pose proof (total_one w l i x Hw Hi). lia.
  - assert (i ≠ j) by congruence. specialize (IH i j Hi Hj H).
    specialize (Hw z). lia.
Qed.

Lemma total_zero {A} (w : A → Z) l :
  Forall (λ x, w x = 0) l → total w l = 0.
Proof.
  induction 1 as [|x l Hx _ IH]; [done|]. rewrite total_cons. lia.
Qed.



Lemma foldl_add_total {A} (w : A → Z) r0 l :
  foldl (λ r x, r + w x) r0 l = r0 + total w l.
Proof.
  revert r0. induction l as [|x l IH]; intros r0; simpl.
  - rewrite total_nil. lia.
  - rewrite IH, total_cons. lia.
Qed.

(** * The callback loop: terminal outcomes, the stop flag, the counter *)
Module CallbackTheory.
Import Callback.

Ltac unfold_turns :=
  unfold step, callbackWithRetry, posted, posted_resolved, posted_rejected,
    decided, woken, wait, iterate, stopAllCallbackRetries, goto,
    incrementPendingCallbacksCount, decrementPendingCallbacksCount,
    setCallbackWithRetryData, removeCallbackWithRetryData,
    callResponseCallback in *.

Lemma stop_length ls k : length (stop ls k) = length ls.
Proof.
  unfold stop. repeat case_match; try done. by rewrite length_insert.
Qed.

Lemma foldl_stop_length ks ls : length (foldl stop ls ks) = length ls.
Proof.
  revert ls. induction ks as [|k ks IH]; intros ls; simpl; [done|].
  by rewrite IH, stop_length.
Qed.

(** [stop] only touches sleeping loops, and only their interrupted mark. *)
Lemma stop_lookup ls k i l :
  ls !! i = Some l →
  stop ls k !! i = Some l ∨
  ∃ n b, pc l = AwaitWait n b ∧ stop ls k !! i = Some (with_pc (AwaitWait n true) l).
Proof.
  intros Hi. unfold stop. destruct (ls !! k) as [l'|] eqn:Hk; [|by left].
  destruct (pc l') eqn:Hpc; try by left.
  destruct (decide (k = i)) as [->|Hne].
  - right. rewrite Hi in Hk. injection Hk as ->. eexists _, _. split; [done|].
    rewrite list_lookup_insert_eq; [done|]. by eapply lookup_lt_Some.
  - left. by rewrite list_lookup_insert_ne.
Qed.

Lemma foldl_stop_lookup ks ls i l :
  ls !! i = Some l →
  foldl stop ls ks !! i = Some l ∨
  ∃ n b, pc l = AwaitWait n b ∧
         foldl stop ls ks !! i = Some (with_pc (AwaitWait n true) l).
Proof.
  revert ls l. induction ks as [|k ks IH]; intros ls l Hi; simpl; [by left|].
  destruct (stop_lookup ls k i l Hi) as [H|(n & b & Hpc & H)].
  - by apply IH.
  - destruct (IH _ _ H) as [H'|(n' & b' & Hpc' & H')].
    + right. eauto.
    + right. simpl in Hpc'. injection Hpc' as <- <-. eauto.
Qed.

Lemma foldl_stop_returned ks ls i l o :
  ls !! i = Some l → pc l = Returned o → foldl stop ls ks !! i = Some l.
Proof.
  intros Hi Hpc. destruct (foldl_stop_lookup ks ls i l Hi) as [H|(n & b & H & _)];
    [done | congruence].
Qed.

Lemma attempts_snoc i j s :
  length (filter (λ k, k = i) (posts s ++ [j])) =
  (length (filter (λ k, k = i) (posts s)) + (if decide (j = i) then 1 else 0))%nat.
Proof.
  rewrite filter_app, length_app. f_equal.
  rewrite filter_cons, filter_nil. by case_decide.
Qed.

(** A loop that has returned takes no further turn: no event is its turn,
    and the turns of others leave it and its POSTs as they are. *)
Lemma step_returned cfg e s s' i l o :
  step cfg e s = Some s' → loops s !! i = Some l → pc l = Returned o →
  loops s' !! i = Some l ∧ attempts i s' = attempts i s ∧ target e ≠ Some i.
Proof.
  intros Hstep Hi Hpc.
  assert (Hlt : (i < length (loops s))%nat) by by eapply lookup_lt_Some.
  destruct e as [a|a now now'|j r n t tD tE|j d|j|]; simpl in Hstep.
  - injection Hstep as <-. done.
  - injection Hstep as <-. unfold attempts. unfold_turns.
    repeat case_match; simpl;
      rewrite ?attempts_snoc, ?list_lookup_insert_ne, ?lookup_app_l by lia;
      repeat case_decide; (split; [done|split; [lia|done]]).
  - destruct (loops s !! j) as [lj|] eqn:Hj; [|done]. simpl in Hstep.
    destruct (pc lj) eqn:Hpcj; try done. injection Hstep as <-.
    assert (j ≠ i) by (intros ->; congruence).
    unfold attempts. unfold_turns.
    repeat case_match; simpl; rewrite ?list_lookup_insert_ne by done;
      (split; [done|split; [done|congruence]]).
  - destruct (loops s !! j) as [lj|] eqn:Hj; [|done]. simpl in Hstep.
    destruct (pc lj) eqn:Hpcj; try done. injection Hstep as <-.
    assert (j ≠ i) by (intros ->; congruence).
    unfold attempts. unfold_turns.
    repeat case_match; simpl; rewrite ?list_lookup_insert_ne by done;
      (split; [done|split; [done|congruence]]).
  - destruct (loops s !! j) as [lj|] eqn:Hj; [|done]. simpl in Hstep.
    destruct (pc lj) eqn:Hpcj; try done. injection Hstep as <-.
    assert (j ≠ i) by (intros ->; congruence).
    unfold attempts. unfold_turns.
    repeat case_match; simpl;
      rewrite ?attempts_snoc, ?list_lookup_insert_ne by done;
      repeat case_decide; (split; [done|split; [lia || done|congruence]]).
  - injection Hstep as <-. unfold attempts. unfold_turns. simpl.
    split; [by eapply foldl_stop_returned|done].
Qed.


Lemma run_returned cfg evs s s' i l o :
  run (step cfg) evs s = Some s' → loops s !! i = Some l → pc l = Returned o →
  loops s' !! i = Some l ∧ attempts i s' = attempts i s.
Proof.
  revert s. induction evs as [|e evs IH]; intros s Hrun Hi Hpc; simpl in Hrun.
  - by injection Hrun as <-.
  - destruct (step cfg e s) as [s1|] eqn:E; [|done].
    destruct (step_returned _ _ _ _ _ _ _ E Hi Hpc) as (Hi1 & Hatt & _).
    destruct (IH _ Hrun Hi1 Hpc) as [? ?]. split; [done|congruence].
Qed.

Lemma returned_over cfg i o s :
  pc_of i s = Some (Returned o) → over cfg i o s.
Proof.
  unfold pc_of. intros Hpc evs s' Hrun.
  destruct (loops s !! i) as [l|] eqn:Hi; [|done].
  injection Hpc as Hpc.
  destruct (run_returned _ _ _ _ _ _ _ Hrun Hi Hpc) as [Hi' Hatt].
  split; [by unfold pc_of; rewrite Hi'; simpl; f_equal|]. split; [done|].
  intros e He. destruct (step cfg e s') as [s2|] eqn:E; [|done].
  by destruct (step_returned _ _ _ _ _ _ _ E Hi' Hpc) as (_ & _ & ?).
Qed.

Lemma goto_pc_of i l p s :
  loops s !! i = Some l → pc_of i (goto i l p s) = Some p.
Proof.
  intros Hi. unfold pc_of, goto. simpl.
  rewrite list_lookup_insert_eq; [done|]. by eapply lookup_lt_Some.
Qed.

(** The oversized response, one turn. *)
Lemma posted_max_size cfg s i l r nextRetry now nowD nowE s' :
  loops s !! i = Some l → pc l = AwaitPost →
  httpPost r = inl (FetchError "max-size") →
  step cfg (Posted i r nextRetry now nowD nowE) s = Some s' →
  pc_of i s' = Some (Returned BodyTooLarge) ∧
  cacheDb s' = delete (cbId (args l)) (cacheDb s) ∧
  handled s' =
    handled s ++
    (if truthy_str (responseCallbackFnName (args l))
     then [{| fnName := default "" (responseCallbackFnName (args l));
              arg := WithError "BODY_TOO_LARGE";
              data := dataForResponseCallback (args l) |}]
     else []) ∧
  emitted s' =
    emitted s ++ [pendingCallbacksCountIs (pendingCallbacksCount s - 1);
                  callbackFail] ∧
  pendingCallbacksCount s' = pendingCallbacksCount s - 1 ∧
  posts s' = posts s.
Proof.
  intros Hi Hpc Hr Hstep. simpl in Hstep. rewrite Hi in Hstep. simpl in Hstep.
  rewrite Hpc in Hstep. injection Hstep as <-.
  unfold posted. rewrite Hr. unfold posted_rejected.
  change (is_max_size (FetchError "max-size")) with true. cbv iota.
  assert (Hlt : (i < length (loops s))%nat) by by eapply lookup_lt_Some.
  unfold pc_of. unfold_turns. destruct (truthy_str _); simpl;
    rewrite list_lookup_insert_eq by done;
    rewrite <- ?app_assoc, ?app_nil_r; done.
Qed.

Lemma httpPost_too_large st size :
  RESPONSE_BODY_SIZE_LIMIT < size →
  httpPost (Answered st size) = inl (FetchError "max-size").
Proof.
  intros H. unfold httpPost.
  destruct (Z.ltb_spec RESPONSE_BODY_SIZE_LIMIT size); [done|lia].
Qed.

Lemma httpPost_max_size r :
  httpPost r = inl (FetchError "max-size") ↔
  r = Failed (FetchError "max-size") ∨
  ∃ st size, r = Answered st size ∧ RESPONSE_BODY_SIZE_LIMIT < size.
Proof.
  split.
  - destruct r as [st size|e]; unfold httpPost.
    + destruct (Z.ltb_spec RESPONSE_BODY_SIZE_LIMIT size); [|done].
      intros _. right. eauto.
    + intros [= ->]. by left.
  - intros [->|(st & size & -> & H)]; [done|by apply httpPost_too_large].
Qed.


(** Entering [callbackWithRetry] while the stop flag is down. *)
Lemma call_enters cfg a now now' s :
  stopCallbackRetry s = false →
  let s' := callbackWithRetry cfg a now now' s in
  loops s' !! length (loops s) =
    Some {| args := a; startTime := now; pc := AwaitPost |} ∧
  posts s' = posts s ++ [length (loops s)] ∧
  cacheDb s' = cacheDb s ∧
  stopCallbackRetry s' = false ∧
  pendingCallbacksCount s' = pendingCallbacksCount s + 1.
Proof.
  intros Hstop. unfold_turns.
  destruct (decide (mode cfg = WORKER)); simpl; rewrite Hstop; simpl;
    (rewrite list_lookup_insert_eq by (rewrite length_app; simpl; lia)); done.
Qed.

(** A failed POST of a loop that has a should-retry function, unless the
    failure is the oversized body: the function is asked. *)
Lemma posted_asks cfg s i l e nextRetry now nowD nowE :
  loops s !! i = Some l → pc l = AwaitPost →
  is_max_size e = false → truthy_str (shouldRetryFnName (args l)) = true →
  ∃ s', step cfg (Posted i (Failed e) nextRetry now nowD nowE) s = Some s' ∧
    loops s' !! i = Some (with_pc (AwaitShouldRetry nextRetry) l) ∧
    posts s' = posts s ∧ cacheDb s' = cacheDb s ∧
    pendingCallbacksCount s' = pendingCallbacksCount s ∧
    emitted s' = emitted s ∧ handled s' = handled s.
Proof.
  intros Hi Hpc He Hfn. eexists. simpl. rewrite Hi. simpl. rewrite Hpc.
  split; [done|]. unfold posted, posted_rejected. simpl. rewrite He, Hfn.
  unfold goto. simpl. rewrite list_lookup_insert_eq; [done|].
  by eapply lookup_lt_Some.
Qed.

(** The should-retry function says no, one turn. *)
Lemma decided_vetoes cfg s i l nextRetry :
  loops s !! i = Some l → pc l = AwaitShouldRetry nextRetry →
  ∃ s', step cfg (Decided i (Says false)) s = Some s' ∧
    pc_of i s' = Some (Returned Vetoed) ∧
    cacheDb s' = delete (cbId (args l)) (cacheDb s) ∧
    emitted s' =
      emitted s ++ [pendingCallbacksCountIs (pendingCallbacksCount s - 1);
                    callbackFail] ∧
    pendingCallbacksCount s' = pendingCallbacksCount s - 1 ∧
    handled s' = handled s ∧
    posts s' = posts s.
Proof.
  intros Hi Hpc. eexists. simpl. rewrite Hi. simpl. rewrite Hpc.
  split; [done|]. unfold pc_of. unfold_turns. simpl.
  rewrite list_lookup_insert_eq by by eapply lookup_lt_Some.
  rewrite <- app_assoc. done.
Qed.

(** The should-retry function says yes, or throws: the loop goes to sleep
    for [nextRetry], and nothing else changes. *)
Lemma decided_retries cfg s i l nextRetry d :
  loops s !! i = Some l → pc l = AwaitShouldRetry nextRetry →
  d = Says true ∨ d = Throws →
  ∃ s', step cfg (Decided i d) s = Some s' ∧
    loops s' !! i = Some (with_pc (AwaitWait nextRetry false) l) ∧
    waitPromises s' = waitPromises s ++ [i] ∧
    cacheDb s' = cacheDb s ∧
    emitted s' = emitted s ∧
    pendingCallbacksCount s' = pendingCallbacksCount s ∧
    handled s' = handled s ∧
    posts s' = posts s ∧
    stopCallbackRetry s' = stopCallbackRetry s.
Proof.
  intros Hi Hpc Hd. eexists. simpl. rewrite Hi. simpl. rewrite Hpc.
  split; [done|]. unfold_turns.
  destruct Hd as [-> | ->]; simpl;
    (rewrite list_lookup_insert_eq by by eapply lookup_lt_Some); done.
Qed.

(** Waking a sleeping loop: it leaves at once when the stop flag is up,
    and starts the next POST otherwise. *)
Lemma woken_spec cfg s i l nextRetry b :
  loops s !! i = Some l → pc l = AwaitWait nextRetry b →
  ∃ s', step cfg (Woken i) s = Some s' ∧
    pc_of i s' =
      Some (if stopCallbackRetry s then Returned Stopped else AwaitPost) ∧
    posts s' = (if stopCallbackRetry s then posts s else posts s ++ [i]) ∧
    cacheDb s' = cacheDb s ∧
    emitted s' = emitted s ∧
    handled s' = handled s ∧
    pendingCallbacksCount s' = pendingCallbacksCount s.
Proof.
  intros Hi Hpc. eexists. simpl. rewrite Hi. simpl. rewrite Hpc.
  split; [done|]. unfold pc_of. unfold_turns. simpl.
  destruct (stopCallbackRetry s); simpl;
    (rewrite list_lookup_insert_eq by by eapply lookup_lt_Some); done.
Qed.

Lemma step_length_loops cfg e s s' :
  step cfg e s = Some s' → (length (loops s) ≤ length (loops s'))%nat.
Proof.
  intros Hstep. destruct e as [a|a now now'|j r n t tD tE|j d|j|];
    simpl in Hstep; try (injection Hstep as <-);
    try (destruct (loops s !! j) as [lj|] eqn:Hj; [|done]; simpl in Hstep;
         destruct (pc lj) eqn:Hpcj; try done; injection Hstep as <-);
    unfold_turns; repeat case_match; simpl;
    rewrite ?length_insert, ?length_app, ?foldl_stop_length; simpl; lia.
Qed.


Lemma step_posts_bounded cfg e s s' :
  posts_bounded s → step cfg e s = Some s' → posts_bounded s'.
Proof.
  unfold posts_bounded. intros Hb Hstep.
  assert (Hlen := step_length_loops _ _ _ _ Hstep).
  assert (Hb' : Forall (λ j, (j < length (loops s'))%nat) (posts s)).
  { eapply Forall_impl; [exact Hb|]. simpl. intros; lia. }
  destruct e as [a|a now now'|j r n t tD tE|j d|j|];
    simpl in Hstep; try (injection Hstep as <-);
    try (destruct (loops s !! j) as [lj|] eqn:Hj; [|done]; simpl in Hstep;
         destruct (pc lj) eqn:Hpcj; try done; injection Hstep as <-;
         apply lookup_lt_Some in Hj);
    unfold_turns; repeat case_match; simpl in *; try done;
    apply Forall_app; (split; [done|]); apply Forall_singleton;
    rewrite ?length_insert, ?length_app; simpl; lia.
Qed.

Lemma reachable_posts_bounded cfg evs s :
  run (step cfg) evs init = Some s → posts_bounded s.
Proof.
  apply (run_invariant (step cfg) posts_bounded).
  - intros e s1 s2. apply step_posts_bounded.
  - constructor.
Qed.

Lemma posts_bounded_fresh s :
  posts_bounded s → attempts (length (loops s)) s = 0%nat.
Proof.
  unfold posts_bounded, attempts. induction (posts s) as [|j p IH]; [done|].
  intros H. apply Forall_cons in H as [Hj Hp].
  rewrite filter_cons. case_decide; [lia|]. by apply IH.
Qed.

(** ** The counter *)

Lemma stop_counts (w : Loop → Z) ls k :
  (∀ l n b, pc l = AwaitWait n b → w (with_pc (AwaitWait n true) l) = w l) →
  total w (stop ls k) = total w ls.
Proof.
  intros Hw. unfold stop. destruct (ls !! k) as [l|] eqn:Hk; [|done].
  destruct (pc l) eqn:Hpc; try done.
  rewrite (total_insert w _ _ _ _ Hk), (Hw _ _ _ Hpc). lia.
Qed.

Lemma foldl_stop_counts (w : Loop → Z) ks ls :
  (∀ l n b, pc l = AwaitWait n b → w (with_pc (AwaitWait n true) l) = w l) →
  total w (foldl stop ls ks) = total w ls.
Proof.
  intros Hw. revert ls. induction ks as [|k ks IH]; intros ls; simpl; [done|].
  by rewrite IH, stop_counts.
Qed.

(** Every turn changes the counter as it changes the number of loops that
    count. *)
Lemma step_counter cfg e s s' :
  step cfg e s = Some s' →
  pendingCallbacksCount s' - pending (loops s') =
  pendingCallbacksCount s - pending (loops s).
Proof.
  intros Hstep. unfold pending.
  destruct e as [a|a now now'|j r n t tD tE|j d|j|];
    simpl in Hstep; try (injection Hstep as <-);
    try (destruct (loops s !! j) as [lj|] eqn:Hj; [|done]; simpl in Hstep;
         destruct (pc lj) eqn:Hpcj; try done; injection Hstep as <-).
  - done.
  - unfold_turns. repeat case_match; simpl;
      (erewrite total_insert;
       [|apply list_lookup_middle; by rewrite Nat.add_0_r || done]);
      rewrite total_snoc; unfold counts; simpl; lia.
  - unfold_turns. repeat case_match; simpl;
      rewrite (total_insert counts _ _ _ _ Hj); unfold counts; simpl;
      rewrite Hpcj; lia.
  - unfold_turns. repeat case_match; simpl;
      rewrite (total_insert counts _ _ _ _ Hj); unfold counts; simpl;
      rewrite Hpcj; lia.
  - unfold_turns. repeat case_match; simpl;
      rewrite (total_insert counts _ _ _ _ Hj); unfold counts; simpl;
      rewrite Hpcj; lia.
  - unfold_turns. simpl. rewrite foldl_stop_counts; [done|].
    intros l n b Hl. unfold counts. simpl. by rewrite Hl.
Qed.

Lemma reachable_counter cfg evs s :
  run (step cfg) evs init = Some s →
  pendingCallbacksCount s = pending (loops s).
Proof.
  intros Hrun.
  enough (pendingCallbacksCount s - pending (loops s) = 0) by lia.
  revert Hrun. apply (run_invariant (step cfg)
    (λ s, pendingCallbacksCount s - pending (loops s) = 0)).
  - intros e s1 s2 H1 Hstep. by rewrite (step_counter _ _ _ _ Hstep).
  - done.
Qed.

Lemma halted_le_counts l : 0 ≤ halted l ≤ counts l.
Proof. unfold halted, counts. repeat case_match; lia. Qed.

(** What one turn does to the counter: plus one for a call, minus one when
    the loop whose turn it is ends with a terminal outcome. *)
Lemma step_counter_delta cfg e s s' :
  step cfg e s = Some s' →
  pendingCallbacksCount s' =
  pendingCallbacksCount s
  + (match e with Call _ _ _ => 1 | _ => 0 end)
  - (match target e with
     | Some i => if terminal (pc_of i s') then 1 else 0
     | None => 0
     end).
Proof.
  intros Hstep. unfold pc_of.
  destruct e as [a|a now now'|j r n t tD tE|j d|j|];
    simpl in Hstep; try (injection Hstep as <-);
    try (destruct (loops s !! j) as [lj|] eqn:Hj; [|done]; simpl in Hstep;
         destruct (pc lj) eqn:Hpcj; try done; injection Hstep as <-;
         apply lookup_lt_Some in Hj); simpl.
  - lia.
  - unfold_turns. destruct (decide (mode cfg = WORKER));
      destruct (stopCallbackRetry s) eqn:Hs; simpl; rewrite ?Hs; simpl; lia.
  - unfold_turns. destruct (httpPost r) as [error|resp].
    + destruct (is_max_size error).
      { destruct (truthy_str (responseCallbackFnName (args lj))); simpl;
          rewrite list_lookup_insert_eq by done; simpl; lia. }
      destruct (truthy_str (shouldRetryFnName (args lj))).
      { simpl. rewrite list_lookup_insert_eq by done. simpl. lia. }
      destruct (_ && _); simpl; rewrite list_lookup_insert_eq by done;
        simpl; lia.
    + destruct (decide (mode cfg = WORKER));
        destruct (truthy_str (responseCallbackFnName (args lj))); simpl;
        rewrite list_lookup_insert_eq by done; simpl; lia.
  - unfold_turns. destruct d as [[|]|]; simpl;
      rewrite list_lookup_insert_eq by done; simpl; lia.
  - unfold_turns. simpl. destruct (stopCallbackRetry s); simpl;
      rewrite list_lookup_insert_eq by done; simpl; lia.
  - unfold_turns. simpl. lia.
Qed.


(** ** The stop flag *)

Lemma remove_first_elem x a r y :
  remove_first x a = Some r → y ≠ x → y ∈ a → y ∈ r.
Proof.
  revert r. induction a as [|z a IH]; intros r Hr Hne Hy; simpl in Hr; [done|].
  case_decide as Hz.
  - injection Hr as <-. subst z.
    apply elem_of_cons in Hy. by destruct Hy.
  - destruct (remove_first x a) as [r'|]; [|done]. injection Hr as <-.
    apply elem_of_cons in Hy. destruct Hy as [->|Hy]; [set_solver|].
    apply elem_of_cons. right. by apply IH.
Qed.

Lemma remove_first_found x a : x ∈ a → is_Some (remove_first x a).
Proof.
  induction a as [|z a IH]; intros Hx; simpl; [set_solver|].
  case_decide; [done|].
  apply elem_of_cons in Hx as [->|Hx]; [done|].
  destruct (IH Hx) as [r ->]. done.
Qed.

Lemma splice_indexOf_elem x a y :
  x ∈ a → y ≠ x → y ∈ a → y ∈ splice_indexOf x a.
Proof.
  intros Hx Hne Hy. unfold splice_indexOf.
  destruct (remove_first_found x a Hx) as [r Hr]. rewrite Hr.
  by eapply remove_first_elem.
Qed.

Lemma step_sleeps_tracked cfg e s s' :
  sleeps_tracked s → step cfg e s = Some s' → sleeps_tracked s'.
Proof.
  unfold sleeps_tracked. intros Ht Hstep i l n b Hi Hpc.
  destruct e as [a|a now now'|j r n' t tD tE|j d|j|];
    simpl in Hstep; try (injection Hstep as <-);
    try (destruct (loops s !! j) as [lj|] eqn:Hj; [|done]; simpl in Hstep;
         destruct (pc lj) eqn:Hpcj; try done; injection Hstep as <-).
  - eauto.
  - assert (waitPromises (callbackWithRetry cfg a now now' s) = waitPromises s)
      as -> by (unfold_turns; repeat case_match; done).
    assert (Hl : loops (callbackWithRetry cfg a now now' s) !! i = Some l) by done.
    destruct (decide (i = length (loops s))) as [->|Hne].
    + exfalso. revert Hl. unfold_turns. repeat case_match; simpl;
        (rewrite list_lookup_insert_eq by (rewrite length_app; simpl; lia));
        intros [= <-]; done.
    + assert (loops s !! i = Some l); [|by eauto].
      revert Hl. unfold_turns. repeat case_match; simpl;
        rewrite list_lookup_insert_ne by done;
        (intros Hl; apply lookup_app_Some in Hl as [?|[? Hl]]; [done|]);
        apply list_lookup_singleton_Some in Hl as [? _]; lia.
  - destruct (decide (i = j)) as [->|Hne].
    + revert Hi Hpc. unfold_turns. apply lookup_lt_Some in Hj.
      repeat case_match; simpl; rewrite list_lookup_insert_eq by done;
        intros [= <-]; simpl; try done; intros _; set_solver.
    + assert (loops s !! i = Some l).
      { revert Hi. unfold_turns. repeat case_match; simpl;
          by rewrite list_lookup_insert_ne by done. }
      assert (i ∈ waitPromises s) by eauto.
      unfold_turns. repeat case_match; simpl; set_solver.
  - destruct (decide (i = j)) as [->|Hne].
    + revert Hi Hpc. unfold_turns. apply lookup_lt_Some in Hj.
      repeat case_match; simpl; rewrite list_lookup_insert_eq by done;
        intros [= <-]; simpl; try done; intros _; set_solver.
    + assert (loops s !! i = Some l).
      { revert Hi. unfold_turns. repeat case_match; simpl;
          by rewrite list_lookup_insert_ne by done. }
      assert (i ∈ waitPromises s) by eauto.
      unfold_turns. repeat case_match; simpl; set_solver.
  - destruct (decide (i = j)) as [->|Hne].
    + exfalso. revert Hi Hpc. unfold_turns. apply lookup_lt_Some in Hj.
      repeat case_match; simpl; rewrite list_lookup_insert_eq by done;
        intros [= <-]; simpl; done.
    + assert (loops s !! i = Some l).
      { revert Hi. unfold_turns. repeat case_match; simpl;
          by rewrite list_lookup_insert_ne by done. }
      assert (i ∈ waitPromises s) by eauto.
      assert (j ∈ waitPromises s) by eauto.
      assert (i ∈ splice_indexOf j (waitPromises s))
        by by apply splice_indexOf_elem.
      unfold_turns. repeat case_match; simpl; done.
  - simpl in *. assert (Hlt : (i < length (loops s))%nat).
    { apply lookup_lt_Some in Hi. by rewrite foldl_stop_length in Hi. }
    destruct (lookup_lt_is_Some_2 _ _ Hlt) as [l0 Hl0].
    destruct (foldl_stop_lookup (waitPromises s) _ _ _ Hl0)
      as [H|(n0 & b0 & Hpc0 & H)]; rewrite H in Hi; injection Hi as <-; eauto.
Qed.

Lemma reachable_sleeps_tracked cfg evs s :
  run (step cfg) evs init = Some s → sleeps_tracked s.
Proof.
  apply (run_invariant (step cfg) sleeps_tracked).
  - intros e s1 s2. apply step_sleeps_tracked.
  - intros i l n b Hi. done.
Qed.

(** [stopAllCallbackRetries] interrupts every sleep that has its handle in
    [waitPromises]. *)
Lemma foldl_stop_marks ks ls i l n b :
  i ∈ ks → ls !! i = Some l → pc l = AwaitWait n b →
  foldl stop ls ks !! i = Some (with_pc (AwaitWait n true) l).
Proof.
  revert ls l b. induction ks as [|k ks IH]; intros ls l b Hin Hi Hpc;
    [set_solver|]. simpl.
  destruct (decide (k = i)) as [->|Hne].
  - assert (Hs : stop ls i !! i = Some (with_pc (AwaitWait n true) l)).
    { unfold stop. rewrite Hi, Hpc. rewrite list_lookup_insert_eq; [done|].
      by eapply lookup_lt_Some. }
    destruct (foldl_stop_lookup ks _ _ _ Hs) as [H|(n' & b' & Hpc' & H)];
      [done|]. simpl in Hpc'. injection Hpc' as <- <-. by rewrite H.
  - apply elem_of_cons in Hin as [->|Hin]; [done|].
    destruct (stop_lookup ls k i l Hi) as [H|(n' & b' & Hpc' & H)].
    + by eapply IH.
    + rewrite Hpc in Hpc'. injection Hpc' as <- <-.
      erewrite IH; [|done|exact H|done]. done.
Qed.

(** Once the flag is up it stays up, no POST is started, and a loop that
    leaves by the flag leaves the cache database as it is. *)
Lemma step_stopped cfg e s s' :
  stopCallbackRetry s = true → step cfg e s = Some s' →
  stopCallbackRetry s' = true ∧ posts s' = posts s ∧
  ∀ i, pc_of i s' = Some (Returned Stopped) →
       pc_of i s ≠ Some (Returned Stopped) →
       cacheDb s' = cacheDb s.
Proof.
  intros Hs Hstep. unfold pc_of.
  destruct e as [a|a now now'|j r n t tD tE|j d|j|];
    simpl in Hstep; try (injection Hstep as <-);
    try (destruct (loops s !! j) as [lj|] eqn:Hj; [|done]; simpl in Hstep;
         destruct (pc lj) eqn:Hpcj; try done; injection Hstep as <-;
         pose proof (lookup_lt_Some _ _ _ Hj) as Hlt).
  - simpl. split; [done|]. split; [done|]. intros i H1 H2. done.
  - unfold_turns. destruct (decide (mode cfg = WORKER)); simpl; rewrite Hs;
      simpl; done.
  - split; [|split].
    + unfold_turns. repeat case_match; done.
    + unfold_turns. repeat case_match; done.
    + intros i. destruct (decide (i = j)) as [->|Hne].
      * unfold_turns. repeat case_match; simpl;
          rewrite list_lookup_insert_eq by done; simpl; done.
      * unfold_turns. repeat case_match; simpl;
          rewrite list_lookup_insert_ne by done; simpl; done.
  - split; [|split].
    + unfold_turns. repeat case_match; done.
    + unfold_turns. repeat case_match; done.
    + intros i. destruct (decide (i = j)) as [->|Hne].
      * unfold_turns. repeat case_match; simpl;
          rewrite list_lookup_insert_eq by done; simpl; done.
      * unfold_turns. repeat case_match; simpl;
          rewrite list_lookup_insert_ne by done; simpl; done.
  - unfold_turns. simpl. rewrite Hs. simpl. done.
  - unfold_turns. simpl. done.
Qed.

Lemma run_stopped cfg evs s s' :
  stopCallbackRetry s = true → run (step cfg) evs s = Some s' →
  stopCallbackRetry s' = true ∧ posts s' = posts s.
Proof.
  revert s. induction evs as [|e evs IH]; intros s Hs Hrun; simpl in Hrun.
  - by injection Hrun as <-.
  - destruct (step cfg e s) as [s1|] eqn:E; [|done].
    destruct (step_stopped _ _ _ _ Hs E) as (Hs1 & Hp1 & _).
    destruct (IH _ Hs1 Hrun) as [? ?]. split; [done|congruence].
Qed.


(** ** The timeout test *)

(** A failed POST of a loop without a should-retry function and without a
    deadline: timed out as soon as the time since the start plus the next
    delay is over the configured timeout. *)
Lemma posted_times_out cfg s i l e nextRetry now nowD nowE :
  loops s !! i = Some l → pc l = AwaitPost →
  is_max_size e = false → truthy_str (shouldRetryFnName (args l)) = false →
  truthy_num (deadline (args l)) = false →
  nowE - startTime l + nextRetry > callbackRetryTimeout cfg * 1000 →
  ∃ s', step cfg (Posted i (Failed e) nextRetry now nowD nowE) s = Some s' ∧
    pc_of i s' = Some (Returned TimedOut) ∧
    cacheDb s' = delete (cbId (args l)) (cacheDb s) ∧
    emitted s' =
      emitted s ++ [pendingCallbacksCountIs (pendingCallbacksCount s - 1);
                    callbackTimedOut].
Proof.
  intros Hi Hpc He Hfn Hd Hlate. eexists. simpl. rewrite Hi. simpl.
  rewrite Hpc. split; [done|].
  unfold posted, posted_rejected. simpl. rewrite He, Hfn, Hd. simpl.
  destruct (Z.gtb_spec (nowE - startTime l + nextRetry)
              (callbackRetryTimeout cfg * 1000)); [|lia].
  unfold pc_of. unfold_turns. simpl.
  rewrite list_lookup_insert_eq by by eapply lookup_lt_Some.
  by rewrite <- app_assoc.
Qed.

(** With a deadline that has passed, the elapsed time is not looked at:
    the loop goes to sleep for the next delay, whatever the time. *)
Lemma posted_past_deadline cfg s i l e d nextRetry now nowD nowE :
  loops s !! i = Some l → pc l = AwaitPost →
  is_max_size e = false → truthy_str (shouldRetryFnName (args l)) = false →
  deadline (args l) = Some d → d ≠ 0 → d ≤ nowD →
  ∃ s', step cfg (Posted i (Failed e) nextRetry now nowD nowE) s = Some s' ∧
    pc_of i s' = Some (AwaitWait nextRetry false) ∧
    cacheDb s' = cacheDb s ∧ emitted s' = emitted s.
Proof.
  intros Hi Hpc He Hfn Hd Hd0 Hlate. eexists. simpl. rewrite Hi. simpl.
  rewrite Hpc. split; [done|].
  unfold posted, posted_rejected. simpl. rewrite He, Hfn, Hd. simpl.
  destruct (Z.eqb_spec d 0); [done|]. simpl.
  destruct (Z.ltb_spec nowD d); [lia|]. simpl.
  unfold pc_of. unfold_turns. simpl.
  by rewrite list_lookup_insert_eq by by eapply lookup_lt_Some.
Qed.


(** ** The claims about callback delivery *)

(** C6: when the POST of a retry loop fails with a response body over the
    3 MiB limit (a [FetchError] of type [max-size]), the loop ends there:
    the saved record is removed, the response handler, if one was given, is
    called once with the error [BODY_TOO_LARGE], [callbackFail] is emitted,
    and the loop starts no further POST and takes no further turn. *)
Theorem C6_oversized_body_is_terminal cfg s i l r nextRetry now nowD nowE :
  loops s !! i = Some l → pc l = AwaitPost →
  httpPost r = inl (FetchError "max-size") →
  RESPONSE_BODY_SIZE_LIMIT = 3 * 1024 * 1024 ∧
  (∀ st size, RESPONSE_BODY_SIZE_LIMIT < size →
     httpPost (Answered st size) = inl (FetchError "max-size")) ∧
  ∃ s', step cfg (Posted i r nextRetry now nowD nowE) s = Some s' ∧
    cacheDb s' !! cbId (args l) = None ∧
    handled s' =
      handled s ++
      (if truthy_str (responseCallbackFnName (args l))
       then [{| fnName := default "" (responseCallbackFnName (args l));
                arg := WithError "BODY_TOO_LARGE";
                data := dataForResponseCallback (args l) |}]
       else []) ∧
    emitted s' =
      emitted s ++ [pendingCallbacksCountIs (pendingCallbacksCount s - 1);
                    callbackFail] ∧
    posts s' = posts s ∧
    over cfg i BodyTooLarge s'.
Proof.
  intros Hi Hpc Hr. split; [done|]. split; [apply httpPost_too_large|].
  assert (Hs : is_Some (step cfg (Posted i r nextRetry now nowD nowE) s)).
  { simpl. rewrite Hi. simpl. by rewrite Hpc. }
  destruct Hs as [s' Hs]. exists s'. split; [done|].
  destruct (posted_max_size _ _ _ _ _ _ _ _ _ _ Hi Hpc Hr Hs)
    as (Hpc' & Hdb & Hh & Hm & _ & Hp).
  split; [by rewrite Hdb, lookup_delete_eq|].
  repeat (split; [done|]). by apply returned_over.
Qed.

Lemma C6_oversized_body_is_terminal_witness :
  (loops (sample_state sample_args) !! 0%nat =
     Some {| args := sample_args; startTime := 0; pc := AwaitPost |} ∧
   pc {| args := sample_args; startTime := 0; pc := AwaitPost |} = AwaitPost ∧
   httpPost (Answered 200 4000000) = inl (FetchError "max-size")) ∧
  ∃ s', step sample_config (Posted 0 (Answered 200 4000000) 5000 10 10 10)
          (sample_state sample_args) = Some s' ∧
        cacheDb s' !! "cb-1" = None ∧
        over sample_config 0 BodyTooLarge s'.
Proof.
  assert (H1 : loops (sample_state sample_args) !! 0%nat =
     Some {| args := sample_args; startTime := 0; pc := AwaitPost |})
    by (vm_compute; reflexivity).
  assert (H2 : pc {| args := sample_args; startTime := 0; pc := AwaitPost |}
               = AwaitPost) by reflexivity.
  assert (H3 : httpPost (Answered 200 4000000) = inl (FetchError "max-size"))
    by (vm_compute; reflexivity).
  split; [exact (conj H1 (conj H2 H3))|].
  destruct (C6_oversized_body_is_terminal sample_config _ _ _ _ 5000 10 10 10
              H1 H2 H3) as (_ & _ & s' & Hs & Hdb & _ & _ & _ & Hover).
  exists s'. exact (conj Hs (conj Hdb Hover)).
Defined.

(** C7: when the should-retry function of a loop returns false after a
    failed POST, the loop ends there: the saved record is removed,
    [callbackFail] is emitted, and the loop starts no further POST and
    takes no further turn.  For a loop entered while the stop flag is down,
    whose first POST fails and whose function then returns false, that
    makes one POST in all. *)
Theorem C7_predicate_veto_is_terminal cfg evs s :
  run (step cfg) evs init = Some s →
  (∀ i l nextRetry,
     loops s !! i = Some l → pc l = AwaitShouldRetry nextRetry →
     ∃ s', step cfg (Decided i (Says false)) s = Some s' ∧
       cacheDb s' !! cbId (args l) = None ∧
       emitted s' =
         emitted s ++ [pendingCallbacksCountIs (pendingCallbacksCount s - 1);
                       callbackFail] ∧
       posts s' = posts s ∧
       over cfg i Vetoed s') ∧
  (∀ a now now' e nextRetry t tD tE,
     stopCallbackRetry s = false →
     truthy_str (shouldRetryFnName a) = true →
     is_max_size e = false →
     let i := length (loops s) in
     ∃ s', run (step cfg) [Call a now now';
                           Posted i (Failed e) nextRetry t tD tE;
                           Decided i (Says false)] s = Some s' ∧
       attempts i s' = 1%nat ∧
       cacheDb s' !! cbId a = None ∧
       over cfg i Vetoed s').
Proof.
  intros Hreach. split.
  - intros i l nextRetry Hi Hpc.
    destruct (decided_vetoes cfg _ _ _ _ Hi Hpc)
      as (s' & Hs & Hpc' & Hdb & Hm & _ & _ & Hp).
    exists s'. split; [done|]. split; [by rewrite Hdb, lookup_delete_eq|].
    repeat (split; [done|]). by apply returned_over.
  - intros a now now' e nextRetry t tD tE Hstop Hfn He i.
    destruct (call_enters cfg a now now' s Hstop) as (Hl1 & Hp1 & _ & _ & _).
    set (s1 := callbackWithRetry cfg a now now' s) in *.
    destruct (posted_asks cfg s1 i _ e nextRetry t tD tE Hl1 eq_refl He Hfn)
      as (s2 & Hs2 & Hl2 & Hp2 & _).
    destruct (decided_vetoes cfg s2 i _ nextRetry Hl2 eq_refl)
      as (s3 & Hs3 & Hpc3 & Hdb3 & _ & _ & _ & Hp3).
    exists s3. split; [|split; [|split]].
    + rewrite (run_cons _ _ _ _ s1) by done.
      rewrite (run_cons _ _ _ _ s2) by done.
      by rewrite (run_cons _ _ _ _ s3) by done.
    + unfold attempts. rewrite Hp3, Hp2, Hp1, attempts_snoc.
      pose proof (posts_bounded_fresh s (reachable_posts_bounded _ _ _ Hreach))
        as H0. unfold attempts in H0. fold i in H0 |- *. rewrite H0.
      by rewrite decide_True.
    + rewrite Hdb3. simpl. by rewrite lookup_delete_eq.
    + by apply returned_over.
Qed.

Lemma C7_predicate_veto_is_terminal_witness :
  run (step sample_config) [] init = Some init ∧
  ∃ s', run (step sample_config)
          [Call sample_args_predicate 0 0;
           Posted 0 (Failed (FetchError "system")) 5000 10 10 10;
           Decided 0 (Says false)] init = Some s' ∧
        attempts 0 s' = 1%nat ∧
        over sample_config 0 Vetoed s'.
Proof.
  split; [reflexivity|].
  destruct (C7_predicate_veto_is_terminal sample_config [] init eq_refl)
    as [_ H].
  destruct (H sample_args_predicate 0 0 (FetchError "system") 5000 10 10 10
              eq_refl eq_refl eq_refl) as (s' & Hs & Ha & _ & Ho).
  exists s'. exact (conj Hs (conj Ha Ho)).
Defined.

(** C9: when the should-retry function itself throws after a failed POST,
    the loop does what it does when the function returns true: it goes to
    sleep for the next delay, with the saved record and the counter as they
    were; when it wakes, and the stop flag is down, it starts the next
    POST. *)
Theorem C9_predicate_error_means_retry cfg s i l nextRetry :
  loops s !! i = Some l → pc l = AwaitShouldRetry nextRetry →
  step cfg (Decided i Throws) s = step cfg (Decided i (Says true)) s ∧
  ∃ s', step cfg (Decided i Throws) s = Some s' ∧
    pc_of i s' = Some (AwaitWait nextRetry false) ∧
    cacheDb s' = cacheDb s ∧
    pendingCallbacksCount s' = pendingCallbacksCount s ∧
    emitted s' = emitted s ∧
    posts s' = posts s ∧
    (stopCallbackRetry s = false →
     ∃ s'', step cfg (Woken i) s' = Some s'' ∧
       pc_of i s'' = Some AwaitPost ∧
       posts s'' = posts s ++ [i] ∧
       cacheDb s'' = cacheDb s).
Proof.
  intros Hi Hpc. split.
  { simpl. rewrite Hi. simpl. by rewrite Hpc. }
  destruct (decided_retries cfg _ _ _ _ Throws Hi Hpc (or_intror eq_refl))
    as (s' & Hs & Hl' & _ & Hdb & Hm & Hc & _ & Hp & Hstop).
  exists s'. split; [done|]. split; [by unfold pc_of; rewrite Hl'|].
  repeat (split; [done|]). intros Hdown.
  destruct (woken_spec cfg s' i _ nextRetry false Hl' eq_refl)
    as (s'' & Hs'' & Hpc'' & Hp'' & Hdb'' & _).
  rewrite Hstop, Hdown in Hpc'', Hp''.
  exists s''. repeat split; congruence.
Qed.

Lemma C9_predicate_error_means_retry_witness :
  let s := default init
             (run (step sample_config)
                [Call sample_args_predicate 0 0;
                 Posted 0 (Failed (FetchError "system")) 5000 10 10 10] init) in
  (loops s !! 0%nat =
     Some {| args := sample_args_predicate; startTime := 0;
             pc := AwaitShouldRetry 5000 |} ∧
   pc {| args := sample_args_predicate; startTime := 0;
         pc := AwaitShouldRetry 5000 |} = AwaitShouldRetry 5000) ∧
  ∃ s', step sample_config (Decided 0 Throws) s = Some s' ∧
        pc_of 0 s' = Some (AwaitWait 5000 false) ∧
        cacheDb s' = cacheDb s.
Proof.
  intros s.
  assert (H1 : loops s !! 0%nat =
     Some {| args := sample_args_predicate; startTime := 0;
             pc := AwaitShouldRetry 5000 |}) by (vm_compute; reflexivity).
  split; [exact (conj H1 eq_refl)|].
  destruct (C9_predicate_error_means_retry sample_config s 0 _ 5000 H1 eq_refl)
    as (_ & s' & Hs & Hpc & Hdb & _).
  exists s'. exact (conj Hs (conj Hpc Hdb)).
Defined.


(** C4, at a delivery with a deadline: a loop without a should-retry
    function is given the deadline 15000 and entered at time 0 on a node
    whose retry timeout is 10 s; its POST fails at time 20000 and the next
    delay is 5000.  The time since the start plus the next delay (25000) is
    over the timeout (10000) and the deadline has passed, and yet the loop
    does not time out: it keeps its saved record, emits no
    [callbackTimedOut], sleeps, and starts a second POST when it wakes. *)
Theorem C4_passed_deadline_keeps_retrying :
  let cfg := {| mode := MASTER; callbackRetryTimeout := 10 |} in
  let a := sample_args_deadline in
  20000 - 0 + 5000 > callbackRetryTimeout cfg * 1000 ∧
  deadline a = Some 15000 ∧
  ∃ s s',
    run (step cfg)
      (callbackToClient a 0 0 ++
       [Posted 0 (Failed (FetchError "system")) 5000 20000 20000 20000])
      init = Some s ∧
    pc_of 0 s = Some (AwaitWait 5000 false) ∧
    cacheDb s !! cbId a = Some a ∧
    emitted s = [pendingCallbacksCountIs 1] ∧
    step cfg (Woken 0) s = Some s' ∧
    pc_of 0 s' = Some AwaitPost ∧
    attempts 0 s' = 2%nat.
Proof.
  intros cfg a. split; [vm_compute; reflexivity|].
  split; [reflexivity|].
  set (s := default init (run (step cfg)
      (callbackToClient a 0 0 ++
       [Posted 0 (Failed (FetchError "system")) 5000 20000 20000 20000])
      init)).
  set (s' := default init (step cfg (Woken 0) s)).
  exists s, s'.
  repeat (split; [vm_compute; reflexivity|]). vm_compute; reflexivity.
Qed.

(** Calls made one after the other while the stop flag is down: each adds
    a loop that has started its first POST. *)
Lemma run_calls cfg now (l : list Args) s :
  stopCallbackRetry s = false →
  ∃ s', run (step cfg) ((λ a, Call a now now) <$> l) s = Some s' ∧
    loops s' =
      loops s ++ ((λ a, {| args := a; startTime := now; pc := AwaitPost |})
                    <$> l) ∧
    posts s' = posts s ++ seq (length (loops s)) (length l) ∧
    cacheDb s' = cacheDb s.
Proof.
  revert s. induction l as [|a l IH]; intros s Hs.
  - exists s. simpl. by rewrite !app_nil_r.
  - set (s1 := callbackWithRetry cfg a now now s).
    destruct (call_enters cfg a now now s Hs) as (Hl & Hp & Hdb & Hs1 & _).
    fold s1 in Hl, Hp, Hdb, Hs1.
    assert (Hloops : loops s1 = loops s ++ [{| args := a; startTime := now;
                                               pc := AwaitPost |}]).
    { unfold s1. unfold_turns.
      destruct (decide (mode cfg = WORKER)); simpl; rewrite Hs; simpl;
        apply list_insert_id, list_lookup_middle; done. }
    destruct (IH s1 Hs1) as (s' & Hrun & Hl' & Hp' & Hdb').
    exists s'. split; [|split; [|split]].
    + rewrite fmap_cons. by rewrite (run_cons _ _ _ _ s1).
    + rewrite Hl', Hloops, fmap_cons, <- app_assoc. done.
    + rewrite Hp', Hp, Hloops, length_app, <- app_assoc. simpl.
      by rewrite Nat.add_1_r.
    + congruence.
Qed.

(** After a restart, [resumeCallbackToClient] enters a loop for every
    record that is still saved, and the loop starts a POST. *)
Lemma resume_enters cfg now s id a :
  cacheDb s !! id = Some a →
  ∃ s' i,
    run (step cfg) (resumeCallbackToClient now (restart s)) (restart s)
      = Some s' ∧
    loops s' !! i = Some {| args := resumed (id, a); startTime := now;
                            pc := AwaitPost |} ∧
    i ∈ posts s'.
Proof.
  intros Ha. unfold resumeCallbackToClient.
  rewrite (list_fmap_compose resumed (λ a, Call a now now)).
  destruct (run_calls cfg now (resumed <$> map_to_list (cacheDb (restart s)))
              (restart s) eq_refl) as (s' & Hrun & Hl & Hp & _).
  assert (Hin : (id, a) ∈ map_to_list (cacheDb (restart s)))
    by by apply elem_of_map_to_list.
  apply list_elem_of_lookup in Hin as [i Hi].
  exists s', i. split; [done|].
  change (loops (restart s)) with (@nil Loop) in Hl, Hp.
  change (posts (restart s)) with (@nil nat) in Hp.
  rewrite app_nil_l in Hl, Hp. split.
  - rewrite Hl, !list_lookup_fmap, Hi. done.
  - rewrite Hp. apply elem_of_seq. rewrite !length_fmap.
    apply lookup_lt_Some in Hi. simpl in *. lia.
Qed.

(** C5: from any state the module can be in, [stopAllCallbackRetries]
    raises the flag and interrupts every sleep in flight, and leaves the
    saved records alone.  From then on the flag stays up and no loop starts
    a POST; a sleeping loop, when it resumes, returns at the top of the
    loop with the saved records and the counter as they were; in whatever
    turn a loop leaves by the flag, no saved record is removed; and after a
    restart [resumeCallbackToClient] enters, for every record still saved,
    a loop that starts a POST. *)
Theorem C5_stop_halts_every_retry cfg evs0 s0 :
  run (step cfg) evs0 init = Some s0 →
  let s := stopAllCallbackRetries s0 in
  step cfg StopAll s0 = Some s ∧
  stopCallbackRetry s = true ∧
  cacheDb s = cacheDb s0 ∧
  (∀ i n b, pc_of i s = Some (AwaitWait n b) → b = true) ∧
  ∀ evs s', run (step cfg) evs s = Some s' →
    stopCallbackRetry s' = true ∧
    posts s' = posts s0 ∧
    (∀ i l n b, loops s' !! i = Some l → pc l = AwaitWait n b →
       ∃ s'', step cfg (Woken i) s' = Some s'' ∧
         pc_of i s'' = Some (Returned Stopped) ∧
         cacheDb s'' = cacheDb s' ∧
         pendingCallbacksCount s'' = pendingCallbacksCount s') ∧
    (∀ e s'' i, step cfg e s' = Some s'' →
       pc_of i s'' = Some (Returned Stopped) →
       pc_of i s' ≠ Some (Returned Stopped) →
       cacheDb s'' = cacheDb s') ∧
    (∀ now id a, cacheDb s' !! id = Some a →
       ∃ r i,
         run (step cfg) (resumeCallbackToClient now (restart s')) (restart s')
           = Some r ∧
         loops r !! i = Some {| args := resumed (id, a); startTime := now;
                                pc := AwaitPost |} ∧
         i ∈ posts r).
Proof.
  intros Hreach s. split; [done|]. split; [done|]. split; [done|]. split.
  - intros i n b. unfold pc_of, s. simpl. intros Hpc.
    destruct (foldl stop (loops s0) (waitPromises s0) !! i) as [l'|] eqn:Hl';
      [|done]. injection Hpc as Hpc.
    assert (Hlt : (i < length (loops s0))%nat).
    { apply lookup_lt_Some in Hl'. by rewrite foldl_stop_length in Hl'. }
    destruct (lookup_lt_is_Some_2 _ _ Hlt) as [l0 Hl0].
    destruct (foldl_stop_lookup (waitPromises s0) _ _ _ Hl0)
      as [H|(n0 & b0 & Hpc0 & H)]; rewrite H in Hl'; injection Hl' as <-.
    + pose proof (reachable_sleeps_tracked _ _ _ Hreach i l0 n b Hl0 Hpc)
        as Hin.
      rewrite (foldl_stop_marks _ _ _ _ _ _ Hin Hl0 Hpc) in H.
      injection H as H. rewrite <- H in Hpc. simpl in Hpc. congruence.
    + simpl in Hpc. congruence.
  - intros evs s' Hrun.
    destruct (run_stopped cfg evs s s' eq_refl Hrun) as [Hs' Hp'].
    split; [done|]. split; [done|]. split; [|split].
    + intros i l n b Hi Hpc.
      destruct (woken_spec cfg s' i l n b Hi Hpc)
        as (s'' & Hs'' & Hpc'' & _ & Hdb & _ & _ & Hc).
      rewrite Hs' in Hpc''. eauto.
    + intros e s'' i Hstep H1 H2.
      by destruct (step_stopped _ _ _ _ Hs' Hstep) as (_ & _ & H); eapply H.
    + intros now id a. apply resume_enters.
Qed.

Lemma C5_stop_halts_every_retry_witness :
  let evs0 := callbackToClient sample_args 0 0 ++
              [Posted 0 (Failed (FetchError "system")) 5000 10 10 10] in
  let s0 := default init (run (step sample_config) evs0 init) in
  run (step sample_config) evs0 init = Some s0 ∧
  pc_of 0 s0 = Some (AwaitWait 5000 false) ∧
  pc_of 0 (stopAllCallbackRetries s0) = Some (AwaitWait 5000 true) ∧
  ∀ evs s', run (step sample_config) evs (stopAllCallbackRetries s0) = Some s' →
    stopCallbackRetry s' = true ∧ posts s' = posts s0.
Proof.
  intros evs0 s0.
  assert (H : run (step sample_config) evs0 init = Some s0)
    by (vm_compute; reflexivity).
  split; [exact H|]. split; [vm_compute; reflexivity|].
  split; [vm_compute; reflexivity|].
  intros evs s' Hrun.
  destruct (C5_stop_halts_every_retry sample_config evs0 s0 H)
    as (_ & _ & _ & _ & Hafter).
  destruct (Hafter evs s' Hrun) as (Hup & Hposts & _).
  exact (conj Hup Hposts).
Defined.

(** C10: in every state the module can be in, [pendingCallbacksCount] is
    the number of loops entered that have not ended with one of the four
    terminal outcomes: a turn adds one when it is a call of
    [callbackWithRetry], and takes one off when the loop whose turn it is
    ends with a terminal outcome.  A loop that left by the stop flag is
    never taken off: it stays as it is, the counter never goes below the
    number of such loops, and is that number once every loop has
    returned. *)
Theorem C10_pending_callbacks_count cfg evs s :
  run (step cfg) evs init = Some s →
  pendingCallbacksCount s = pending (loops s) ∧
  (∀ e s', step cfg e s = Some s' →
     pendingCallbacksCount s' =
     pendingCallbacksCount s
     + (match e with Call _ _ _ => 1 | _ => 0 end)
     - (match target e with
        | Some i => if terminal (pc_of i s') then 1 else 0
        | None => 0
        end)) ∧
  (∀ i, pc_of i s = Some (Returned Stopped) → over cfg i Stopped s) ∧
  halted_loops (loops s) ≤ pendingCallbacksCount s ∧
  (forallb has_returned (loops s) = true →
   pendingCallbacksCount s = halted_loops (loops s)).
Proof.
  intros Hreach. pose proof (reachable_counter _ _ _ Hreach) as Hc.
  split; [done|]. split; [intros e s'; apply step_counter_delta|].
  split; [intros i; apply returned_over|]. rewrite Hc. split.
  - apply total_le. intros l. apply halted_le_counts.
  - intros Hall. apply total_ext_Forall.
    rewrite forallb_forall in Hall. apply Forall_forall.
    intros l Hl. apply list_elem_of_In in Hl. specialize (Hall l Hl).
    unfold has_returned in Hall.
    unfold counts, halted. by repeat case_match.
Qed.

Lemma C10_pending_callbacks_count_witness :
  let evs := [Call sample_args 0 0; Call sample_args_predicate 1 1;
              Posted 0 (Answered 200 2) 5000 10 10 10;
              Posted 1 (Failed (FetchError "system")) 5000 10 10 10;
              Decided 1 (Says true); StopAll; Woken 1] in
  let s := default init (run (step sample_config) evs init) in
  run (step sample_config) evs init = Some s ∧
  (pc <$> loops s) = [Returned Delivered; Returned Stopped] ∧
  pendingCallbacksCount s = 1 ∧
  pendingCallbacksCount s = halted_loops (loops s).
Proof.
  intros evs s.
  assert (H : run (step sample_config) evs init = Some s)
    by (vm_compute; reflexivity).
  split; [exact H|]. split; [vm_compute; reflexivity|].
  split; [vm_compute; reflexivity|].
  destruct (C10_pending_callbacks_count sample_config evs s H)
    as (_ & _ & _ & _ & Hall).
  apply Hall. vm_compute; reflexivity.
Defined.

End CallbackTheory.

(** * The task queue: order and mutual exclusion per key *)
Module QueueTheory.
Import Queue.

(** ** Reading traces *)

Lemma pushed_snoc k tr o :
  pushed k (tr ++ [o]) =
  pushed k tr ++ match o with
                 | Pushed k' t => if decide (k' = k) then [t] else []
                 | _ => []
                 end.
Proof.
  unfold pushed. rewrite omap_app. f_equal.
  destruct o; simpl; try done; by case_decide.
Qed.

Lemma started_snoc k tr o :
  started k (tr ++ [o]) =
  started k tr ++ match o with
                  | Started k' t => if decide (k' = k) then [t] else []
                  | _ => []
                  end.
Proof.
  unfold started. rewrite omap_app. f_equal.
  destruct o; simpl; try done; by case_decide.
Qed.


Lemma serial_snoc k tr o :
  serial k (tr ++ [o]) = serial_step k (serial k tr) o.
Proof. unfold serial. by rewrite foldl_app. Qed.



(** ** Counting the tasks that execute *)

Lemma is_running_range k j : 0 ≤ is_running k j ≤ 1.
Proof. unfold is_running. case_match; lia. Qed.

Lemma is_running_with_job k r p j :
  is_running k (with_job (job_running j) r p j) = is_running k j.
Proof. done. Qed.

Lemma is_running_resolve k k' j : is_running k (resolve k' j) = is_running k j.
Proof. unfold resolve. by case_match. Qed.

Lemma job_task_resolve k' j : job_task (resolve k' j) = job_task j.
Proof. unfold resolve. by case_match. Qed.

Lemma running_count_nonneg k s : 0 ≤ running_count k s.
Proof. apply total_nonneg. intros j. apply is_running_range. Qed.


(** ** The invariant is kept by every turn *)

Ltac unfold_queue :=
  unfold addTaskToQueue, addTaskToQueue_persisted, executeTaskInQueue,
    executeTaskInQueue_removed, onTaskExecutionCallback,
    onTaskExecutionFinished, onTaskExecutionSuccess, onTaskExecutionFail,
    removePersistentQueueEmitter_emit, dispatch, cleanUpQueue, setImmediate,
    addTaskToPersistentQueue, removeFirstTaskFromPersistentQueue,
    incrementPendingTasksInQueueCount, decrementPendingTasksInQueueCount,
    incrementProcessingTasksCount, decrementProcessingTasksCount,
    incrementRequestsInQueueCount, decrementRequestsInQueueCount,
    notifyTaskPendingTime, notifyTaskProcessTime, notifyTaskProcessFail in *.

(** A turn that leaves the jobs, the trace and the running marks alone,
    and the queue of the key as it is, keeps the invariant. *)
Lemma inv_frame mode k l0 s s' :
  jobs s' = jobs s → trace s' = trace s →
  requestQueueRunning s' = requestQueueRunning s →
  queued k s' = queued k s →
  inv mode k l0 s → inv mode k l0 s'.
Proof.
  intros Hj Ht Hr Hq [H1 H2 H3 H4 H5].
  split; unfold running_count in *; rewrite ?Hj, ?Ht, ?Hr, ?Hq; done.
Qed.

Lemma add_inv mode k l0 s k' t :
  inv mode k l0 s → inv mode k l0 (addTaskToQueue k' t s).
Proof.
  unfold addTaskToQueue.
  destruct (requestQueue s !! k') as [q|] eqn:Hq;
    [|destruct (inherited k')]; apply inv_frame; try done.
  unfold queued. simpl. destruct (decide (k' = k)) as [->|Hne].
  - by rewrite lookup_insert_eq, Hq.
  - by rewrite lookup_insert_ne.
Qed.

Lemma persisted_inv mode k l0 s n a :
  inv mode k l0 s → inv mode k l0 (addTaskToQueue_persisted n a s).
Proof.
  intros Hinv. unfold addTaskToQueue_persisted. simpl.
  destruct (requestQueue s !! add_requestId a) as [q|] eqn:Hq.
  - destruct Hinv as [H1 H2 (c & H3 & H3' & H3'') H4 H5].
    split; unfold running_count, queued in *; simpl.
    + done.
    + done.
    + exists c. rewrite serial_snoc, H3. done.
    + rewrite started_snoc, pushed_snoc, app_nil_r.
      case_decide; [done|]. rewrite app_assoc, H4.
      case_decide as Hk.
      * subst k. rewrite lookup_insert_eq. simpl.
        rewrite Hq. simpl. by rewrite app_assoc.
      * rewrite lookup_insert_ne by done. by rewrite !app_nil_r.
    + by rewrite started_snoc, app_nil_r.
  - revert Hinv. by apply inv_frame.
Qed.


Lemma serial_step_other k c k' t :
  k' ≠ k →
  serial_step k (Some c) (Started k' t) = Some c ∧
  serial_step k (Some c) (Finished k' t) = Some c.
Proof. intros Hne. simpl. by rewrite !decide_False. Qed.

Lemma is_running_new k k' t now p :
  is_running k {| job_requestId := k'; job_task := t; job_startTime := now;
                  job_running := true; job_removing := true;
                  job_promise := p |} = if decide (k' = k) then 1 else 0.
Proof.
  unfold is_running. simpl. case_bool_decide; by case_decide.
Qed.

(** The task at the head of a queue is started: the key is marked, the
    job is added, [Started] is observed. *)
Lemma truthy_at_false o k :
  truthy_at o k = false →
  o !! k ≠ Some true ∧ (o !! k = None → inherited k = false).
Proof.
  unfold truthy_at. destruct (o !! k) as [[]|]; naive_solver.
Qed.

Lemma dispatch_inv mode k l0 s k' t rest now p s' :
  mode ≠ WORKER →
  truthy_at (requestQueueRunning s) k' = false →
  requestQueue s !! k' = Some (t :: rest) →
  jobs s' = jobs s ++ [{| job_requestId := k'; job_task := t;
                          job_startTime := now; job_running := true;
                          job_removing := true; job_promise := p |}] →
  trace s' = trace s ++ [Started k' t] →
  requestQueueRunning s' = <[k' := true]> (requestQueueRunning s) →
  requestQueue s' = <[k' := rest]> (requestQueue s) →
  inv mode k l0 s → inv mode k l0 s'.
Proof.
  intros Hmode Hflag Hq Hj Ht Hr Hq' [H1 H2 (c & H3 & H3' & H3'') H4 H5].
  apply truthy_at_false in Hflag as [Hflag Hinh].
  pose proof (running_count_nonneg k s) as H0.
  unfold running_count, queued in *.
  destruct (decide (k' = k)) as [->|Hne].
  - assert (Hz : total (is_running k) (jobs s) = 0).
    { destruct (decide (total (is_running k) (jobs s) = 1)) as [E|E];
        [by apply H2 in E|lia]. }
    specialize (H3' Hz). subst c.
    split; unfold running_count, queued; rewrite ?Hj, ?Ht, ?Hr, ?Hq'.
    + rewrite total_snoc, is_running_new, decide_True by done. lia.
    + intros _. by rewrite lookup_insert_eq.
    + exists (Some t). rewrite serial_snoc, H3. simpl.
      rewrite decide_True by done. split; [done|]. split.
      * rewrite total_snoc, is_running_new, decide_True by done. lia.
      * apply Forall_app. split; [|by apply Forall_singleton].
        apply total_zero_Forall in Hz; [|intros; apply is_running_range].
        eapply Forall_impl; [exact Hz|]. simpl. intros j E1 E2. lia.
    + rewrite decide_False in * by done.
      rewrite started_snoc, pushed_snoc. simpl.
      rewrite app_nil_r, decide_True by done.
      rewrite H4, Hq, lookup_insert_eq. simpl. by rewrite <- app_assoc.
    + intros Hk. destruct (H5 Hk) as [Hnone _].
      specialize (Hinh Hnone). congruence.
  - split; unfold running_count, queued; rewrite ?Hj, ?Ht, ?Hr, ?Hq'.
    + rewrite total_snoc, is_running_new, decide_False by done. lia.
    + rewrite total_snoc, is_running_new, decide_False by done.
      rewrite lookup_insert_ne by done. rewrite Z.add_0_r. done.
    + exists c. rewrite serial_snoc, H3.
      split; [by apply serial_step_other|]. split.
      * rewrite total_snoc, is_running_new, decide_False by done.
        rewrite Z.add_0_r. done.
      * apply Forall_app. split; [done|]. apply Forall_singleton.
        rewrite is_running_new, decide_False by done. lia.
    + rewrite decide_False in * by done.
      rewrite started_snoc, pushed_snoc. simpl.
      rewrite app_nil_r, decide_False by done.
      rewrite lookup_insert_ne by done. by rewrite app_nil_r.
    + intros Hk. destruct (H5 Hk) as [Hnone Hst].
      rewrite lookup_insert_ne by done.
      rewrite started_snoc, decide_False, app_nil_r by done. done.
Qed.

Lemma execute_inv mode k l0 s k' now now' :
  inv mode k l0 s → inv mode k l0 (executeTaskInQueue mode k' now now' s).
Proof.
  intros Hinv. unfold executeTaskInQueue.
  destruct (truthy_at (requestQueueRunning s) k') eqn:Hflag; [done|].
  destruct (requestQueue s !! k') as [[|t rest]|] eqn:Hq; [| |done].
  - revert Hinv. apply inv_frame; try done.
    unfold queued. simpl. destruct (decide (k' = k)) as [->|Hne].
    + by rewrite lookup_delete_eq, Hq.
    + by rewrite lookup_delete_ne.
  - destruct mode.
    + revert Hinv. eapply dispatch_inv; try done.
    + revert Hinv. eapply dispatch_inv; try done.
    + destruct Hinv as [H1 H2 H3 H4 H5].
      apply truthy_at_false in Hflag as [Hflag Hinh]. split; try done.
      * unfold running_count. simpl. intros E.
        destruct (decide (k' = k)) as [->|Hne].
        -- by rewrite lookup_insert_eq.
        -- rewrite lookup_insert_ne by done. by apply H2.
      * simpl. intros Hk. destruct (H5 Hk) as [Hnone Hst].
        split; [|done]. destruct (decide (k' = k)) as [->|Hne].
        -- specialize (Hinh Hnone). congruence.
        -- by rewrite lookup_insert_ne.
Qed.


Lemma queue_removed_inv mode k l0 s n j :
  jobs s !! n = Some j →
  inv mode k l0 s → inv mode k l0 (executeTaskInQueue_removed n j s).
Proof.
  intros Hn [H1 H2 (c & H3 & H3' & H3'') H4 H5].
  assert (Hc : running_count k (executeTaskInQueue_removed n j s)
               = running_count k s).
  { unfold running_count. simpl. rewrite total_fmap.
    rewrite (total_ext _ (is_running k))
      by (intros; apply is_running_resolve).
    rewrite (total_insert _ _ _ _ _ Hn), is_running_with_job. lia. }
  split; rewrite ?Hc; try done.
  exists c. split; [done|]. split; [done|]. simpl.
  apply Forall_fmap. apply Forall_insert.
  - eapply Forall_impl; [exact H3''|]. simpl. intros j'.
    by rewrite is_running_resolve, job_task_resolve.
  - simpl. rewrite is_running_resolve, job_task_resolve, is_running_with_job.
    simpl. by apply (Forall_lookup_1 _ _ _ _ H3'' Hn).
Qed.

(** A task ends: its job stops running, [Finished] is observed, the mark
    of the key is taken off. *)
Lemma finished_inv mode k l0 s n j p s' :
  jobs s !! n = Some j → job_running j = true →
  jobs s' = <[n := with_job false (job_removing j) p j]> (jobs s) →
  trace s' = trace s ++ [Finished (job_requestId j) (job_task j)] →
  requestQueueRunning s' = delete (job_requestId j) (requestQueueRunning s) →
  queued k s' = queued k s →
  inv mode k l0 s → inv mode k l0 s'.
Proof.
  intros Hn Hrun Hj Ht Hr Hq [H1 H2 (c & H3 & H3' & H3'') H4 H5].
  pose proof (running_count_nonneg k s') as H0.
  unfold running_count in *.
  assert (Hw : is_running k (with_job false (job_removing j) p j) = 0) by done.
  pose proof (total_insert (is_running k) _ n
                (with_job false (job_removing j) p j) _ Hn) as Hc.
  rewrite Hw in Hc. rewrite <- Hj in Hc.
  destruct (decide (job_requestId j = k)) as [Hk|Hne].
  - assert (Hwj : is_running k j = 1).
    { unfold is_running. by rewrite Hrun, bool_decide_true. }
    rewrite Hwj in Hc.
    assert (Hz : total (is_running k) (jobs s') = 0) by lia.
    pose proof (Forall_lookup_1 _ _ _ _ H3'' Hn Hwj) as ->.
    split; unfold running_count; rewrite ?Ht, ?Hr, ?Hq.
    + lia.
    + lia.
    + exists None. rewrite serial_snoc, H3. simpl.
      rewrite !decide_True by done. split; [done|]. split; [done|].
      apply total_zero_Forall in Hz; [|intros; apply is_running_range].
      eapply Forall_impl; [exact Hz|]. simpl. intros j' E1 E2. lia.
    + rewrite started_snoc, pushed_snoc. simpl. by rewrite !app_nil_r.
    + intros Hk'. destruct (H5 Hk') as [Hnone Hst].
      rewrite started_snoc, app_nil_r. split; [|done].
      rewrite Hk. apply lookup_delete_eq.
  - assert (Hwj : is_running k j = 0).
    { unfold is_running. rewrite bool_decide_false by done.
      by rewrite andb_false_r. }
    rewrite Hwj in Hc.
    split; unfold running_count; rewrite ?Ht, ?Hr, ?Hq.
    + lia.
    + rewrite lookup_delete_ne by done. intros E. apply H2. lia.
    + exists c. rewrite serial_snoc, H3.
      split; [by apply serial_step_other|]. split.
      * intros E. apply H3'. lia.
      * rewrite Hj. apply Forall_insert; [done|]. rewrite Hw. lia.
    + rewrite started_snoc, pushed_snoc. simpl. by rewrite !app_nil_r.
    + intros Hk'. destruct (H5 Hk') as [Hnone Hst].
      rewrite started_snoc, app_nil_r. split; [|done].
      by rewrite lookup_delete_ne.
Qed.

Lemma done_inv mode k l0 s n j ok now :
  jobs s !! n = Some j → job_running j = true →
  inv mode k l0 s → inv mode k l0 (onTaskExecutionCallback n j ok now s).
Proof.
  intros Hn Hrun.
  assert (Hdel : ∀ q : gmap string (list Task),
            q !! job_requestId j = Some [] ∨ q !! job_requestId j = None →
            default [] (delete (job_requestId j) q !! k) = default [] (q !! k)).
  { intros q Hq. destruct (decide (job_requestId j = k)) as [<-|Hne].
    - rewrite lookup_delete_eq. by destruct Hq as [->| ->].
    - by rewrite lookup_delete_ne. }
  unfold onTaskExecutionCallback, onTaskExecutionFinished.
  destruct ok; simpl;
    (destruct (requestQueue s !! job_requestId j) as [[|t q]|] eqn:Hq;
     [|destruct (job_promise j)
      |destruct (inherited (job_requestId j));
       [destruct (inherited_nullary (job_requestId j));
        [|destruct (job_promise j)]|]]);
    eapply finished_inv; try done; unfold queued; simpl; apply Hdel; eauto.
Qed.

(** ** The start-up recovery *)

Lemma increments_frame (tasks : list Task) s :
  let s' := foldl (λ s _, incrementPendingTasksInQueueCount s) s tasks in
  requestQueue s' = requestQueue s ∧
  requestQueueRunning s' = requestQueueRunning s ∧
  pendingTasksInQueueCount s'
  = pendingTasksInQueueCount s + Z.of_nat (length tasks) ∧
  processingTasksCount s' = processingTasksCount s ∧
  requestsInQueueCount s' = requestsInQueueCount s ∧
  adds s' = adds s ∧ jobs s' = jobs s ∧ trace s' = trace s.
Proof.
  revert s. induction tasks as [|t tasks IH]; intros s; simpl.
  - repeat split; lia.
  - destruct (IH (incrementPendingTasksInQueueCount s))
      as (-> & -> & -> & -> & -> & -> & -> & ->).
    simpl. repeat split; lia.
Qed.

Lemma restore_frame l s :
  let s' := restoreTaskFromPersistentQueue l s in
  requestQueue s'
  = foldl (λ m entry, <[entry.1 := entry.2]> m) (requestQueue s) l ∧
  requestQueueRunning s' = requestQueueRunning s ∧
  pendingTasksInQueueCount s'
  = pendingTasksInQueueCount s
    + total (λ entry, Z.of_nat (length entry.2)) l ∧
  processingTasksCount s' = processingTasksCount s ∧
  requestsInQueueCount s' = requestsInQueueCount s ∧
  adds s' = adds s ∧ jobs s' = jobs s ∧ trace s' = trace s.
Proof.
  unfold restoreTaskFromPersistentQueue.
  revert s. induction l as [|[k q] l IH]; intros s; simpl.
  - rewrite total_nil. repeat split; lia.
  - destruct (IH (restoreTask s (k, q)))
      as (-> & -> & -> & -> & -> & -> & -> & ->).
    unfold restoreTask, setImmediate. simpl.
    destruct (increments_frame q
                (set_requestQueue (<[k:=q]> (requestQueue s)) s))
      as (-> & -> & -> & -> & -> & -> & -> & ->).
    simpl. rewrite total_cons. simpl. repeat split; lia.
Qed.

Lemma tasks_of_cons k k' q (l : list (string * list Task)) :
  tasks_of k ((k', q) :: l)
  = (if decide (k' = k) then q else []) ++ tasks_of k l.
Proof.
  unfold tasks_of. case_decide.
  - by rewrite filter_cons_True by done.
  - by rewrite filter_cons_False by done.
Qed.

Lemma tasks_of_absent k (l : list (string * list Task)) :
  k ∉ l.*1 → tasks_of k l = [].
Proof.
  induction l as [|[k' q] l IH]; [done|].
  rewrite fmap_cons, not_elem_of_cons. simpl. intros [Hne Hl].
  rewrite tasks_of_cons, decide_False by congruence. by apply IH.
Qed.

Lemma restore_absent k (l : list (string * list Task))
    (m : gmap string (list Task)) :
  k ∉ l.*1 →
  foldl (λ m entry, <[entry.1 := entry.2]> m) m l !! k = m !! k.
Proof.
  revert m. induction l as [|[k' q] l IH]; intros m; [done|].
  rewrite fmap_cons, not_elem_of_cons. simpl. intros [Hne Hl].
  rewrite IH by done. by rewrite lookup_insert_ne.
Qed.

Lemma restore_queued k (l : list (string * list Task))
    (m : gmap string (list Task)) :
  NoDup l.*1 → m !! k = None →
  default [] (foldl (λ m entry, <[entry.1 := entry.2]> m) m l !! k)
  = tasks_of k l.
Proof.
  revert m. induction l as [|[k' q] l IH]; intros m Hnd Hm.
  - simpl. by rewrite Hm.
  - rewrite fmap_cons in Hnd. apply NoDup_cons in Hnd as [Hk' Hnd].
    simpl in *. rewrite tasks_of_cons.
    destruct (decide (k' = k)) as [->|Hne].
    + rewrite restore_absent by done. rewrite lookup_insert_eq.
      rewrite tasks_of_absent by done. by rewrite app_nil_r.
    + apply IH; [done|]. by rewrite lookup_insert_ne.
Qed.

Lemma restore_inv mode k l :
  NoDup l.*1 →
  inv mode k (tasks_of k l)
      (restoreTaskFromPersistentQueue l
         (set_persistentQueue (list_to_map l) init)).
Proof.
  intros Hnd.
  destruct (restore_frame l (set_persistentQueue (list_to_map l) init))
    as (Hq & Hr & _ & _ & _ & _ & Hj & Ht).
  split; unfold running_count, queued; rewrite ?Hq, ?Hr, ?Hj, ?Ht; simpl.
  - done.
  - done.
  - exists None. split; [done|]. split; [done|]. constructor.
  - case_decide; [done|]. rewrite app_nil_r.
    by rewrite restore_queued.
  - done.
Qed.

Lemma queue_step_inv mode k l0 e s s' :
  inv mode k l0 s → step mode e s = Some s' →
  inv mode k (l0 ++ match e with
                    | Restore l => tasks_of k l
                    | _ => []
                    end) s'.
Proof.
  intros Hinv Hstep. destruct e as [l|k' t|n|now now'|n|n ok now];
    simpl in Hstep; rewrite ?app_nil_r.
  - case_decide as Hrec; [|done]. injection Hstep as <-.
    destruct Hrec as (-> & Hnd & _).
    pose proof (restore_inv mode k l Hnd) as Hnew.
    destruct (decide (mode = WORKER)) as [Hm|Hm].
    + destruct Hnew as [N1 N2 N3 N4 N5]. split; try done.
      by rewrite decide_True in * by done.
    + destruct Hinv as [_ _ _ H4 _]. rewrite decide_False in H4 by done.
      simpl in H4. rewrite app_nil_r in H4. by subst l0.
  - injection Hstep as <-. by apply add_inv.
  - destruct (adds s !! n) as [a|]; [|done]. simpl in Hstep.
    destruct (add_awaiting a); [|done]. injection Hstep as <-.
    by apply persisted_inv.
  - destruct (immediates s) as [|k' rest]; [done|]. injection Hstep as <-.
    apply execute_inv. revert Hinv. by apply inv_frame.
  - destruct (jobs s !! n) as [j|] eqn:Hn; [|done]. simpl in Hstep.
    destruct (job_removing j); [|done]. injection Hstep as <-.
    by apply queue_removed_inv.
  - destruct (jobs s !! n) as [j|] eqn:Hn; [|done]. simpl in Hstep.
    destruct (job_running j) eqn:Hrun; [|done]. injection Hstep as <-.
    by apply done_inv.
Qed.

Lemma queue_init_inv mode k : inv mode k [] init.
Proof.
  split; try done.
  - exists None. split; [done|]. split; [done|]. constructor.
  - by case_decide.
Qed.



(** ** Keys run side by side *)





(** ** The order of the calls *)









(** Without that order of the acknowledgements the pushes can follow another
    order than the calls: here the second call resumes first, and its task
    is the first to be started. *)
Lemma resumed_out_of_order :
  let T1 := sample_task "m1" 0 in
  let T2 := sample_task "m2" 1 in
  let evs := [Add "req-1" T1; Add "req-1" T2; Persisted 1; Persisted 0;
              Immediate 2 2; Immediate 2 2; Done 0 true 200; Removed 0;
              Immediate 201 201; Removed 1; Done 1 true 250] in
  in_order evs = false ∧
  ∃ s, run (step STANDALONE) evs init = Some s ∧
       called "req-1" s = [T1; T2] ∧
       started "req-1" (trace s) = [T2; T1].
Proof.
  intros T1 T2 evs. split; [vm_compute; reflexivity|].
  eexists. split; [vm_compute; reflexivity|].
  split; vm_compute; reflexivity.
Qed.


(** ** The claims about the task queue *)



(** C8, at a task that completes while another is being added: in
    standalone mode a first task of a key is started; [addTaskToQueue] is
    called for a second one and waits for the persistent queue; the first
    task ends.  Its completion finds the queue of the key empty, deletes it
    and counts it off, while the record of the second task is in the
    persistent queue.  When [addTaskToQueue] resumes, its [push] throws:
    the second task is never queued nor started, nothing is left to do, and
    its record stays in the persistent queue of a key that has no queue. *)
Theorem C8_record_left_after_queue_is_deleted :
  let k := "req-1" in
  let T1 := sample_task "m1" 0 in
  let T2 := sample_task "m2" 3 in
  ∃ s s',
    run (step STANDALONE)
      [Add k T1; Persisted 0; Immediate 1 1; Removed 0; Add k T2;
       Done 0 true 5] init = Some s ∧
    finished k (trace s) = [T1] ∧
    requestQueue s !! k = None ∧
    requestsInQueueCount s = 0 ∧
    persisted k s = [T2] ∧
    step STANDALONE (Persisted 1) s = Some s' ∧
    idle s' = true ∧
    requestQueue s' !! k = None ∧
    pushed k (trace s') = [T1] ∧
    started k (trace s') = [T1] ∧
    persisted k s' = [T2].
Proof.
  intros k T1 T2.
  set (s := default init (run (step STANDALONE)
      [Add k T1; Persisted 0; Immediate 1 1; Removed 0; Add k T2;
       Done 0 true 5] init)).
  set (s' := default init (step STANDALONE (Persisted 1) s)).
  exists s, s'.
  repeat (split; [vm_compute; reflexivity|]). vm_compute; reflexivity.
Qed.

End QueueTheory.

(** * The block gate: a deferred message is admitted once *)
Module GateTheory.
Import Gate.

(** ** Counting *)

Lemma holds_id_range mid w : 0 ≤ holds_id mid w ≤ 1.
Proof. unfold holds_id. case_match; lia. Qed.

Lemma will_admit_range mid l : 0 ≤ will_admit mid l ≤ 1.
Proof. unfold will_admit. case_match; lia. Qed.

Lemma is_admission_range mid a : 0 ≤ is_admission mid a ≤ 1.
Proof. unfold is_admission. case_decide; lia. Qed.

Lemma is_arrival_range mid a : 0 ≤ is_arrival mid a ≤ 1.
Proof. unfold is_arrival. case_decide; lia. Qed.

Lemma view_nonneg mid s :
  0 ≤ v_sweeps (view mid s) ∧ 0 ≤ v_lookups (view mid s) ∧
  0 ≤ v_admitted (view mid s).
Proof.
  simpl. unfold admitted. repeat split; apply total_nonneg; intros x.
  - apply holds_id_range.
  - apply will_admit_range.
  - apply is_admission_range.
Qed.


(** ** One arrival per message *)

Lemma sole_unique mid msg s i j a a' :
  sole mid msg s →
  arrivals s !! i = Some a → arrivals s !! j = Some a' →
  arr_messageId a = mid → arr_messageId a' = mid → i = j.
Proof.
  intros [Hle _] Hi Hj Ha Ha'. destruct (decide (i = j)) as [|Hne]; [done|].
  pose proof (total_two (is_arrival mid) _ _ _ _ _
                (λ z, proj1 (is_arrival_range mid z)) Hi Hj Hne) as H.
  assert (is_arrival mid a = 1) by (unfold is_arrival; by rewrite decide_True).
  assert (is_arrival mid a' = 1)
    by (unfold is_arrival; by rewrite decide_True).
  unfold arrived in Hle. lia.
Qed.

Lemma sole_message mid msg s i a :
  sole mid msg s → arrivals s !! i = Some a → arr_messageId a = mid →
  arr_message a = msg.
Proof.
  intros [_ Hall] Hi Ha. by apply (Forall_lookup_1 _ _ _ _ Hall Hi).
Qed.

(** A call that moves on keeps the arrivals what they are. *)
Lemma sole_goto mid msg s s' i a p :
  arrivals s !! i = Some a →
  arrivals s' = <[i := with_arr_pc p a]> (arrivals s) →
  sole mid msg s ↔ sole mid msg s'.
Proof.
  intros Hi Hs'. unfold sole, arrived. rewrite Hs'.
  rewrite (total_insert _ _ _ _ _ Hi).
  replace (is_arrival mid (with_arr_pc p a)) with (is_arrival mid a) by done.
  assert (Hfa : Forall (λ a0, arr_messageId a0 = mid → arr_message a0 = msg)
                  (<[i:=with_arr_pc p a]> (arrivals s)) ↔
                Forall (λ a0, arr_messageId a0 = mid → arr_message a0 = msg)
                  (arrivals s)).
  { split; intros H.
    - apply Forall_lookup. intros j a' Hj.
      destruct (decide (j = i)) as [->|Hne].
      + rewrite Hi in Hj. injection Hj as <-.
        apply (Forall_lookup_1 _ _ i (with_arr_pc p a) H).
        rewrite list_lookup_insert_eq; [done|]. by eapply lookup_lt_Some.
      + apply (Forall_lookup_1 _ _ j a' H).
        by rewrite list_lookup_insert_ne.
    - apply Forall_insert; [done|]. simpl.
      apply (Forall_lookup_1 _ _ _ _ H Hi). }
  rewrite Hfa. split; intros [? ?]; split; (lia || done).
Qed.

Lemma sole_snoc mid msg s s' a :
  arrivals s' = arrivals s ++ [a] →
  sole mid msg s' →
  sole mid msg s ∧
  (arr_messageId a = mid → arrived mid s = 0 ∧ arr_message a = msg).
Proof.
  unfold sole, arrived. intros ->. rewrite total_snoc.
  intros [Hle Hall]. apply Forall_app in Hall as [Hall Ha].
  rewrite Forall_singleton in Ha.
  pose proof (total_nonneg (is_arrival mid) (arrivals s)
                (λ z, proj1 (is_arrival_range mid z))).
  pose proof (is_arrival_range mid a).
  split; [split; [lia|done]|].
  intros Hid. split; [|by apply Ha].
  assert (is_arrival mid a = 1) by (unfold is_arrival; by rewrite decide_True).
  lia.
Qed.

(** ** Keeping the invariant *)

(** A turn that leaves the arrivals as they are. *)
Lemma inv_same_arrivals mid msg s s' :
  inv mid msg s →
  arrivals s' = arrivals s →
  Forall (λ w, toHeight w ≤ latestBlockHeight s' ∧ NoDup (messageIds w))
         (sweeps s') →
  (∀ h, messageIdToProcessAtBlock s' !! mid = Some h → h = height msg) →
  (∀ p, phase_ok msg p (view mid s) → phase_ok msg p (view mid s')) →
  inv mid msg s'.
Proof.
  intros [H1 H2 H3 H4] Ha Hw Hh Hp. split; [done|done| |].
  - unfold arrived. rewrite Ha. intros E. apply Hp. by apply H3.
  - rewrite Ha. eapply Forall_impl; [exact H4|]. simpl. intros a Ha' E.
    apply Hp. by apply Ha'.
Qed.

(** A turn of one call of the gate. *)
Lemma inv_goto mid msg s s' i a p :
  sole mid msg s → inv mid msg s →
  arrivals s !! i = Some a →
  arrivals s' = <[i := with_arr_pc p a]> (arrivals s) →
  sweeps s' = sweeps s →
  latestBlockHeight s' = latestBlockHeight s →
  (∀ h, messageIdToProcessAtBlock s' !! mid = Some h → h = height msg) →
  (arr_messageId a = mid → arr_message a = msg →
   phase_ok msg (arr_pc a) (view mid s) → phase_ok msg p (view mid s')) →
  (arr_messageId a ≠ mid → view mid s' = view mid s) →
  inv mid msg s'.
Proof.
  intros Hsole [H1 H2 H3 H4] Hi Ha Hw Hl Hh Hp Hv.
  pose proof (Forall_lookup_1 _ _ _ _ H4 Hi) as Hai. simpl in Hai.
  split.
  - by rewrite Hw, Hl.
  - done.
  - unfold arrived. rewrite Ha, (total_insert _ _ _ _ _ Hi).
    replace (is_arrival mid (with_arr_pc p a)) with (is_arrival mid a) by done.
    intros E. assert (E' : arrived mid s = 0) by (unfold arrived; lia).
    assert (Hne : arr_messageId a ≠ mid).
    { intros Hid.
      pose proof (total_one (is_arrival mid) _ _ _
                    (λ z, proj1 (is_arrival_range mid z)) Hi) as Hle.
      assert (is_arrival mid a = 1)
        by (unfold is_arrival; by rewrite decide_True).
      unfold arrived in E'. lia. }
    rewrite (Hv Hne). by apply H3.
  - rewrite Ha. apply Forall_lookup. intros j a' Hj.
    destruct (decide (j = i)) as [->|Hne].
    + rewrite list_lookup_insert_eq in Hj by by eapply lookup_lt_Some.
      injection Hj as <-. simpl. intros Hid. apply Hp; [done| |by apply Hai].
      by eapply sole_message.
    + rewrite list_lookup_insert_ne in Hj by done. intros Hid.
      assert (arr_messageId a ≠ mid) as Hne'.
      { intros Hid'. apply Hne. by eapply sole_unique. }
      rewrite (Hv Hne').
      by apply (Forall_lookup_1 _ _ _ _ H4 Hj).
Qed.


Ltac unfold_gate :=
  unfold blockWait, handleMessageFromMqWithBlockWait, hasSeenChain_resolved,
    save_resolved, remove_resolved, handleMessageFromQueue_admit,
    addMqMessageTaskToQueue, addTaskToQueue, processMessageInBlocks,
    ids_resolved, message_resolved, task_finished, releaseLock,
    releaseLockAndCleanUp, cleanUpMessage, newBlock, arrival_goto,
    setMessageFromMQ, removeMessageFromMQ, addMessageIdToProcessAtBlock,
    removeMessageIdToProcessAtBlock in *.

(** The lock test passes for a lock that is held; for a lock that is not,
    it passes exactly for the names of [Object.prototype]. *)
Lemma locked_held mid s :
  messageProcessLock s !! mid = Some true → locked mid s = true.
Proof. unfold locked, truthy_at. by intros ->. Qed.


Lemma view_tickets_zero mid s :
  tickets (view mid s) = 0 →
  v_sweeps (view mid s) = 0 ∧ v_lookups (view mid s) = 0 ∧
  v_admitted (view mid s) = 0.
Proof.
  pose proof (view_nonneg mid s). unfold tickets. lia.
Qed.

(** The height test of the gate, for a call that has not looked yet. *)
Lemma blockWait_inv mid msg s i a :
  sole mid msg s → inv mid msg s →
  arrivals s !! i = Some a → arr_pc a = AwaitHasSeenChain →
  inv mid msg (blockWait i a s).
Proof.
  intros Hsole Hinv Hi Hpc. unfold blockWait.
  destruct (Z.leb_spec (latestBlockHeight s) (height (arr_message a)))
    as [Hle|Hgt].
  - eapply inv_goto; try done; simpl.
    + intros h. destruct (decide (arr_messageId a = mid)) as [Hid|Hne].
      * rewrite Hid, lookup_insert_eq. intros [= <-].
        f_equal. by eapply sole_message.
      * rewrite lookup_insert_ne by done. by apply Hinv.
    + intros Hid Hmsg. rewrite Hpc. intros (HM & HX & Ht).
      apply view_tickets_zero in Ht as (HS & HL & HA).
      unfold phase_ok. simpl in *.
      rewrite Hid, !lookup_insert_eq, Hmsg.
      repeat split; try done; unfold admitted in *; simpl; lia.
    + intros Hne. unfold view, admitted. simpl.
      by rewrite !lookup_insert_ne by done.
  - eapply inv_goto; try done; simpl.
    + apply Hinv.
    + intros Hid Hmsg. rewrite Hpc. intros (HM & HX & Ht).
      apply view_tickets_zero in Ht as (_ & HL & HA).
      unfold phase_ok. simpl in *. unfold admitted in *. simpl.
      rewrite <- Hmsg. repeat split; try done; lia.
Qed.

Lemma seen_inv mid msg s i a seen :
  sole mid msg s → inv mid msg s →
  arrivals s !! i = Some a → arr_pc a = AwaitHasSeenChain →
  inv mid msg (hasSeenChain_resolved i a seen s).
Proof.
  intros Hsole Hinv Hi Hpc. unfold hasSeenChain_resolved.
  destruct seen; simpl; [by apply blockWait_inv|].
  eapply inv_goto; try done; simpl.
  - apply Hinv.
  - intros _ _. by rewrite Hpc.
Qed.

Lemma arrive_inv mid msg s messageId message :
  sole mid msg (handleMessageFromMqWithBlockWait messageId message s) →
  inv mid msg s →
  inv mid msg (handleMessageFromMqWithBlockWait messageId message s).
Proof.
  unfold handleMessageFromMqWithBlockWait.
  set (a := {| arr_messageId := messageId; arr_message := message;
               arr_pc := AwaitHasSeenChain |}).
  set (s0 := set_arrivals (arrivals s ++ [a]) s).
  assert (Hi : arrivals s0 !! length (arrivals s) = Some a).
  { simpl. by apply list_lookup_middle. }
  intros Hsole Hinv.
  assert (Hsole0 : sole mid msg s0).
  { revert Hsole. case_bool_decide; [done|]. unfold blockWait.
    destruct (latestBlockHeight s0 <=? height (arr_message a)); intros Hsole.
    - by refine (proj2 (sole_goto mid msg s0 _ _ a AwaitSave Hi _) Hsole).
    - by refine (proj2 (sole_goto mid msg s0 _ _ a ReturnedTrue Hi _) Hsole). }
  destruct (sole_snoc mid msg s s0 a eq_refl Hsole0) as [Hsole' Hnew].
  assert (Hinv0 : inv mid msg s0).
  { destruct Hinv as [H1 H2 H3 H4]. split; try done.
    - unfold arrived. simpl. rewrite total_snoc. intros E. apply H3.
      pose proof (is_arrival_range mid a).
      pose proof (total_nonneg (is_arrival mid) (arrivals s)
                    (λ z, proj1 (is_arrival_range mid z))).
      unfold arrived. lia.
    - simpl. apply Forall_app. split; [done|]. apply Forall_singleton.
      simpl. intros Hid. apply H3. by apply Hnew. }
  case_bool_decide; [done|]. by apply blockWait_inv.
Qed.


Lemma saved_inv mid msg s i a :
  sole mid msg s → inv mid msg s →
  arrivals s !! i = Some a → arr_pc a = AwaitSave →
  inv mid msg (save_resolved i a s).
Proof.
  intros Hsole Hinv Hi Hpc. unfold save_resolved.
  destruct (Z.leb_spec (latestBlockHeight s) (height (arr_message a)))
    as [Hle|Hgt].
  - eapply inv_goto; try done; simpl.
    + apply Hinv.
    + intros Hid Hmsg. rewrite Hpc. intros (HL & HM & HX & Ht & HS1 & HS0).
      pose proof (view_nonneg mid s) as (? & ? & ?).
      unfold phase_ok, tickets. simpl in *.
      rewrite Hid, lookup_delete_eq. unfold admitted in *. simpl.
      repeat split; try done; lia.
    + intros Hne. unfold view, admitted. simpl.
      by rewrite !lookup_delete_ne by done.
  - eapply inv_goto; try done; simpl.
    + intros h. destruct (decide (arr_messageId a = mid)) as [Hid|Hne].
      * by rewrite Hid, lookup_delete_eq.
      * rewrite lookup_delete_ne by done. by apply Hinv.
    + intros Hid Hmsg. rewrite Hpc. intros (HL & HM & HX & Ht & _).
      unfold phase_ok. simpl in *. unfold admitted in *. simpl.
      rewrite Hid, lookup_delete_eq, <- Hmsg. repeat split; try done; lia.
    + intros Hne. unfold view, admitted. simpl.
      by rewrite !lookup_delete_ne by done.
Qed.

Lemma gate_removed_inv mid msg s i a :
  sole mid msg s → inv mid msg s →
  arrivals s !! i = Some a → arr_pc a = AwaitRemove →
  inv mid msg (remove_resolved i a s).
Proof.
  intros Hsole Hinv Hi Hpc. unfold remove_resolved.
  eapply inv_goto; try done; simpl.
  - apply Hinv.
  - intros _ _. by rewrite Hpc.
Qed.

Lemma enqueue_inv mid msg s i a :
  sole mid msg s → inv mid msg s →
  arrivals s !! i = Some a → arr_pc a = ReturnedTrue →
  inv mid msg (handleMessageFromQueue_admit i a s).
Proof.
  intros Hsole Hinv Hi Hpc. unfold handleMessageFromQueue_admit.
  eapply inv_goto; try done; simpl.
  - apply Hinv.
  - intros Hid Hmsg. rewrite Hpc. intros (HM & Ht & Hlt).
    pose proof (view_nonneg mid s) as (_ & ? & ?).
    unfold phase_ok. simpl in *. unfold admitted in *. simpl.
    rewrite total_snoc. unfold is_admission at 2. simpl.
    rewrite decide_True by done. repeat split; try done; lia.
  - intros Hne. unfold view, locked, admitted. simpl.
    rewrite total_snoc. unfold is_admission at 2. simpl.
    rewrite decide_False by done. by rewrite Z.add_0_r.
Qed.


(** ** The sweep *)

Lemma getMessageIds_elem mid fromHeight toHeight s :
  mid ∈ getMessageIdsToProcessAtBlock fromHeight toHeight s ↔
  ∃ h, messageIdToProcessAtBlock s !! mid = Some h ∧
       fromHeight ≤ h ≤ toHeight.
Proof.
  unfold getMessageIdsToProcessAtBlock. rewrite list_elem_of_fmap. split.
  - intros ([k h] & -> & Hin). apply elem_of_map_to_list in Hin.
    apply map_lookup_filter_Some in Hin as [? ?]. eauto.
  - intros (h & Hh & Hr). exists (mid, h). split; [done|].
    apply elem_of_map_to_list. by apply map_lookup_filter_Some.
Qed.

Lemma getMessageIds_NoDup fromHeight toHeight s :
  NoDup (getMessageIdsToProcessAtBlock fromHeight toHeight s).
Proof. apply NoDup_fst_map_to_list. Qed.

Lemma holds_id_awaiting mid f t ids :
  holds_id mid {| fromHeight := f; toHeight := t; messageIds := ids;
                  sweep_awaiting := true |} =
  if bool_decide (mid ∈ ids) then 1 else 0.
Proof. done. Qed.

Lemma holds_id_done mid f t ids :
  holds_id mid {| fromHeight := f; toHeight := t; messageIds := ids;
                  sweep_awaiting := false |} = 0.
Proof. done. Qed.

Lemma newBlock_ids mid msg s h' :
  inv mid msg s →
  mid ∈ getMessageIdsToProcessAtBlock (latestBlockHeight s + 1) h' s ↔
  messageIdToProcessAtBlock s !! mid = Some (height msg) ∧
  latestBlockHeight s < height msg ≤ h'.
Proof.
  intros [_ H2 _ _]. rewrite getMessageIds_elem. split.
  - intros (h & Hh & Hr). pose proof (H2 h Hh) as ->. split; [done|lia].
  - intros [Hh Hr]. exists (height msg). split; [done|lia].
Qed.

Lemma newBlock_inv mid msg s h' :
  latestBlockHeight s < h' → inv mid msg s → inv mid msg (newBlock h' s).
Proof.
  intros Hlt Hinv. pose proof Hinv as [H1 H2 H3 H4].
  pose proof (newBlock_ids mid msg s h' Hinv) as Hin.
  set (ids := getMessageIdsToProcessAtBlock (latestBlockHeight s + 1) h' s)
    in *.
  apply (inv_same_arrivals mid msg s); try done.
  - simpl. apply Forall_app. split.
    + eapply Forall_impl; [exact H1|]. simpl. intros w (? & ?).
      split; [lia|done].
    + apply Forall_singleton. simpl. split; [lia|].
      apply getMessageIds_NoDup.
  - intros p. unfold phase_ok, tickets, view, admitted. simpl.
    rewrite total_snoc, holds_id_awaiting. fold ids.
    pose proof (view_nonneg mid s) as (Hs0 & Hl0 & Ha0).
    unfold view, admitted in Hs0, Hl0, Ha0. simpl in Hs0, Hl0, Ha0.
    destruct p; simpl.
    + intros (HM & HX & Ht). case_bool_decide as Hm.
      { apply Hin in Hm as [? ?]. congruence. }
      repeat split; try done; lia.
    + intros (HL & HM & HX & Ht & HS1 & HS0).
      case_bool_decide as Hm.
      * apply Hin in Hm as [_ ?]. repeat split; try done; lia.
      * repeat split; try done; lia.
    + intros (? & ? & ?). repeat split; try done; lia.
    + intros (HM & HX & Ht). case_bool_decide as Hm.
      { apply Hin in Hm as [? ?]. congruence. }
      repeat split; try done; lia.
    + intros (HL & Ht1 & Ht0 & HA). split; [done|].
      case_bool_decide as Hm.
      * apply Hin in Hm as [_ ?]. split; [lia|]. split; [lia|done].
      * split; [lia|]. split; [lia|]. intros E. apply HA. lia.
    + intros (? & ? & ?). repeat split; try done; lia.
    + intros (? & ? & ? & ?). repeat split; try done; lia.
Qed.


(** The closures a sweep starts for a message: one, when its id is among
    the ids, its lock is free and it is in the cache; none otherwise. *)
Lemma look_total mid s ids :
  NoDup ids →
  total (will_admit mid) (omap (look s) ids) =
  if bool_decide (mid ∈ ids) && negb (locked mid s)
     && bool_decide (is_Some (messageFromMQ s !! mid))
  then 1 else 0.
Proof.
  induction 1 as [|x ids Hx Hnd IH]; [done|].
  change (omap (look s) (x :: ids))
    with (match look s x with
          | Some y => y :: omap (look s) ids
          | None => omap (look s) ids
          end).
  destruct (decide (x = mid)) as [->|Hne].
  - rewrite bool_decide_false in IH by done. simpl in IH.
    rewrite (bool_decide_true (mid ∈ mid :: ids)) by by constructor.
    unfold look at 1. destruct (locked mid s); simpl; [done|].
    rewrite total_cons, IH. unfold will_admit, getMessageFromMQ. simpl.
    rewrite bool_decide_true by done. simpl.
    case_bool_decide; lia.
  - assert (Hmem : bool_decide (mid ∈ x :: ids) = bool_decide (mid ∈ ids)).
    { apply bool_decide_ext. rewrite elem_of_cons.
      split; [intros [?|?]; [congruence|done]|by right]. }
    rewrite Hmem, <- IH. unfold look at 1. destruct (locked x s); [done|].
    rewrite total_cons. unfold will_admit at 1. simpl.
    rewrite (bool_decide_false (x = mid)) by done. simpl. lia.
Qed.

Lemma locked_set_sweeps mid ws s :
  locked mid (set_sweeps ws s) = locked mid s.
Proof. done. Qed.

Lemma gotIds_inv mid msg s j w :
  sweeps s !! j = Some w → sweep_awaiting w = true →
  inv mid msg s → inv mid msg (ids_resolved j w s).
Proof.
  intros Hj Haw Hinv. pose proof Hinv as [H1 H2 H3 H4].
  pose proof (Forall_lookup_1 _ _ _ _ H1 Hj) as (Hto & Hnd). simpl in *.
  assert (Hw : holds_id mid w = if bool_decide (mid ∈ messageIds w)
                                then 1 else 0).
  { unfold holds_id. by rewrite Haw. }
  pose proof (total_one (holds_id mid) _ _ _
                (λ z, proj1 (holds_id_range mid z)) Hj) as Hle.
  apply (inv_same_arrivals mid msg s); try done.
  - simpl. apply Forall_insert; [done|]. done.
  - intros p. unfold phase_ok, tickets, view, admitted. simpl.
    rewrite (total_insert _ _ _ _ _ Hj), holds_id_done, total_app.
    rewrite (look_total mid _ _ Hnd).
    rewrite locked_set_sweeps. rewrite Hw in *.
    pose proof (view_nonneg mid s) as (Hs0 & Hl0 & Ha0).
    unfold view, admitted in Hs0, Hl0, Ha0. simpl in Hs0, Hl0, Ha0.
    destruct p; simpl.
    + intros (HM & HX & Ht). rewrite HM.
      rewrite (bool_decide_false (is_Some None)) by by intros [? ?].
      rewrite andb_false_r. case_bool_decide; repeat split; try done; lia.
    + intros (HL & HM & HX & Ht & HS1 & HS0).
      rewrite (locked_held _ _ HL). simpl.
      rewrite andb_false_r. simpl.
      case_bool_decide; repeat split; try done; lia.
    + intros (HM & Ht & Hlt). rewrite HM.
      rewrite (bool_decide_false (is_Some None)) by by intros [? ?].
      rewrite andb_false_r. repeat split; try done; lia.
    + intros (HM & HX & Ht). rewrite HM.
      rewrite (bool_decide_false (is_Some None)) by by intros [? ?].
      rewrite andb_false_r. case_bool_decide; repeat split; try done; lia.
    + intros (HL & Ht1 & Ht0 & HA). split; [done|].
      case_bool_decide as Hin; simpl.
      * destruct (negb (locked mid s)
                  && bool_decide (is_Some (messageFromMQ s !! mid)));
          (split; [lia|]); (split; [lia|]); intros E; apply HA; lia.
      * split; [lia|]. split; [lia|]. intros E. apply HA. lia.
    + intros (HM & Ht & Hlt). rewrite HM.
      rewrite (bool_decide_false (is_Some None)) by by intros [? ?].
      rewrite andb_false_r. repeat split; try done; lia.
    + intros (HM & Ht & HA & Hlt). rewrite HM.
      rewrite (bool_decide_false (is_Some None)) by by intros [? ?].
      rewrite andb_false_r. repeat split; try done; lia.
Qed.


Lemma will_admit_done mid k m :
  will_admit mid {| look_messageId := k; look_message := m;
                    look_awaiting := false |} = 0.
Proof. done. Qed.

Lemma is_admission_new mid k f b :
  is_admission mid {| adm_messageId := k; adm_onCallbackFinished := f;
                      adm_finished := b |} = if decide (k = mid) then 1 else 0.
Proof. done. Qed.

(** What the end of a lookup does to the view of a message: a lookup
    that got the message becomes its admission. *)
Lemma gotMessage_view mid s n l :
  lookups s !! n = Some l → look_awaiting l = true →
  view mid (message_resolved n l s) =
  {| v_lock := v_lock (view mid s);
     v_message := v_message (view mid s);
     v_height := v_height (view mid s);
     v_sweeps := v_sweeps (view mid s);
     v_lookups := v_lookups (view mid s) - will_admit mid l;
     v_admitted := v_admitted (view mid s) + will_admit mid l;
     v_latest := v_latest (view mid s) |}.
Proof.
  intros Hn Haw.
  unfold message_resolved, view, admitted. simpl.
  destruct (look_message l) as [m|] eqn:Hm; simpl;
    rewrite (total_insert _ _ _ _ _ Hn), will_admit_done.
  - rewrite total_snoc, is_admission_new. f_equal; [lia|].
    f_equal. unfold will_admit. rewrite Haw, Hm. simpl.
    repeat (case_bool_decide || case_decide); simpl; try done;
      exfalso; eauto.
  - f_equal; [lia|].
    assert (will_admit mid l = 0); [|lia].
    unfold will_admit. rewrite Hm.
    destruct (look_awaiting l && bool_decide (look_messageId l = mid));
      simpl; [|done].
    first [done | case_bool_decide as E; [by destruct E|done]].
Qed.

Lemma gotMessage_inv mid msg s n l :
  lookups s !! n = Some l → look_awaiting l = true →
  inv mid msg s → inv mid msg (message_resolved n l s).
Proof.
  intros Hn Haw Hinv. pose proof Hinv as [H1 H2 H3 H4].
  pose proof (total_one (will_admit mid) _ _ _
                (λ z, proj1 (will_admit_range mid z)) Hn) as Hle.
  pose proof (will_admit_range mid l) as Hr.
  pose proof (gotMessage_view mid s n l Hn Haw) as Hv.
  set (c := will_admit mid l) in *.
  assert (Hcl : c ≤ v_lookups (view mid s)) by done.
  apply (inv_same_arrivals mid msg s); try done.
  - unfold message_resolved. by destruct (look_message l).
  - unfold message_resolved. by destruct (look_message l).
  - unfold message_resolved. by destruct (look_message l).
  - intros p. rewrite Hv.
    pose proof (view_nonneg mid s) as (Hs0 & Hl0 & Ha0).
    unfold phase_ok, tickets. destruct p; simpl in *.
    + intros (? & ? & ?). repeat split; try done; lia.
    + intros (? & ? & ? & ? & ? & ?). repeat split; try done; lia.
    + intros (? & ? & ?). repeat split; try done; lia.
    + intros (? & ? & ?). repeat split; try done; lia.
    + intros (? & ? & ? & HA). split; [done|]. split; [lia|].
      split; [lia|]. intros E. apply HA. lia.
    + intros (? & ? & ?). repeat split; try done; lia.
    + intros (? & ? & ? & ?). repeat split; try done; lia.
Qed.


Lemma finish_inv mid msg s n a :
  admissions s !! n = Some a →
  inv mid msg s → inv mid msg (task_finished n a s).
Proof.
  intros Hn Hinv. pose proof Hinv as [H1 H2 H3 H4].
  pose proof (total_one (is_admission mid) _ _ _
                (λ z, proj1 (is_admission_range mid z)) Hn) as Hle.
  assert (HA : admitted mid (task_finished n a s) = admitted mid s).
  { unfold admitted, task_finished.
    destruct (adm_onCallbackFinished a); simpl;
      rewrite (total_insert _ _ _ _ _ Hn), is_admission_new;
      unfold is_admission; lia. }
  apply (inv_same_arrivals mid msg s); try done.
  - unfold task_finished. by destruct (adm_onCallbackFinished a).
  - unfold task_finished. by destruct (adm_onCallbackFinished a).
  - intros h. unfold task_finished.
    destruct (adm_onCallbackFinished a); simpl; [apply H2|].
    destruct (decide (adm_messageId a = mid)) as [->|Hne].
    + by rewrite lookup_delete_eq.
    + rewrite lookup_delete_ne by done. apply H2.
  - intros p. destruct (decide (adm_messageId a = mid)) as [Hid|Hne].
    + assert (1 ≤ v_admitted (view mid s)) as Hone.
      { simpl. unfold admitted. unfold is_admission in Hle.
        by rewrite decide_True in Hle. }
      pose proof (view_nonneg mid s) as (Hs0 & Hl0 & Ha0).
      unfold phase_ok, tickets, view. simpl. rewrite HA.
      unfold view in Hone, Hs0, Hl0, Ha0. simpl in Hone, Hs0, Hl0, Ha0.
      assert (HL : messageProcessLock (task_finished n a s) !! mid = None).
      { unfold task_finished.
        destruct (adm_onCallbackFinished a); simpl;
          by rewrite Hid, lookup_delete_eq. }
      assert (HM : messageFromMQ s !! mid = None →
                   messageFromMQ (task_finished n a s) !! mid = None).
      { unfold task_finished.
        destruct (adm_onCallbackFinished a); simpl; [done|].
        by rewrite Hid, lookup_delete_eq. }
      assert (Hlat : latestBlockHeight (task_finished n a s)
                     = latestBlockHeight s).
      { unfold task_finished. by destruct (adm_onCallbackFinished a). }
      assert (Hsw : sweeps (task_finished n a s) = sweeps s).
      { unfold task_finished. by destruct (adm_onCallbackFinished a). }
      assert (Hlk : lookups (task_finished n a s) = lookups s).
      { unfold task_finished. by destruct (adm_onCallbackFinished a). }
      rewrite HL, Hlat, Hsw, Hlk.
      destruct p; simpl.
      * intros (? & ? & ?). lia.
      * intros (? & ? & ? & ? & ? & ?). lia.
      * intros (? & ? & ?). lia.
      * intros (? & ? & ?). lia.
      * intros (? & ? & ? & ?). split; [done|]. split; [done|].
        split; [done|]. intros E. lia.
      * intros (? & ? & ?). lia.
      * intros (? & ? & ? & ?). split; [by apply HM|]. done.
    + assert (Hv : view mid (task_finished n a s) = view mid s);
        [|by rewrite Hv].
      unfold view. rewrite HA. unfold task_finished.
      destruct (adm_onCallbackFinished a); simpl;
        by rewrite !lookup_delete_ne by done.
Qed.

(** ** Every turn, every schedule *)

Lemma gate_step_inv mid msg e s s' :
  sole mid msg s' → inv mid msg s → step e s = Some s' → inv mid msg s'.
Proof.
  intros Hsole Hinv Hstep.
  destruct e as [k m|i seen|i|i|i|h'|j|n|n]; simpl in Hstep.
  - injection Hstep as <-. by apply arrive_inv.
  - destruct (arrivals s !! i) as [a|] eqn:Hi; [|done]. simpl in Hstep.
    destruct (arr_pc a) eqn:Hpc; try done. injection Hstep as <-.
    apply seen_inv; try done.
    unfold hasSeenChain_resolved, blockWait in Hsole.
    repeat case_match;
      by refine (proj2 (sole_goto mid msg s _ _ a _ Hi _) Hsole).
  - destruct (arrivals s !! i) as [a|] eqn:Hi; [|done]. simpl in Hstep.
    destruct (arr_pc a) eqn:Hpc; try done. injection Hstep as <-.
    apply saved_inv; try done. unfold save_resolved in Hsole.
    repeat case_match;
      by refine (proj2 (sole_goto mid msg s _ _ a _ Hi _) Hsole).
  - destruct (arrivals s !! i) as [a|] eqn:Hi; [|done]. simpl in Hstep.
    destruct (arr_pc a) eqn:Hpc; try done. injection Hstep as <-.
    apply gate_removed_inv; try done.
    by refine (proj2 (sole_goto mid msg s _ _ a _ Hi _) Hsole).
  - destruct (arrivals s !! i) as [a|] eqn:Hi; [|done]. simpl in Hstep.
    destruct (arr_pc a) eqn:Hpc; try done. injection Hstep as <-.
    apply enqueue_inv; try done.
    by refine (proj2 (sole_goto mid msg s _ _ a _ Hi _) Hsole).
  - destruct (Z.ltb_spec (latestBlockHeight s) h'); [|done].
    injection Hstep as <-. by apply newBlock_inv.
  - destruct (sweeps s !! j) as [w|] eqn:Hj; [|done]. simpl in Hstep.
    destruct (sweep_awaiting w) eqn:Haw; [|done]. injection Hstep as <-.
    by apply gotIds_inv.
  - destruct (lookups s !! n) as [l|] eqn:Hn; [|done]. simpl in Hstep.
    destruct (look_awaiting l) eqn:Haw; [|done]. injection Hstep as <-.
    by apply gotMessage_inv.
  - destruct (admissions s !! n) as [a|] eqn:Hn; [|done]. simpl in Hstep.
    destruct (adm_finished a); [done|]. injection Hstep as <-.
    by apply finish_inv.
Qed.

(** The arrivals of a state are still there, as they were but for where
    they stand, after a turn. *)
Lemma step_sole mid msg e s s' :
  step e s = Some s' → sole mid msg s' → sole mid msg s.
Proof.
  intros Hstep Hsole.
  destruct e as [k m|i seen|i|i|i|h'|j|n|n]; simpl in Hstep.
  - injection Hstep as <-. unfold handleMessageFromMqWithBlockWait in Hsole.
    set (a := {| arr_messageId := k; arr_message := m;
                 arr_pc := AwaitHasSeenChain |}) in *.
    set (s0 := set_arrivals (arrivals s ++ [a]) s) in *.
    assert (Hi : arrivals s0 !! length (arrivals s) = Some a).
    { simpl. by apply list_lookup_middle. }
    assert (Hsole0 : sole mid msg s0).
    { revert Hsole. case_bool_decide; [done|]. unfold blockWait.
      destruct (latestBlockHeight s0 <=? height (arr_message a));
        intros Hsole.
      - by refine (proj2 (sole_goto mid msg s0 _ _ a AwaitSave Hi _) Hsole).
      - by refine (proj2 (sole_goto mid msg s0 _ _ a ReturnedTrue Hi _) Hsole). }
    by destruct (sole_snoc mid msg s s0 a eq_refl Hsole0).
  - destruct (arrivals s !! i) as [a|] eqn:Hi; [|done]. simpl in Hstep.
    destruct (arr_pc a) eqn:Hpc; try done. injection Hstep as <-.
    unfold hasSeenChain_resolved, blockWait in Hsole.
    repeat case_match;
      by refine (proj2 (sole_goto mid msg s _ _ a _ Hi _) Hsole).
  - destruct (arrivals s !! i) as [a|] eqn:Hi; [|done]. simpl in Hstep.
    destruct (arr_pc a) eqn:Hpc; try done. injection Hstep as <-.
    unfold save_resolved in Hsole.
    repeat case_match;
      by refine (proj2 (sole_goto mid msg s _ _ a _ Hi _) Hsole).
  - destruct (arrivals s !! i) as [a|] eqn:Hi; [|done]. simpl in Hstep.
    destruct (arr_pc a) eqn:Hpc; try done. injection Hstep as <-.
    by refine (proj2 (sole_goto mid msg s _ _ a _ Hi _) Hsole).
  - destruct (arrivals s !! i) as [a|] eqn:Hi; [|done]. simpl in Hstep.
    destruct (arr_pc a) eqn:Hpc; try done. injection Hstep as <-.
    by refine (proj2 (sole_goto mid msg s _ _ a _ Hi _) Hsole).
  - destruct (latestBlockHeight s <? h'); [|done]. by injection Hstep as <-.
  - destruct (sweeps s !! j) as [w|]; [|done]. simpl in Hstep.
    destruct (sweep_awaiting w); [|done]. by injection Hstep as <-.
  - destruct (lookups s !! n) as [l|]; [|done]. simpl in Hstep.
    destruct (look_awaiting l); [|done]. injection Hstep as <-.
    revert Hsole. unfold message_resolved. by destruct (look_message l).
  - destruct (admissions s !! n) as [a|]; [|done]. simpl in Hstep.
    destruct (adm_finished a); [done|]. injection Hstep as <-.
    revert Hsole. unfold task_finished.
    by destruct (adm_onCallbackFinished a).
Qed.

Lemma gate_run_inv mid msg evs s s' :
  run step evs s = Some s' → sole mid msg s' →
  inv mid msg s → inv mid msg s'.
Proof.
  revert s. induction evs as [|e evs IH]; intros s Hrun Hsole Hinv;
    simpl in Hrun.
  - by injection Hrun as <-.
  - destruct (step e s) as [s1|] eqn:E; [|done].
    apply (IH s1); try done. apply (gate_step_inv mid msg e s); try done.
    clear IH Hinv E. revert s1 Hrun.
    induction evs as [|e' evs IH]; intros s1 Hrun; simpl in Hrun.
    + by injection Hrun as <-.
    + destruct (step e' s1) as [s2|] eqn:E'; [|done].
      eapply step_sole; [exact E'|]. by apply IH.
Qed.

Lemma gate_init_inv mid msg chain h : inv mid msg (init chain h).
Proof.
  split; try done; simpl; constructor.
Qed.


(** ** A message the gate has deferred *)








(** ** The claims about the gate *)

Lemma arrived_once_sole s i a :
  arrivals s !! i = Some a → arrived (arr_messageId a) s ≤ 1 →
  sole (arr_messageId a) (arr_message a) s.
Proof.
  intros Hi Hle. split; [done|]. apply Forall_lookup. intros j a' Hj Hid.
  destruct (decide (i = j)) as [->|Hne]; [congruence|].
  pose proof (total_two (is_arrival (arr_messageId a)) _ _ _ _ _
                (λ z, proj1 (is_arrival_range _ z)) Hi Hj Hne) as H.
  assert (is_arrival (arr_messageId a) a = 1)
    by (unfold is_arrival; by rewrite decide_True).
  assert (is_arrival (arr_messageId a) a' = 1)
    by (unfold is_arrival; by rewrite decide_True).
  unfold arrived in Hle. lia.
Qed.





(** C3 as stated fails where the observed height equals the height of the
    message: with both at 100 the message is not admitted at once; it is
    saved under its lock, and, the height being still 100 after the
    writes, the gate returns false and leaves it saved. *)
Lemma C3_counterexample :
  let message := {| chain_id := "ndid"; height := 100; request_id := "r" |} in
  let s := init "ndid" 100 in
  let s1 := handleMessageFromMqWithBlockWait "m1" message s in
  let s2 := save_resolved 0 {| arr_messageId := "m1"; arr_message := message;
                               arr_pc := AwaitSave |} s1 in
  latestBlockHeight s >= height message ∧
  arr_pc_of 0 s1 ≠ Some ReturnedTrue ∧
  messageFromMQ s1 !! "m1" = Some message ∧
  step (Saved 0) s1 = Some s2 ∧
  latestBlockHeight s2 >= height message ∧
  arr_pc_of 0 s2 = Some ReturnedFalse ∧
  messageFromMQ s2 !! "m1" = Some message ∧
  messageIdToProcessAtBlock s2 !! "m1" = Some 100.
Proof.
  intros message s s1 s2.
  split; [vm_compute; discriminate|].
  split; [vm_compute; discriminate|].
  repeat (split; [vm_compute; reflexivity|]).
  split; [vm_compute; discriminate|].
  repeat (split; [vm_compute; reflexivity|]). vm_compute; reflexivity.
Qed.

(** C3, amended: the height test of the gate admits at once, saving
    nothing and taking no lock, when the observed height is above the
    height of the message; when it is at or below, the message and its
    index entry are saved under the lock of the message.  After the
    writes, if the observed height is still at or below the height of the
    message, the lock is released and the gate returns false, both records
    kept; if it has gone above, both records are removed and the gate
    returns true.  A message of the node's own chain, or of a chain seen
    before, goes through this test; one of a chain never seen is
    rejected. *)
Theorem C3_admit_above_defer_at_or_below s i a :
  arrivals s !! i = Some a →
  (height (arr_message a) < latestBlockHeight s →
   arr_pc_of i (blockWait i a s) = Some ReturnedTrue ∧
   messageFromMQ (blockWait i a s) = messageFromMQ s ∧
   messageIdToProcessAtBlock (blockWait i a s) = messageIdToProcessAtBlock s ∧
   messageProcessLock (blockWait i a s) = messageProcessLock s) ∧
  (latestBlockHeight s ≤ height (arr_message a) →
   arr_pc_of i (blockWait i a s) = Some AwaitSave ∧
   messageFromMQ (blockWait i a s) !! arr_messageId a = Some (arr_message a) ∧
   messageIdToProcessAtBlock (blockWait i a s) !! arr_messageId a
     = Some (height (arr_message a)) ∧
   messageProcessLock (blockWait i a s) !! arr_messageId a = Some true) ∧
  (latestBlockHeight s ≤ height (arr_message a) →
   arr_pc_of i (save_resolved i a s) = Some ReturnedFalse ∧
   messageFromMQ (save_resolved i a s) = messageFromMQ s ∧
   messageIdToProcessAtBlock (save_resolved i a s)
     = messageIdToProcessAtBlock s ∧
   messageProcessLock (save_resolved i a s) !! arr_messageId a = None) ∧
  (height (arr_message a) < latestBlockHeight s →
   arr_pc_of i (save_resolved i a s) = Some AwaitRemove ∧
   messageFromMQ (save_resolved i a s) !! arr_messageId a = None ∧
   messageIdToProcessAtBlock (save_resolved i a s) !! arr_messageId a = None ∧
   messageProcessLock (save_resolved i a s) = messageProcessLock s ∧
   arr_pc_of i (remove_resolved i a (save_resolved i a s))
     = Some ReturnedTrue) ∧
  hasSeenChain_resolved i a true s = blockWait i a s ∧
  arr_pc_of i (hasSeenChain_resolved i a false s) = Some Thrown ∧
  (∀ messageId message s0,
     chainId s0 = chain_id message →
     handleMessageFromMqWithBlockWait messageId message s0 =
     blockWait (length (arrivals s0))
       {| arr_messageId := messageId; arr_message := message;
          arr_pc := AwaitHasSeenChain |}
       (set_arrivals
          (arrivals s0 ++ [{| arr_messageId := messageId;
                              arr_message := message;
                              arr_pc := AwaitHasSeenChain |}]) s0)).
Proof.
  intros Hi. assert (Hlt : (i < length (arrivals s))%nat)
    by by eapply lookup_lt_Some.
  unfold arr_pc_of, blockWait, save_resolved, remove_resolved,
    hasSeenChain_resolved.
  repeat split.
  - destruct (Z.leb_spec (latestBlockHeight s) (height (arr_message a)));
      [lia|]. unfold_gate. simpl. by rewrite list_lookup_insert_eq.
  - by destruct (Z.leb_spec (latestBlockHeight s) (height (arr_message a)));
      [lia|].
  - by destruct (Z.leb_spec (latestBlockHeight s) (height (arr_message a)));
      [lia|].
  - by destruct (Z.leb_spec (latestBlockHeight s) (height (arr_message a)));
      [lia|].
  - destruct (Z.leb_spec (latestBlockHeight s) (height (arr_message a)));
      [|lia]. unfold_gate. simpl. by rewrite list_lookup_insert_eq.
  - destruct (Z.leb_spec (latestBlockHeight s) (height (arr_message a)));
      [|lia]. unfold_gate. simpl. by rewrite lookup_insert_eq.
  - destruct (Z.leb_spec (latestBlockHeight s) (height (arr_message a)));
      [|lia]. unfold_gate. simpl. by rewrite lookup_insert_eq.
  - destruct (Z.leb_spec (latestBlockHeight s) (height (arr_message a)));
      [|lia]. unfold_gate. simpl. by rewrite lookup_insert_eq.
  - destruct (Z.leb_spec (latestBlockHeight s) (height (arr_message a)));
      [|lia]. unfold_gate. simpl. by rewrite list_lookup_insert_eq.
  - by destruct (Z.leb_spec (latestBlockHeight s) (height (arr_message a)));
      [|lia].
  - by destruct (Z.leb_spec (latestBlockHeight s) (height (arr_message a)));
      [|lia].
  - destruct (Z.leb_spec (latestBlockHeight s) (height (arr_message a)));
      [|lia]. unfold_gate. simpl. by rewrite lookup_delete_eq.
  - destruct (Z.leb_spec (latestBlockHeight s) (height (arr_message a)));
      [lia|]. unfold_gate. simpl. by rewrite list_lookup_insert_eq.
  - destruct (Z.leb_spec (latestBlockHeight s) (height (arr_message a)));
      [lia|]. unfold_gate. simpl. by rewrite lookup_delete_eq.
  - destruct (Z.leb_spec (latestBlockHeight s) (height (arr_message a)));
      [lia|]. unfold_gate. simpl. by rewrite lookup_delete_eq.
  - by destruct (Z.leb_spec (latestBlockHeight s) (height (arr_message a)));
      [lia|].
  - destruct (Z.leb_spec (latestBlockHeight s) (height (arr_message a)));
      [lia|]. unfold_gate. simpl.
    rewrite list_lookup_insert_eq; [done|]. by rewrite length_insert.
  - unfold_gate. simpl. by rewrite list_lookup_insert_eq.
  - intros messageId message s0 Hc.
    unfold handleMessageFromMqWithBlockWait. simpl.
    by rewrite bool_decide_false by (intros H; by apply H).
Qed.

Lemma C3_admit_above_defer_at_or_below_witness :
  let a := {| arr_messageId := "m1"; arr_message := sample_message;
              arr_pc := AwaitHasSeenChain |} in
  let s := set_arrivals [a] (init "ndid" 100) in
  arrivals s !! 0%nat = Some a ∧
  arr_pc_of 0 (blockWait 0 a s) = Some AwaitSave ∧
  arr_pc_of 0 (save_resolved 0 a s) = Some ReturnedFalse.
Proof.
  intros a s.
  assert (H : arrivals s !! 0%nat = Some a) by reflexivity.
  split; [exact H|].
  destruct (C3_admit_above_defer_at_or_below s 0 a H)
    as (_ & H2 & H3 & _).
  split; [apply H2|apply H3]; vm_compute; discriminate.
Defined.

End GateTheory.

Module CallbackApiTheory.
Import Callback CallbackTheory CallbackApi.

Lemma callbackToClient_once_frame a startTime r now s :
  let s' := callbackToClient_once a startTime r now s in
  stopCallbackRetry s' = stopCallbackRetry s ∧
  pendingCallbacksCount s' = pendingCallbacksCount s ∧
  pendingCallback s' = pendingCallback s ∧
  waitPromises s' = waitPromises s ∧
  cacheDb s' = cacheDb s ∧
  posts s' = posts s ∧
  loops s' = loops s.
Proof.
  unfold callbackToClient_once, callResponseCallback.
  repeat case_match; done.
Qed.

(** A delivery without retry: what it emits and calls, and what it leaves
    alone. *)
Lemma callbackToClient_once_spec a startTime r now s :
  let s' := callbackToClient_once a startTime r now s in
  let called x :=
    if truthy_str (responseCallbackFnName a)
    then [{| fnName := default "" (responseCallbackFnName a);
             arg := x;
             data := dataForResponseCallback a |}]
    else [] in
  (cacheDb s' = cacheDb s ∧
   pendingCallbacksCount s' = pendingCallbacksCount s ∧
   loops s' = loops s ∧ posts s' = posts s ∧
   waitPromises s' = waitPromises s) ∧
  match httpPost r with
  | inr responseObj =>
      emitted s' = emitted s ++ [callbackTime (status responseObj)
                                   (negb (bodySize responseObj =? 0))
                                   (now - startTime)] ∧
      handled s' = handled s ++ called (WithResponse responseObj)
  | inl error =>
      emitted s' = emitted s ++ [callbackFail] ∧
      handled s' = handled s ++
                   (if is_max_size error
                    then called (WithError "BODY_TOO_LARGE") else [])
  end.
Proof.
  intros s' called. split.
  { destruct (callbackToClient_once_frame a startTime r now s)
      as (_ & ? & _ & ? & ? & ? & ?). done. }
  subst s' called. unfold callbackToClient_once, callResponseCallback.
  destruct (httpPost r) as [error|responseObj].
  - destruct (is_max_size error),
      (truthy_str (responseCallbackFnName a)); simpl;
      by rewrite ?app_nil_r.
  - destruct (truthy_str (responseCallbackFnName a)); simpl;
      by rewrite ?app_nil_r.
Qed.

(** The counter over all entry points. *)
Lemma api_step_counter cfg e s s' :
  CallbackApi.step cfg e s = Some s' →
  pendingCallbacksCount (retry s') - pending (loops (retry s')) =
  pendingCallbacksCount (retry s) - pending (loops (retry s)).
Proof.
  intros Hstep. destruct e as [e|a t r now|cbId d|n now now'];
    simpl in Hstep.
  - destruct (Callback.step cfg e (retry s)) as [r|] eqn:E; [|done].
    injection Hstep as <-. simpl. by apply (step_counter cfg e).
  - injection Hstep as <-. simpl.
    destruct (callbackToClient_once_frame a t r now (retry s))
      as (_ & -> & _ & _ & _ & _ & ->). done.
  - by injection Hstep as <-.
  - destruct (lost s !! n) as [l|]; [|done]. simpl in Hstep.
    destruct (lost_awaiting l); [|done]. injection Hstep as <-.
    unfold handleCallbackWorkerLost_resolved.
    destruct (backupCallbackData l) as [data|]; simpl; [|done].
    by apply (step_counter cfg
                (Call (restored (lost_cbId l) (lost_deadline l) data)
                      now now')).
Qed.

(** A loop leaves by the stop flag only when the flag is up, and the flag
    is never taken down. *)
Lemma step_halted cfg e s s' :
  Callback.step cfg e s = Some s' →
  stopCallbackRetry s' = false →
  stopCallbackRetry s = false ∧
  halted_loops (loops s') = halted_loops (loops s).
Proof.
  intros Hstep Hflag. unfold halted_loops.
  destruct e as [a|a now now'|j r n t tD tE|j d|j|];
    simpl in Hstep; try (injection Hstep as <-);
    try (destruct (loops s !! j) as [lj|] eqn:Hj; [|done]; simpl in Hstep;
         destruct (pc lj) eqn:Hpcj; try done; injection Hstep as <-).
  - done.
  - unfold_turns. revert Hflag. repeat case_match; simpl; intros Hflag;
      simpl in *; try congruence; (split; [done|]);
      (erewrite total_insert;
       [|apply list_lookup_middle; by rewrite Nat.add_0_r || done]);
      rewrite total_snoc; unfold halted; simpl; lia.
  - unfold_turns. revert Hflag. repeat case_match; simpl; intros Hflag;
      simpl in *; try congruence; (split; [done|]);
      rewrite (total_insert halted _ _ _ _ Hj); unfold halted; simpl;
      rewrite Hpcj; lia.
  - unfold_turns. revert Hflag. repeat case_match; simpl; intros Hflag;
      simpl in *; try congruence; (split; [done|]);
      rewrite (total_insert halted _ _ _ _ Hj); unfold halted; simpl;
      rewrite Hpcj; lia.
  - unfold_turns. revert Hflag. repeat case_match; simpl; intros Hflag;
      simpl in *; try congruence; (split; [done|]);
      rewrite (total_insert halted _ _ _ _ Hj); unfold halted; simpl;
      rewrite Hpcj; lia.
  - done.
Qed.

Lemma api_step_halted cfg e s s' :
  CallbackApi.step cfg e s = Some s' →
  stopCallbackRetry (retry s') = false →
  stopCallbackRetry (retry s) = false ∧
  halted_loops (loops (retry s')) = halted_loops (loops (retry s)).
Proof.
  intros Hstep. destruct e as [e|a t r now|cbId d|n now now'];
    simpl in Hstep.
  - destruct (Callback.step cfg e (retry s)) as [r|] eqn:E; [|done].
    injection Hstep as <-. simpl. by apply (step_halted cfg e).
  - injection Hstep as <-. simpl.
    destruct (callbackToClient_once_frame a t r now (retry s))
      as (-> & _ & _ & _ & _ & _ & ->). done.
  - by injection Hstep as <-.
  - destruct (lost s !! n) as [l|]; [|done]. simpl in Hstep.
    destruct (lost_awaiting l); [|done]. injection Hstep as <-.
    unfold handleCallbackWorkerLost_resolved.
    destruct (backupCallbackData l) as [data|]; simpl; [|done].
    by apply (step_halted cfg
                (Call (restored (lost_cbId l) (lost_deadline l) data)
                      now now')).
Qed.

Lemma pending_unreturned ls :
  pending ls = unreturned ls + halted_loops ls.
Proof.
  unfold pending, unreturned, halted_loops.
  induction ls as [|l ls IH]; [done|]. rewrite !total_cons, IH.
  unfold counts, halted, has_returned. repeat case_match; lia.
Qed.

(** X6: whatever is called on the module, in whatever order - deliveries
    with retry, deliveries without retry, [handleCallbackWorkerLost],
    [stopAllCallbackRetries] - and however the posts, the should-retry
    functions and the timers answer, [pendingCallbacksCount] is the number
    of calls of [callbackWithRetry] that have not returned plus the number
    of those that returned because the stop flag was up, which return
    without [decrementPendingCallbacksCount].  So as long as
    [stopAllCallbackRetries] has not been called, it is the number of
    calls that have not returned.  A delivery without retry is never
    counted. *)
Theorem X6_pending_callbacks_count_all_entry_points cfg evs s :
  run (CallbackApi.step cfg) evs CallbackApi.init = Some s →
  pendingCallbacksCount (retry s)
  = unreturned (loops (retry s)) + halted_loops (loops (retry s)) ∧
  (stopCallbackRetry (retry s) = false →
   halted_loops (loops (retry s)) = 0 ∧
   pendingCallbacksCount (retry s) = unreturned (loops (retry s))).
Proof.
  intros Hrun.
  assert (H1 : pendingCallbacksCount (retry s) - pending (loops (retry s))
               = 0).
  { revert Hrun. apply (run_invariant (CallbackApi.step cfg)
      (λ s, pendingCallbacksCount (retry s) - pending (loops (retry s)) = 0)).
    - intros e s1 s2 H1 Hstep. by rewrite (api_step_counter _ _ _ _ Hstep).
    - done. }
  assert (H2 : stopCallbackRetry (retry s) = false →
               halted_loops (loops (retry s)) = 0).
  { revert Hrun. apply (run_invariant (CallbackApi.step cfg)
      (λ s, stopCallbackRetry (retry s) = false →
            halted_loops (loops (retry s)) = 0)).
    - intros e s1 s2 IH Hstep Hflag.
      destruct (api_step_halted _ _ _ _ Hstep Hflag) as [Hflag1 ->].
      by apply IH.
    - done. }
  rewrite pending_unreturned in H1. split; [lia|].
  intros Hflag. specialize (H2 Hflag). split; lia.
Qed.

Lemma X6_pending_callbacks_count_all_entry_points_witness :
  let evs := [Retry (SetData sample_args); Retry (Call sample_args 0 0);
              Once sample_args_predicate 0 (Answered 200 0) 5;
              WorkerLost "cb-1" None; GotBackup 0 20 20;
              Retry sample_answer] in
  let s := default CallbackApi.init
             (run (CallbackApi.step sample_config) evs CallbackApi.init) in
  run (CallbackApi.step sample_config) evs CallbackApi.init = Some s ∧
  stopCallbackRetry (retry s) = false ∧
  unreturned (loops (retry s)) = 1 ∧
  pendingCallbacksCount (retry s) = 1.
Proof.
  intros evs s.
  assert (H : run (CallbackApi.step sample_config) evs CallbackApi.init
              = Some s) by (vm_compute; reflexivity).
  assert (Hf : stopCallbackRetry (retry s) = false)
    by (vm_compute; reflexivity).
  assert (Hu : unreturned (loops (retry s)) = 1)
    by (vm_compute; reflexivity).
  split; [exact H|]. split; [exact Hf|]. split; [exact Hu|].
  destruct (X6_pending_callbacks_count_all_entry_points sample_config evs s H)
    as [_ Hc].
  destruct (Hc Hf) as [_ ->]. exact Hu.
Defined.

(** X5: [handleCallbackWorkerLost] reads the record saved under [cbId].
    When there is none it does nothing.  When there is one, it enters
    [callbackWithRetry] with the fields of the record, and with the [cbId]
    and the [deadline] of its own call in place of those of the record:
    the counter goes up by one, the record stays, and unless the retries
    were stopped a new loop starts with its first POST. *)
Theorem X5_worker_lost_restarts_from_the_record cfg s cbId deadline now now' :
  let s1 := handleCallbackWorkerLost cbId deadline s in
  let n := length (lost s) in
  ∃ s2, CallbackApi.step cfg (GotBackup n now now') s1 = Some s2 ∧
    match cacheDb (retry s) !! cbId with
    | None => retry s2 = retry s
    | Some data =>
        retry s2 = callbackWithRetry cfg (restored cbId deadline data)
                     now now' (retry s) ∧
        cacheDb (retry s2) = cacheDb (retry s) ∧
        pendingCallbacksCount (retry s2)
        = pendingCallbacksCount (retry s) + 1 ∧
        (stopCallbackRetry (retry s) = false →
         loops (retry s2) !! length (loops (retry s)) =
           Some {| args := restored cbId deadline data; startTime := now;
                   pc := AwaitPost |} ∧
         posts (retry s2) = posts (retry s) ++ [length (loops (retry s))])
    end.
Proof.
  intros s1 n. subst s1 n. unfold handleCallbackWorkerLost. simpl.
  rewrite list_lookup_middle by done. simpl. eexists. split; [done|].
  unfold handleCallbackWorkerLost_resolved. simpl.
  destruct (cacheDb (retry s) !! cbId) as [data|]; simpl; [|done].
  split; [done|].
  assert (Hd : cacheDb (callbackWithRetry cfg (restored cbId deadline data)
                          now now' (retry s)) = cacheDb (retry s)).
  { unfold_turns. repeat case_match; done. }
  split; [done|]. split.
  { pose proof (step_counter_delta cfg (Call (restored cbId deadline data)
                  now now') (retry s) _ eq_refl) as H. simpl in H. lia. }
  intros Hstop.
  destruct (call_enters cfg (restored cbId deadline data) now now'
              (retry s) Hstop) as (H1 & H2 & _). done.
Qed.

(** ** Delivery and timeout *)

(** X1: a POST that is answered ends the delivery, whatever the status of
    the answer (a 500 as well as a 200), as long as the body is within the
    size limit: the loop returns, the saved record is removed, the counter
    goes down by one, [callbackTime] is emitted with the status, and the
    response callback, if one was named, is called with the response.  The
    delivery is over: no later turn is open to the loop. *)
Theorem X1_any_answer_ends_the_retries cfg s i l st size nextRetry now nowD
    nowE :
  loops s !! i = Some l → pc l = AwaitPost →
  size ≤ RESPONSE_BODY_SIZE_LIMIT →
  ∃ s', Callback.step cfg
          (Posted i (Answered st size) nextRetry now nowD nowE) s = Some s' ∧
    pc_of i s' = Some (Returned Delivered) ∧
    cacheDb s' = delete (cbId (args l)) (cacheDb s) ∧
    pendingCallbacksCount s' = pendingCallbacksCount s - 1 ∧
    emitted s' =
      emitted s ++ [pendingCallbacksCountIs (pendingCallbacksCount s - 1);
                    callbackTime st (negb (size =? 0))
                      (now - Callback.startTime l)] ∧
    handled s' =
      handled s ++
      (if truthy_str (responseCallbackFnName (args l))
       then [{| fnName := default "" (responseCallbackFnName (args l));
                arg := WithResponse {| status := st; bodySize := size |};
                data := dataForResponseCallback (args l) |}]
       else []) ∧
    over cfg i Delivered s'.
Proof.
  intros Hi Hpc Hsize. eexists. simpl. rewrite Hi. simpl. rewrite Hpc.
  split; [done|].
  assert (Hlt : (i < length (loops s))%nat) by by eapply lookup_lt_Some.
  assert (Hpost : httpPost (Answered st size)
                  = inr {| status := st; bodySize := size |}).
  { unfold httpPost.
    destruct (Z.ltb_spec RESPONSE_BODY_SIZE_LIMIT size); [lia|done]. }
  unfold posted. rewrite Hpost.
  assert (Hpc' : pc_of i (posted_resolved cfg i l
                   {| status := st; bodySize := size |} now s)
                 = Some (Returned Delivered)).
  { unfold pc_of. unfold_turns.
    destruct (decide (mode cfg = WORKER)),
      (truthy_str (responseCallbackFnName (args l))); simpl;
      by rewrite list_lookup_insert_eq by done. }
  split; [done|]. split; [|split; [|split; [|split]]].
  - unfold_turns. by repeat case_match.
  - unfold_turns. by repeat case_match.
  - unfold_turns. repeat case_match; simpl; by rewrite <- app_assoc.
  - unfold_turns. repeat case_match; simpl; by rewrite ?app_nil_r.
  - by apply returned_over.
Qed.

Lemma X1_any_answer_ends_the_retries_witness :
  let s := sample_state sample_args in
  let l := {| args := sample_args; Callback.startTime := 0;
              pc := AwaitPost |} in
  (loops s !! 0%nat = Some l ∧ pc l = AwaitPost ∧
   2 ≤ RESPONSE_BODY_SIZE_LIMIT) ∧
  ∃ s', Callback.step sample_config sample_answer s = Some s' ∧
        pc_of 0 s' = Some (Returned Delivered) ∧
        pendingCallbacksCount s' = pendingCallbacksCount s - 1.
Proof.
  intros s l.
  assert (H1 : loops s !! 0%nat = Some l) by (vm_compute; reflexivity).
  assert (H2 : pc l = AwaitPost) by reflexivity.
  assert (H3 : 2 ≤ RESPONSE_BODY_SIZE_LIMIT) by (vm_compute; discriminate).
  split; [exact (conj H1 (conj H2 H3))|].
  destruct (X1_any_answer_ends_the_retries sample_config s 0 l 500 2 5000
              10 10 10 H1 H2 H3) as (s' & Hs & Hpc & _ & Hc & _).
  exists s'. exact (conj Hs (conj Hpc Hc)).
Defined.

(** X2: a failed POST of a delivery that has neither a should-retry
    function nor a deadline (and did not fail on the size of the body).
    The delivery is given up exactly when the time since its start plus
    the delay before the next attempt exceeds [callbackRetryTimeout]
    seconds: then the record is removed, the counter goes down by one and
    [callbackTimedOut] is emitted.  Otherwise the loop sleeps for that
    delay, and record, counter and metrics are as before.  The response
    callback is called in neither case. *)
Theorem X2_give_up_when_next_retry_is_too_late cfg s i l e nextRetry now
    nowD nowE :
  loops s !! i = Some l → pc l = AwaitPost →
  is_max_size e = false →
  truthy_str (shouldRetryFnName (args l)) = false →
  truthy_num (deadline (args l)) = false →
  ∃ s', Callback.step cfg
          (Posted i (Failed e) nextRetry now nowD nowE) s = Some s' ∧
    handled s' = handled s ∧
    if nowE - Callback.startTime l + nextRetry
       >? callbackRetryTimeout cfg * 1000
    then
      pc_of i s' = Some (Returned TimedOut) ∧
      cacheDb s' = delete (cbId (args l)) (cacheDb s) ∧
      pendingCallbacksCount s' = pendingCallbacksCount s - 1 ∧
      emitted s' =
        emitted s ++ [pendingCallbacksCountIs (pendingCallbacksCount s - 1);
                      callbackTimedOut] ∧
      over cfg i TimedOut s'
    else
      pc_of i s' = Some (AwaitWait nextRetry false) ∧
      cacheDb s' = cacheDb s ∧
      pendingCallbacksCount s' = pendingCallbacksCount s ∧
      emitted s' = emitted s.
Proof.
  intros Hi Hpc He Hfn Hd. eexists. simpl. rewrite Hi. simpl. rewrite Hpc.
  split; [done|].
  assert (Hlt : (i < length (loops s))%nat) by by eapply lookup_lt_Some.
  unfold posted, posted_rejected. simpl. rewrite He, Hfn, Hd. simpl.
  destruct (_ >? _) eqn:Hlate.
  - split; [done|].
    assert (Hpc' : ∀ s0, loops s0 = loops s →
              pc_of i (goto i l (Returned TimedOut) s0)
              = Some (Returned TimedOut)).
    { intros s0 E. unfold pc_of, goto. simpl. rewrite E.
      by rewrite list_lookup_insert_eq by done. }
    split; [by apply Hpc'|]. split; [done|]. split; [done|].
    split; [simpl; by rewrite <- app_assoc|].
    apply returned_over. by apply Hpc'.
  - split; [done|]. unfold pc_of. unfold_turns. simpl.
    by rewrite list_lookup_insert_eq by done.
Qed.

Lemma X2_give_up_when_next_retry_is_too_late_witness :
  let s := sample_state sample_args in
  let l := {| args := sample_args; Callback.startTime := 0;
              pc := AwaitPost |} in
  (loops s !! 0%nat = Some l ∧ pc l = AwaitPost ∧
   is_max_size (FetchError "system") = false ∧
   truthy_str (shouldRetryFnName (args l)) = false ∧
   truthy_num (deadline (args l)) = false) ∧
  ∃ s', Callback.step sample_config sample_failure s = Some s' ∧
        handled s' = handled s.
Proof.
  intros s l.
  assert (H1 : loops s !! 0%nat = Some l) by (vm_compute; reflexivity).
  split; [exact (conj H1 (conj eq_refl (conj eq_refl
                   (conj eq_refl eq_refl))))|].
  destruct (X2_give_up_when_next_retry_is_too_late sample_config s 0 l
              (FetchError "system") 5000 10 10 10 H1 eq_refl eq_refl
              eq_refl eq_refl) as (s' & Hs & Hh & _).
  exists s'. exact (conj Hs Hh).
Defined.

Lemma remove_first_NoDup x a r :
  NoDup a → remove_first x a = Some r →
  NoDup r ∧ ∀ y, y ∈ r ↔ y ∈ a ∧ y ≠ x.
Proof.
  revert r. induction a as [|z a IH]; intros r Hnd Hr; simpl in Hr; [done|].
  apply NoDup_cons in Hnd as [Hz Hnd]. case_decide as Hxz.
  - injection Hr as <-. subst z. split; [done|]. intros y. split.
    + intros Hy. split; [by apply elem_of_cons; right|]. by intros ->.
    + intros [[->|Hy]%elem_of_cons Hne]; done.
  - destruct (remove_first x a) as [r'|] eqn:Hr'; [|done].
    injection Hr as <-. destruct (IH r' Hnd eq_refl) as [Hnd' Hin]. split.
    + apply NoDup_cons. split; [|done]. intros Hz'. apply Hin in Hz'.
      by destruct Hz'.
    + intros y. rewrite !elem_of_cons, Hin. split.
      * intros [->|[? ?]]; [split; [by left|done]|split; [by right|done]].
      * intros [[->|?] ?]; [by left|by right].
Qed.

Lemma exact_awake ls wp j lj lj' :
  ls !! j = Some lj → asleep lj = false → asleep lj' = false →
  handles_exact ls wp → handles_exact (<[j:=lj']> ls) wp.
Proof.
  intros Hj Ha Ha' [Hnd Hin]. split; [done|]. intros i. rewrite Hin.
  destruct (decide (i = j)) as [->|Hne].
  - rewrite list_lookup_insert_eq by by eapply lookup_lt_Some. rewrite Hj.
    split; intros (l & [= <-] & Hl); congruence.
  - by rewrite list_lookup_insert_ne by done.
Qed.

Lemma exact_sleep ls wp j lj lj' :
  ls !! j = Some lj → asleep lj = false → asleep lj' = true →
  handles_exact ls wp → handles_exact (<[j:=lj']> ls) (wp ++ [j]).
Proof.
  intros Hj Ha Ha' [Hnd Hin]. split.
  - apply NoDup_app. split; [done|]. split; [|apply NoDup_singleton].
    intros i Hi [= ->]%list_elem_of_singleton.
    apply Hin in Hi as (l & Hl & Hsl). congruence.
  - intros i. rewrite elem_of_app, list_elem_of_singleton, Hin.
    destruct (decide (i = j)) as [->|Hne].
    + rewrite list_lookup_insert_eq by by eapply lookup_lt_Some.
      split; [eauto|by right].
    + rewrite list_lookup_insert_ne by done. split; [|by left].
      by intros [?|?].
Qed.

Lemma exact_wake ls wp j lj lj' :
  ls !! j = Some lj → asleep lj = true → asleep lj' = false →
  handles_exact ls wp →
  handles_exact (<[j:=lj']> ls) (splice_indexOf j wp).
Proof.
  intros Hj Ha Ha' [Hnd Hin].
  assert (Hjin : j ∈ wp) by (apply Hin; eauto).
  unfold splice_indexOf.
  destruct (remove_first_found j wp Hjin) as [r Hr]. rewrite Hr.
  destruct (remove_first_NoDup _ _ _ Hnd Hr) as [Hnd' Hin']. split; [done|].
  intros i. rewrite Hin', Hin.
  destruct (decide (i = j)) as [->|Hne].
  - rewrite list_lookup_insert_eq by by eapply lookup_lt_Some.
    split; [by intros [_ ?]|]. intros (l & [= <-] & Hl). congruence.
  - rewrite list_lookup_insert_ne by done. split; [by intros [? _]|done].
Qed.

Lemma exact_snoc ls wp l :
  asleep l = false → handles_exact ls wp → handles_exact (ls ++ [l]) wp.
Proof.
  intros Ha [Hnd Hin]. split; [done|]. intros i. rewrite Hin. split.
  - intros (l' & Hl & Hs). exists l'. split; [|done].
    by apply lookup_app_l_Some.
  - intros (l' & Hl & Hs). apply lookup_app_Some in Hl as [Hl|[_ Hl]];
      [eauto|]. apply list_lookup_singleton_Some in Hl as [_ <-]. congruence.
Qed.

Lemma exact_stop ls wp k : handles_exact ls wp → handles_exact (stop ls k) wp.
Proof.
  intros [Hnd Hin]. split; [done|]. intros i. rewrite Hin. unfold stop.
  destruct (ls !! k) as [lk|] eqn:Hk; [|done].
  destruct (pc lk) eqn:Hpc; try done.
  destruct (decide (i = k)) as [->|Hne].
  - rewrite list_lookup_insert_eq by by eapply lookup_lt_Some. rewrite Hk.
    split; intros (l' & [= <-] & Hl); eexists; (split; [done|]);
      unfold asleep; simpl; by rewrite ?Hpc.
  - by rewrite list_lookup_insert_ne by done.
Qed.

Lemma exact_foldl_stop ks ls wp :
  handles_exact ls wp → handles_exact (foldl stop ls ks) wp.
Proof.
  revert ls. induction ks as [|k ks IH]; intros ls H; simpl; [done|].
  by apply IH, exact_stop.
Qed.

Lemma step_handles_exact cfg e s s' :
  handles_exact (loops s) (waitPromises s) →
  Callback.step cfg e s = Some s' →
  handles_exact (loops s') (waitPromises s').
Proof.
  intros Hex Hstep.
  destruct e as [a|a now now'|j r n' t tD tE|j d|j|];
    simpl in Hstep; try (injection Hstep as <-);
    try (destruct (loops s !! j) as [lj|] eqn:Hj; [|done]; simpl in Hstep;
         destruct (pc lj) eqn:Hpcj; try done; injection Hstep as <-).
  - done.
  - set (l := {| args := a; Callback.startTime := now; pc := AwaitPost |}).
    assert (Hl : (loops s ++ [l]) !! length (loops s) = Some l)
      by by apply list_lookup_middle.
    pose proof (exact_snoc _ _ l eq_refl Hex) as H1.
    unfold_turns. fold l.
    destruct (decide (mode cfg = WORKER)),
      (stopCallbackRetry s) eqn:Hs; simpl; rewrite Hs; simpl;
      by eapply exact_awake.
  - unfold_turns.
    repeat case_match; simpl;
      first [by eapply exact_awake; [done|by unfold asleep; rewrite Hpcj|..]
            |by eapply exact_sleep; [done|by unfold asleep; rewrite Hpcj|..]].
  - unfold_turns.
    repeat case_match; simpl;
      first [by eapply exact_awake; [done|by unfold asleep; rewrite Hpcj|..]
            |by eapply exact_sleep; [done|by unfold asleep; rewrite Hpcj|..]].
  - unfold_turns.
    repeat case_match; simpl;
      by eapply exact_wake; [done|by unfold asleep; rewrite Hpcj|..].
  - unfold_turns. simpl. by apply exact_foldl_stop.
Qed.

Lemma reachable_handles_exact cfg evs s :
  run (Callback.step cfg) evs Callback.init = Some s →
  handles_exact (loops s) (waitPromises s).
Proof.
  apply (run_invariant (Callback.step cfg)
           (λ s, handles_exact (loops s) (waitPromises s))).
  - intros e s1 s2. apply step_handles_exact.
  - split; [constructor|]. intros i. split; [by intros ?%elem_of_nil|].
    by intros (l & ? & _).
Qed.

(** X3: at any time, [waitPromises] holds the promises of exactly the
    loops that sleep between two attempts, each once.  So
    [waitPromises.indexOf] always finds the promise of the loop that wakes,
    and [splice] removes that promise and no other. *)
Theorem X3_wait_promises_are_the_sleeping_loops cfg evs s :
  run (Callback.step cfg) evs Callback.init = Some s →
  NoDup (waitPromises s) ∧
  (∀ i, i ∈ waitPromises s ↔ ∃ n b, pc_of i s = Some (AwaitWait n b)) ∧
  (∀ i n b, pc_of i s = Some (AwaitWait n b) →
     ∀ j, j ∈ splice_indexOf i (waitPromises s) ↔
          j ∈ waitPromises s ∧ j ≠ i).
Proof.
  intros Hrun. destruct (reachable_handles_exact _ _ _ Hrun) as [Hnd Hin].
  assert (Hiff : ∀ i, i ∈ waitPromises s ↔
                      ∃ n b, pc_of i s = Some (AwaitWait n b)).
  { intros i. rewrite Hin. unfold pc_of, asleep. split.
    - intros (l & -> & Hl). simpl. destruct (pc l); try done. eauto.
    - intros (n & b & Hpc). destruct (loops s !! i) as [l|]; [|done].
      injection Hpc as Hpc. exists l. by rewrite Hpc. }
  split; [done|]. split; [done|].
  intros i n b Hpc j. unfold splice_indexOf.
  assert (Hi : i ∈ waitPromises s) by (apply Hiff; eauto).
  destruct (remove_first_found i _ Hi) as [r Hr]. rewrite Hr.
  by destruct (remove_first_NoDup _ _ _ Hnd Hr) as [_ ?].
Qed.

Lemma X3_wait_promises_are_the_sleeping_loops_witness :
  let evs := [SetData sample_args; Call sample_args 0 0; sample_failure] in
  let s := default Callback.init
             (run (Callback.step sample_config) evs Callback.init) in
  run (Callback.step sample_config) evs Callback.init = Some s ∧
  NoDup (waitPromises s) ∧
  (∀ i, i ∈ waitPromises s ↔ ∃ n b, pc_of i s = Some (AwaitWait n b)).
Proof.
  intros evs s.
  assert (H : run (Callback.step sample_config) evs Callback.init = Some s)
    by (vm_compute; reflexivity).
  split; [exact H|].
  destruct (X3_wait_promises_are_the_sleeping_loops sample_config evs s H)
    as (H1 & H2 & _).
  exact (conj H1 H2).
Defined.

(** ** The table of pending timers *)

Lemma step_pendingCallback_standalone cfg e s s' :
  mode cfg ≠ WORKER → Callback.step cfg e s = Some s' →
  pendingCallback s' = pendingCallback s.
Proof.
  intros Hm Hstep.
  destruct e as [a|a now now'|j r n' t tD tE|j d|j|];
    simpl in Hstep; try (injection Hstep as <-);
    try (destruct (loops s !! j) as [lj|] eqn:Hj; [|done]; simpl in Hstep;
         destruct (pc lj) eqn:Hpcj; try done; injection Hstep as <-);
    unfold_turns; repeat case_match; done.
Qed.

(** X4: the table [pendingCallback], by which a worker tells the master of
    its timers.  Outside worker mode it stays empty.  In any mode an entry
    leaves the table in one way only: the POST of a loop with that [cbId]
    is answered and the loop returns as delivered.  A delivery that is
    given up (timed out, refused by its should-retry function, body too
    large) or stopped leaves its entry in the table. *)
Theorem X4_pending_timers_cleared_by_delivery_only cfg evs s :
  run (Callback.step cfg) evs Callback.init = Some s →
  (mode cfg ≠ WORKER → pendingCallback s = ∅) ∧
  ∀ e s' id d,
    Callback.step cfg e s = Some s' →
    pendingCallback s !! id = Some d →
    pendingCallback s' !! id = None →
    ∃ i l r nextRetry now nowD nowE,
      e = Posted i r nextRetry now nowD nowE ∧
      loops s !! i = Some l ∧ cbId (args l) = id ∧
      pc_of i s' = Some (Returned Delivered).
Proof.
  intros Hrun. split.
  - intros Hm. revert Hrun.
    apply (run_invariant (Callback.step cfg) (λ s, pendingCallback s = ∅));
      [|done].
    intros e s1 s2 H1 Hstep.
    by rewrite (step_pendingCallback_standalone _ _ _ _ Hm Hstep).
  - intros e s' id d Hstep Hd Hnone.
    destruct e as [a|a now now'|j r n' t tD tE|j dc|j|];
      simpl in Hstep; try (injection Hstep as <-);
      try (destruct (loops s !! j) as [lj|] eqn:Hj; [|done]; simpl in Hstep;
           destruct (pc lj) eqn:Hpcj; try done; injection Hstep as <-).
    + exfalso. revert Hnone. unfold_turns. simpl. congruence.
    + exfalso. revert Hnone. unfold_turns.
      destruct (decide (mode cfg = WORKER)),
        (stopCallbackRetry s) eqn:Hs; simpl; rewrite ?Hs; simpl;
        try congruence;
        (destruct (decide (cbId a = id)) as [<-|Hne];
         [by rewrite lookup_insert_eq
         |rewrite lookup_insert_ne by done; congruence]).
    + assert (Hlt : (j < length (loops s))%nat) by by eapply lookup_lt_Some.
      unfold posted in *. destruct (httpPost r) as [error|responseObj].
      * exfalso. revert Hnone. unfold_turns.
        repeat case_match; simpl; congruence.
      * exists j, lj, r, n', t, tD, tE. split; [done|]. split; [done|].
        split.
        -- revert Hnone. unfold_turns.
           destruct (decide (mode cfg = WORKER)),
             (truthy_str (responseCallbackFnName (args lj))); simpl;
             try congruence;
             (destruct (decide (cbId (args lj) = id)) as [<-|Hne]; [done|];
              rewrite lookup_delete_ne by done; congruence).
        -- unfold pc_of. unfold_turns.
           destruct (decide (mode cfg = WORKER)),
             (truthy_str (responseCallbackFnName (args lj))); simpl;
             by rewrite list_lookup_insert_eq by done.
    + exfalso. revert Hnone. unfold_turns.
      repeat case_match; simpl; congruence.
    + exfalso. revert Hnone. unfold_turns.
      repeat case_match; simpl; congruence.
    + exfalso. revert Hnone. unfold_turns. simpl. congruence.
Qed.

Lemma X4_pending_timers_cleared_by_delivery_only_witness :
  let evs := [SetData sample_args; Call sample_args 0 0; sample_failure] in
  let s := default Callback.init
             (run (Callback.step sample_config) evs Callback.init) in
  run (Callback.step sample_config) evs Callback.init = Some s ∧
  pendingCallback s = ∅.
Proof.
  intros evs s.
  assert (H : run (Callback.step sample_config) evs Callback.init = Some s)
    by (vm_compute; reflexivity).
  split; [exact H|].
  destruct (X4_pending_timers_cleared_by_delivery_only sample_config evs s H)
    as [H1 _].
  apply H1. discriminate.
Defined.

End CallbackApiTheory.

Module QueueGaugesTheory.
Import Queue QueueTheory QueueGauges.

Lemma sum_lengths_insert_new m k q :
  m !! k = None →
  sum_lengths (<[k := q]> m) = Z.of_nat (length q) + sum_lengths m.
Proof.
  intros H. unfold sum_lengths.
  rewrite map_fold_insert_L; [done| |done]. intros. lia.
Qed.

Lemma sum_lengths_delete m k q :
  m !! k = Some q →
  sum_lengths (delete k m) = sum_lengths m - Z.of_nat (length q).
Proof.
  intros H. unfold sum_lengths.
  rewrite (map_fold_delete_L _ _ k q m); [lia| |done]. intros. lia.
Qed.

Lemma sum_lengths_insert m k q q' :
  m !! k = Some q →
  sum_lengths (<[k := q']> m)
  = sum_lengths m - Z.of_nat (length q) + Z.of_nat (length q').
Proof.
  intros H. rewrite <- insert_delete_eq.
  rewrite sum_lengths_insert_new by apply lookup_delete_eq.
  rewrite (sum_lengths_delete _ _ _ H). lia.
Qed.

Lemma running_job_counts mode s n j :
  (∀ k, ∃ l0, inv mode k l0 s) →
  jobs s !! n = Some j → job_running j = true →
  requestQueueRunning s !! job_requestId j = Some true ∧
  inherited (job_requestId j) = false.
Proof.
  intros Hinv Hn Hrun.
  destruct (Hinv (job_requestId j)) as [l0 [Hc Hf _ _ Hi]].
  assert (Hflag : requestQueueRunning s !! job_requestId j = Some true).
  { apply Hf.
    pose proof (total_one (is_running (job_requestId j)) (jobs s) n j
                  (λ z, proj1 (is_running_range _ z)) Hn) as H.
    unfold running_count in *. unfold is_running in H at 1.
    rewrite Hrun, bool_decide_true in H by done. simpl in H. lia. }
  split; [done|].
  destruct (inherited (job_requestId j)); [|done].
  destruct (Hi eq_refl) as [Hnone _]. congruence.
Qed.

Lemma gauges_frame r s s' :
  requestQueue s' = requestQueue s →
  requestQueueRunning s' = requestQueueRunning s →
  requestsInQueueCount s' = requestsInQueueCount s →
  pendingTasksInQueueCount s' = pendingTasksInQueueCount s →
  processingTasksCount s' = processingTasksCount s →
  gauges r s → gauges r s'.
Proof.
  intros E1 E2 E3 E4 E5 [G1 G2 G3 G4].
  split; unfold waiting in *; rewrite ?E1, ?E2, ?E3, ?E4, ?E5; done.
Qed.

(** The start-up recovery makes a queue for each entry and counts its
    tasks as pending. *)
Lemma restore_sizes (l : list (string * list Task))
    (m : gmap string (list Task)) :
  NoDup l.*1 → (∀ k, k ∈ l.*1 → m !! k = None) →
  let m' := foldl (λ m entry, <[entry.1 := entry.2]> m) m l in
  size m' = (size m + length l)%nat ∧
  sum_lengths m'
  = sum_lengths m + total (λ entry, Z.of_nat (length entry.2)) l.
Proof.
  revert m. induction l as [|[k q] l IH]; intros m Hnd Hm; simpl.
  - rewrite total_nil. split; lia.
  - rewrite fmap_cons in Hnd. apply NoDup_cons in Hnd as [Hk Hnd].
    simpl in *.
    assert (Hmk : m !! k = None) by (apply Hm; by left).
    destruct (IH (<[k:=q]> m) Hnd) as [-> ->].
    + intros k' Hk'. rewrite lookup_insert_ne by (by intros ->).
      apply Hm. by right.
    + rewrite map_size_insert_None, sum_lengths_insert_new by done.
      rewrite total_cons. simpl. split; lia.
Qed.

Lemma gauges_step mode r e s s' :
  (∀ k, ∃ l0, inv mode k l0 s) → gauges r s → step mode e s = Some s' →
  gauges (r + match e with
              | Restore l => Z.of_nat (length l)
              | _ => 0
              end) s'.
Proof.
  intros Hinv [G1 G2 G3 G4] Hstep. unfold waiting in *.
  fold (sum_lengths (requestQueue s)) in G2.
  destruct e as [l|k t|n|now now'|n|n ok now]; simpl in Hstep;
    rewrite ?Z.add_0_r.
  - case_decide as Hrec; [|done]. injection Hstep as <-.
    destruct Hrec as (-> & Hnd & _). simpl in G1.
    destruct (restore_frame l (set_persistentQueue (list_to_map l) init))
      as (Hq & Hr & Hp & Hc & Hn & _).
    destruct (restore_sizes l ∅ Hnd) as [Hsz Hsum]; [done|].
    simpl in *.
    split; unfold waiting; rewrite ?Hq, ?Hr, ?Hp, ?Hc, ?Hn; simpl.
    + rewrite Hsz. rewrite map_size_empty in *. lia.
    + fold (sum_lengths
              (foldl (λ m entry, <[entry.1 := entry.2]> m) ∅ l)).
      rewrite Hsum. done.
    + done.
    + done.
  - injection Hstep as <-. unfold addTaskToQueue.
    destruct (requestQueue s !! k) as [q|] eqn:Hq;
      [|destruct (inherited k)].
    + by apply (gauges_frame r s).
    + by apply (gauges_frame r s).
    + split; unfold waiting; simpl.
      * rewrite map_size_insert_None by done. lia.
      * fold (sum_lengths (<[k:=[]]> (requestQueue s))).
        rewrite sum_lengths_insert_new by done. simpl. lia.
      * done.
      * done.
  - destruct (adds s !! n) as [a|]; [|done]. simpl in Hstep.
    destruct (add_awaiting a); [|done]. injection Hstep as <-.
    unfold addTaskToQueue_persisted. simpl.
    destruct (requestQueue s !! add_requestId a) as [q|] eqn:Hq.
    + split; unfold waiting; simpl.
      * rewrite map_size_insert_Some by done. done.
      * fold (sum_lengths (<[add_requestId a:=q ++ [add_taskData a]]>
                             (requestQueue s))).
        rewrite (sum_lengths_insert _ _ _ _ Hq), length_app. simpl. lia.
      * done.
      * done.
    + by apply (gauges_frame r s).
  - destruct (immediates s) as [|k rest]; [done|]. injection Hstep as <-.
    unfold executeTaskInQueue. simpl.
    destruct (truthy_at (requestQueueRunning s) k) eqn:Hflag;
      [by apply (gauges_frame r s)|].
    apply truthy_at_false in Hflag as [Hflag _].
    destruct (requestQueue s !! k) as [[|task q]|] eqn:Hq.
    + split; unfold waiting; simpl.
      * rewrite map_size_delete, Hq. simpl.
        assert (size (requestQueue s) ≠ 0%nat).
        { intros H0. apply map_size_empty_inv in H0. rewrite H0 in Hq.
          by rewrite lookup_empty in Hq. }
        lia.
      * fold (sum_lengths (delete k (requestQueue s))).
        rewrite (sum_lengths_delete _ _ _ Hq). simpl. lia.
      * done.
      * done.
    + assert (Hnone : requestQueueRunning s !! k = None).
      { destruct (requestQueueRunning s !! k) as [b|] eqn:Hb; [|done].
        by rewrite (G4 _ _ Hb) in Hflag. }
      assert (G : gauges r
        (incrementProcessingTasksCount
           (notifyTaskPendingTime now (startTime task)
              (decrementPendingTasksInQueueCount
                 (set_requestQueueRunning
                    (<[k:=true]> (requestQueueRunning s))
                    (set_requestQueue (<[k:=q]> (requestQueue s))
                       (set_immediates rest s))))))).
      { split; unfold waiting; simpl.
        * rewrite map_size_insert_Some by done. done.
        * fold (sum_lengths (<[k:=q]> (requestQueue s))).
          rewrite (sum_lengths_insert _ _ _ _ Hq). simpl length. lia.
        * rewrite map_size_insert_None by done. lia.
        * intros k' b. destruct (decide (k = k')) as [<-|Hne].
          -- rewrite lookup_insert_eq. congruence.
          -- rewrite lookup_insert_ne by done. apply G4. }
      destruct mode; [| |done]; revert G; apply gauges_frame; simpl;
        reflexivity.
    + by apply (gauges_frame r s).
  - destruct (jobs s !! n) as [j|] eqn:Hn; [|done]. simpl in Hstep.
    destruct (job_removing j); [|done]. injection Hstep as <-.
    by apply (gauges_frame r s).
  - destruct (jobs s !! n) as [j|] eqn:Hn; [|done]. simpl in Hstep.
    destruct (job_running j) eqn:Hrun; [|done]. injection Hstep as <-.
    destruct (running_job_counts mode s n j Hinv Hn Hrun) as [Hflag Hinh].
    unfold onTaskExecutionCallback, onTaskExecutionFinished.
    set (s0 := if ok then onTaskExecutionSuccess now (job_startTime j) s
               else onTaskExecutionFail s).
    assert (E1 : requestQueue s0 = requestQueue s) by by destruct ok.
    assert (E2 : requestQueueRunning s0 = requestQueueRunning s)
      by by destruct ok.
    assert (E3 : requestsInQueueCount s0 = requestsInQueueCount s)
      by by destruct ok.
    assert (E4 : pendingTasksInQueueCount s0 = pendingTasksInQueueCount s)
      by by destruct ok.
    assert (E5 : processingTasksCount s0 = processingTasksCount s)
      by by destruct ok.
    assert (Hsz : size (requestQueueRunning s) ≠ 0%nat).
    { intros H0. apply map_size_empty_inv in H0. rewrite H0 in Hflag.
      by rewrite lookup_empty in Hflag. }
    assert (G : gauges r
      (set_requestQueueRunning
         (delete (job_requestId j) (requestQueueRunning s0))
         (observe (Finished (job_requestId j) (job_task j))
            (decrementProcessingTasksCount s0)))).
    { split; unfold waiting; simpl; rewrite ?E1, ?E2, ?E3, ?E4, ?E5.
      * done.
      * done.
      * rewrite map_size_delete, Hflag. simpl. lia.
      * intros k' b Hl. apply lookup_delete_Some in Hl as [_ Hl].
        by apply G4 in Hl. }
    simpl. rewrite E1, Hinh.
    destruct (requestQueue s !! job_requestId j) as [[|t q]|] eqn:Hq.
    + destruct G as [G1' G2' G3' G4']. unfold waiting in *. simpl in *.
      split; unfold waiting; simpl.
      * rewrite E3, E1, map_size_delete, Hq. simpl.
        assert (size (requestQueue s) ≠ 0%nat).
        { intros H0. apply map_size_empty_inv in H0. rewrite H0 in Hq.
          by rewrite lookup_empty in Hq. }
        lia.
      * rewrite E4, E1.
        fold (sum_lengths (delete (job_requestId j) (requestQueue s))).
        rewrite (sum_lengths_delete _ _ _ Hq). simpl. lia.
      * done.
      * done.
    + destruct (job_promise j); revert G; by apply gauges_frame.
    + revert G; by apply gauges_frame.
Qed.

Lemma gauges_init : gauges 0 init.
Proof. by split. Qed.

Lemma gauges_reachable mode evs s :
  run (step mode) evs init = Some s → gauges (recoveredQueues evs) s.
Proof.
  intros Hrun. unfold recoveredQueues.
  rewrite <- (Z.add_0_l (total _ evs)), <- foldl_add_total.
  assert (H : (∀ k, ∃ l0, inv mode k l0 s) ∧
              gauges (foldl (λ r e, r + match e with
                                        | Restore l => Z.of_nat (length l)
                                        | _ => 0
                                        end) 0 evs) s); [|by destruct H].
  revert Hrun.
  apply (run_invariant_acc (step mode)
           (λ r s, (∀ k, ∃ l0, inv mode k l0 s) ∧ gauges r s)).
  - intros e r s1 s2 [Hi Hg] Hstep. split.
    + intros k. destruct (Hi k) as [l0 Hk]. eexists.
      by eapply queue_step_inv.
    + by eapply gauges_step.
  - split; [intros k; exists []; apply queue_init_inv|apply gauges_init].
Qed.

(** X7: at any time, [requestsInQueueCount] is the number of keys that
    have a queue in [requestQueue], less the number of queues that the
    start-up recovery made: [restoreTaskFromPersistentQueue] puts a queue
    in [requestQueue] without [incrementRequestsInQueueCount], and
    [cleanUpQueue] later counts it down like any other.  So without a
    recovery the counter is the number of queues, and after one it stays
    below it. *)
Theorem X7_requests_in_queue_count mode evs s :
  run (step mode) evs init = Some s →
  requestsInQueueCount s
  = Z.of_nat (size (requestQueue s)) - recoveredQueues evs ∧
  (recoveredQueues evs = 0 →
   requestsInQueueCount s = Z.of_nat (size (requestQueue s))) ∧
  (0 < recoveredQueues evs →
   requestsInQueueCount s < Z.of_nat (size (requestQueue s))).
Proof.
  intros Hrun. destruct (gauges_reachable mode evs s Hrun) as [G _ _ _].
  split; [done|]. split; intros; lia.
Qed.

Lemma X7_requests_in_queue_count_witness :
  let s := default init (run (step STANDALONE) sample_recovery init) in
  run (step STANDALONE) sample_recovery init = Some s ∧
  recoveredQueues sample_recovery = 1 ∧
  size (requestQueue s) = 0%nat ∧
  requestsInQueueCount s = -1.
Proof.
  intros s.
  assert (H : run (step STANDALONE) sample_recovery init = Some s)
    by (vm_compute; reflexivity).
  assert (Hr : recoveredQueues sample_recovery = 1)
    by (vm_compute; reflexivity).
  assert (Hz : size (requestQueue s) = 0%nat) by (vm_compute; reflexivity).
  split; [exact H|]. split; [exact Hr|]. split; [exact Hz|].
  destruct (X7_requests_in_queue_count STANDALONE sample_recovery s H)
    as [Hc _].
  rewrite Hc, Hr, Hz. reflexivity.
Defined.

(** X8: at any time, [pendingTasksInQueueCount] is the number of tasks
    that wait in the queues of all keys together: a task is counted from
    its [push] to the [shift] that starts it. *)
Theorem X8_pending_tasks_in_queue_count mode evs s :
  run (step mode) evs init = Some s →
  pendingTasksInQueueCount s = waiting s.
Proof. intros Hrun. by destruct (gauges_reachable mode evs s Hrun). Qed.

Lemma X8_pending_tasks_in_queue_count_witness :
  let s := default init (run (step STANDALONE) sample_schedule init) in
  run (step STANDALONE) sample_schedule init = Some s ∧
  pendingTasksInQueueCount s = waiting s.
Proof.
  intros s.
  assert (H : run (step STANDALONE) sample_schedule init = Some s)
    by (vm_compute; reflexivity).
  split; [exact H|].
  exact (X8_pending_tasks_in_queue_count STANDALONE sample_schedule s H).
Defined.

(** X9: at any time, [processingTasksCount] is the number of keys marked
    as running in [requestQueueRunning], and a key is in that table only
    with the mark [true]: the mark is removed, never set to [false]. *)
Theorem X9_processing_tasks_count mode evs s :
  run (step mode) evs init = Some s →
  processingTasksCount s = Z.of_nat (size (requestQueueRunning s)) ∧
  ∀ k b, requestQueueRunning s !! k = Some b → b = true.
Proof. intros Hrun. by destruct (gauges_reachable mode evs s Hrun). Qed.

Lemma X9_processing_tasks_count_witness :
  let s := default init (run (step STANDALONE) sample_schedule init) in
  run (step STANDALONE) sample_schedule init = Some s ∧
  processingTasksCount s = Z.of_nat (size (requestQueueRunning s)).
Proof.
  intros s.
  assert (H : run (step STANDALONE) sample_schedule init = Some s)
    by (vm_compute; reflexivity).
  split; [exact H|].
  destruct (X9_processing_tasks_count STANDALONE sample_schedule s H)
    as [H1 _].
  exact H1.
Defined.

End QueueGaugesTheory.

Module GateCleanUpTheory.
Import Gate GateTheory GateCleanUp.

(** X10: a message whose chain is neither the current one nor one seen
    before is refused with an error, and leaves nothing behind: it is not
    saved, no block is noted for it, it is never admitted to the task
    queue, and no sweep looks for it.  (For a message id that arrives
    once.) *)
Theorem X10_unrecognized_chain_leaves_no_trace chain h0 evs s i a :
  run step evs (init chain h0) = Some s →
  arrivals s !! i = Some a →
  arrived (arr_messageId a) s ≤ 1 →
  arr_pc a = Thrown →
  messageFromMQ s !! arr_messageId a = None ∧
  messageIdToProcessAtBlock s !! arr_messageId a = None ∧
  admitted (arr_messageId a) s = 0 ∧
  v_sweeps (view (arr_messageId a) s) = 0 ∧
  v_lookups (view (arr_messageId a) s) = 0.
Proof.
  intros Hrun Hi Hone Hpc.
  pose proof (arrived_once_sole s i a Hi Hone) as Hsole.
  pose proof (gate_run_inv _ _ _ _ _ Hrun Hsole (gate_init_inv _ _ chain h0))
    as [_ _ _ H4].
  pose proof (Forall_lookup_1 _ _ _ _ H4 Hi eq_refl) as Hp.
  rewrite Hpc in Hp. destruct Hp as (Hm & Hh & Ht).
  apply view_tickets_zero in Ht as (? & ? & ?). done.
Qed.

Lemma X10_unrecognized_chain_leaves_no_trace_witness :
  let s := default (init "ndid" 100)
             (run step sample_foreign (init "ndid" 100)) in
  let a := {| arr_messageId := "m0";
              arr_message := {| chain_id := "other"; height := 105;
                                request_id := "req-0" |};
              arr_pc := Thrown |} in
  (run step sample_foreign (init "ndid" 100) = Some s ∧
   arrivals s !! 0%nat = Some a ∧
   arrived "m0" s ≤ 1 ∧
   arr_pc a = Thrown) ∧
  messageFromMQ s !! "m0" = None ∧
  admitted "m0" s = 0.
Proof.
  intros s a.
  assert (H1 : run step sample_foreign (init "ndid" 100) = Some s)
    by (vm_compute; reflexivity).
  assert (H2 : arrivals s !! 0%nat = Some a) by (vm_compute; reflexivity).
  assert (H3 : arrived (arr_messageId a) s ≤ 1) by (vm_compute; discriminate).
  split; [exact (conj H1 (conj H2 (conj H3 eq_refl)))|].
  destruct (X10_unrecognized_chain_leaves_no_trace "ndid" 100 sample_foreign
              s 0 a H1 H2 H3 eq_refl) as (Hm & _ & Ha & _).
  exact (conj Hm Ha).
Defined.



Lemma admitted_zero_none mid s a :
  admitted mid s = 0 → a ∈ admissions s → swept mid a = false.
Proof.
  intros H0 Ha. unfold admitted in H0.
  pose proof (total_zero_Forall (is_admission mid) (admissions s)
                (λ z, proj1 (is_admission_range mid z)) H0) as Hall.
  rewrite Forall_forall in Hall. specialize (Hall a Ha).
  unfold is_admission in Hall. unfold swept.
  case_decide; [done|]. by rewrite bool_decide_false.
Qed.

Lemma cleaned_frame mid s s' :
  admissions s' = admissions s →
  (messageFromMQ s !! mid = None → messageFromMQ s' !! mid = None) →
  (messageIdToProcessAtBlock s !! mid = None →
   messageIdToProcessAtBlock s' !! mid = None) →
  cleaned mid s → cleaned mid s'.
Proof.
  intros Ea H1 H2 Hc Hex. rewrite Ea in Hex. destruct (Hc Hex). auto.
Qed.

Lemma cleaned_none mid s :
  (∀ a, a ∈ admissions s → swept mid a = false) → cleaned mid s.
Proof. intros H (a & Ha & Hs). by rewrite (H a Ha) in Hs. Qed.

Lemma cleaned_blockWait mid msg s i a :
  inv mid msg s → arrivals s !! i = Some a →
  arr_pc a = AwaitHasSeenChain →
  cleaned mid s → cleaned mid (blockWait i a s).
Proof.
  intros Hinv Hi Hpc Hc. unfold blockWait.
  destruct (latestBlockHeight s <=? height (arr_message a));
    [|by apply (cleaned_frame mid s)].
  destruct (decide (arr_messageId a = mid)) as [Hid|Hne].
  - apply cleaned_none. intros adm Hadm.
    destruct Hinv as [_ _ _ H4].
    pose proof (Forall_lookup_1 _ _ _ _ H4 Hi Hid) as Hp.
    rewrite Hpc in Hp. destruct Hp as (_ & _ & Ht).
    apply view_tickets_zero in Ht as (_ & _ & Ht).
    by apply (admitted_zero_none mid s).
  - apply (cleaned_frame mid s); try done; unfold_gate; simpl;
      by rewrite lookup_insert_ne.
Qed.

Lemma cleaned_snoc mid s s' adm :
  admissions s' = admissions s ++ [adm] → adm_finished adm = false →
  messageFromMQ s' = messageFromMQ s →
  messageIdToProcessAtBlock s' = messageIdToProcessAtBlock s →
  cleaned mid s → cleaned mid s'.
Proof.
  intros Ea Hf E1 E2 Hc (a & Ha & Hs). rewrite Ea in Ha. rewrite E1, E2.
  apply Hc. apply elem_of_app in Ha as [Ha|Ha]; [eauto|].
  apply list_elem_of_singleton in Ha as ->. unfold swept in Hs.
  by rewrite Hf, andb_false_r in Hs.
Qed.

Lemma cleaned_step mid msg e s s' :
  sole mid msg s' → inv mid msg s → cleaned mid s → step e s = Some s' →
  cleaned mid s'.
Proof.
  intros Hsole Hinv Hc Hstep.
  destruct e as [k m|i seen|i|i|i|h'|j|n|n]; simpl in Hstep.
  - injection Hstep as <-. unfold handleMessageFromMqWithBlockWait in *.
    set (a := {| arr_messageId := k; arr_message := m;
                 arr_pc := AwaitHasSeenChain |}) in *.
    set (s0 := set_arrivals (arrivals s ++ [a]) s) in *.
    assert (Hi : arrivals s0 !! length (arrivals s) = Some a).
    { simpl. by apply list_lookup_middle. }
    assert (Hc0 : cleaned mid s0) by by apply (cleaned_frame mid s).
    case_bool_decide; [done|].
    eapply cleaned_blockWait; try done.
    pose proof (arrive_inv mid msg s k m) as Harr.
    unfold handleMessageFromMqWithBlockWait in Harr. fold a s0 in Harr.
    assert (Hsole0 : sole mid msg s0).
    { revert Hsole. unfold blockWait.
      destruct (latestBlockHeight s0 <=? height (arr_message a));
        intros Hsole.
      - by refine (proj2 (sole_goto mid msg s0 _ _ a AwaitSave Hi _) Hsole).
      - by refine (proj2 (sole_goto mid msg s0 _ _ a ReturnedTrue Hi _) Hsole). }
    destruct (sole_snoc mid msg s s0 a eq_refl Hsole0) as [Hsole' Hnew].
    destruct Hinv as [H1 H2 H3 H4]. split; try done.
    + unfold arrived. simpl. rewrite total_snoc. intros E. apply H3.
      pose proof (is_arrival_range mid a).
      pose proof (total_nonneg (is_arrival mid) (arrivals s)
                    (λ z, proj1 (is_arrival_range mid z))).
      unfold arrived. lia.
    + simpl. apply Forall_app. split; [done|]. apply Forall_singleton.
      simpl. intros Hid. apply H3. by apply Hnew.
  - destruct (arrivals s !! i) as [a|] eqn:Hi; [|done]. simpl in Hstep.
    destruct (arr_pc a) eqn:Hpc; try done. injection Hstep as <-.
    unfold hasSeenChain_resolved. destruct seen; simpl.
    + by eapply cleaned_blockWait.
    + by apply (cleaned_frame mid s).
  - destruct (arrivals s !! i) as [a|] eqn:Hi; [|done]. simpl in Hstep.
    destruct (arr_pc a) eqn:Hpc; try done. injection Hstep as <-.
    unfold save_resolved.
    destruct (latestBlockHeight s <=? height (arr_message a));
      apply (cleaned_frame mid s); try done; unfold_gate; simpl; intros H;
      destruct (decide (arr_messageId a = mid)) as [->|Hne];
      by rewrite ?lookup_delete_eq, ?lookup_delete_ne by done.
  - destruct (arrivals s !! i) as [a|] eqn:Hi; [|done]. simpl in Hstep.
    destruct (arr_pc a) eqn:Hpc; try done. injection Hstep as <-.
    by apply (cleaned_frame mid s).
  - destruct (arrivals s !! i) as [a|] eqn:Hi; [|done]. simpl in Hstep.
    destruct (arr_pc a) eqn:Hpc; try done. injection Hstep as <-.
    by eapply (cleaned_snoc mid s).
  - destruct (latestBlockHeight s <? h'); [|done]. injection Hstep as <-.
    by apply (cleaned_frame mid s).
  - destruct (sweeps s !! j) as [w|]; [|done]. simpl in Hstep.
    destruct (sweep_awaiting w); [|done]. injection Hstep as <-.
    by apply (cleaned_frame mid s).
  - destruct (lookups s !! n) as [l|]; [|done]. simpl in Hstep.
    destruct (look_awaiting l); [|done]. injection Hstep as <-.
    unfold message_resolved. destruct (look_message l).
    + by eapply (cleaned_snoc mid s).
    + by apply (cleaned_frame mid s).
  - destruct (admissions s !! n) as [a|] eqn:Hn; [|done]. simpl in Hstep.
    destruct (adm_finished a) eqn:Hfin; [done|]. injection Hstep as <-.
    unfold task_finished.
    destruct (adm_onCallbackFinished a) eqn:Hf.
    + intros (a' & Ha' & Hs'). unfold_gate. simpl in *. apply Hc.
      apply list_elem_of_lookup in Ha' as [n' Hn'].
      destruct (decide (n' = n)) as [->|Hne].
      * rewrite list_lookup_insert_eq in Hn' by by eapply lookup_lt_Some.
        injection Hn' as <-. unfold swept in Hs'. simpl in Hs'.
        by rewrite ?Hf, andb_false_r in Hs'.
      * rewrite list_lookup_insert_ne in Hn' by done.
        exists a'. split; [by eapply list_elem_of_lookup_2|done].
    + destruct (decide (adm_messageId a = mid)) as [Hid|Hne].
      * intros _. unfold_gate. simpl. by rewrite <- Hid, !lookup_delete_eq.
      * intros (a' & Ha' & Hs'). unfold_gate. simpl in *.
        rewrite !lookup_delete_ne by done. apply Hc.
        apply list_elem_of_lookup in Ha' as [n' Hn'].
        destruct (decide (n' = n)) as [->|Hne'].
        -- rewrite list_lookup_insert_eq in Hn' by by eapply lookup_lt_Some.
           injection Hn' as <-. unfold swept in Hs'. simpl in Hs'.
           by rewrite bool_decide_false in Hs'.
        -- rewrite list_lookup_insert_ne in Hn' by done.
           exists a'. split; [by eapply list_elem_of_lookup_2|done].
Qed.

Lemma gate_run_cleaned mid msg evs s s' :
  run step evs s = Some s' → sole mid msg s' →
  inv mid msg s → cleaned mid s → cleaned mid s'.
Proof.
  revert s. induction evs as [|e evs IH]; intros s Hrun Hsole Hinv Hc;
    simpl in Hrun.
  - by injection Hrun as <-.
  - destruct (step e s) as [s1|] eqn:E; [|done].
    assert (Hsole1 : sole mid msg s1).
    { clear IH Hinv Hc E. revert s1 Hrun.
      induction evs as [|e' evs IH]; intros s1 Hrun; simpl in Hrun.
      + by injection Hrun as <-.
      + destruct (step e' s1) as [s2|] eqn:E'; [|done].
        eapply step_sole; [exact E'|]. by apply IH. }
    apply (IH s1); try done.
    + by apply (gate_step_inv mid msg e s).
    + by apply (cleaned_step mid msg e s).
Qed.

(** X12: once a task that a sweep of [processMessageInBlocks] queued for a
    message has ended, [releaseLockAndCleanUp] has run: the message is no
    longer in the cache, no block is noted for it, and it was admitted to
    the task queue exactly once.  (For a message id that arrives once.) *)
Theorem X12_swept_message_leaves_the_cache chain h0 evs s i a adm :
  run step evs (init chain h0) = Some s →
  arrivals s !! i = Some a →
  arrived (arr_messageId a) s ≤ 1 →
  adm ∈ admissions s →
  swept (arr_messageId a) adm = true →
  messageFromMQ s !! arr_messageId a = None ∧
  messageIdToProcessAtBlock s !! arr_messageId a = None ∧
  admitted (arr_messageId a) s = 1.
Proof.
  intros Hrun Hi Hone Hadm Hswept.
  pose proof (arrived_once_sole s i a Hi Hone) as Hsole.
  assert (Hc : cleaned (arr_messageId a) s).
  { apply (gate_run_cleaned _ _ _ _ _ Hrun Hsole (gate_init_inv _ _ chain h0)).
    intros (a' & Ha' & _). by apply elem_of_nil in Ha'. }
  destruct Hc as [H1 H2]; [eauto|]. split; [done|]. split; [done|].
  apply list_elem_of_lookup in Hadm as [n Hn].
  pose proof (total_one (is_admission (arr_messageId a)) (admissions s) n adm
                (λ z, proj1 (is_admission_range _ z)) Hn) as Hge.
  unfold swept in Hswept. apply andb_true_iff in Hswept as [Hs _].
  apply andb_true_iff in Hs as [Hs _]. apply bool_decide_eq_true in Hs.
  unfold is_admission in Hge at 1. rewrite decide_True in Hge by done.
  pose proof (gate_run_inv _ _ _ _ _ Hrun Hsole (gate_init_inv _ _ chain h0))
    as [_ _ _ H4].
  pose proof (Forall_lookup_1 _ _ _ _ H4 Hi eq_refl) as Hp.
  pose proof (view_nonneg (arr_messageId a) s) as (Hs0 & Hl0 & Ha0).
  unfold admitted in *. unfold phase_ok, tickets in Hp. simpl in *.
  destruct (arr_pc a); simpl in Hp; destruct_and?; unfold admitted in *;
    lia.
Qed.

Lemma X12_swept_message_leaves_the_cache_witness :
  let s := default (init "ndid" 100)
             (run step sample_swept (init "ndid" 100)) in
  let a := {| arr_messageId := "m1"; arr_message := sample_message;
              arr_pc := ReturnedFalse |} in
  let adm := {| adm_messageId := "m1";
                adm_onCallbackFinished := Fn_releaseLockAndCleanUp;
                adm_finished := true |} in
  (run step sample_swept (init "ndid" 100) = Some s ∧
   arrivals s !! 0%nat = Some a ∧
   arrived "m1" s ≤ 1 ∧
   adm ∈ admissions s ∧
   swept "m1" adm = true) ∧
  messageFromMQ s !! "m1" = None ∧
  admitted "m1" s = 1.
Proof.
  intros s a adm.
  assert (H1 : run step sample_swept (init "ndid" 100) = Some s)
    by (vm_compute; reflexivity).
  assert (H2 : arrivals s !! 0%nat = Some a) by (vm_compute; reflexivity).
  assert (H3 : arrived (arr_messageId a) s ≤ 1) by (vm_compute; discriminate).
  assert (H4 : adm ∈ admissions s).
  { apply (list_elem_of_lookup_2 _ 0%nat). vm_compute. reflexivity. }
  assert (H5 : swept (arr_messageId a) adm = true)
    by (vm_compute; reflexivity).
  split; [exact (conj H1 (conj H2 (conj H3 (conj H4 H5))))|].
  destruct (X12_swept_message_leaves_the_cache "ndid" 100 sample_swept
              s 0 a adm H1 H2 H3 H4 H5) as (Hm & _ & Ha).
  exact (conj Hm Ha).
Defined.

End GateCleanUpTheory.

Module RpTheory.
Import Rp.

Lemma sent_not_closed requestStatus responseValidList :
  isAllIdpRespondedAndValid requestStatus responseValidList = true →
  completedAndValid requestStatus responseValidList = false.
Proof.
  unfold isAllIdpRespondedAndValid, completedAndValid.
  destruct (String.eqb_spec (status requestStatus) "confirmed") as [E|]; [|done].
  intros _. rewrite E. done.
Qed.

Ltac inner_match :=
  match goal with
  | |- context [match ?x with _ => _ end] =>
      lazymatch x with
      | context [match _ with _ => _ end] => fail
      | _ => destruct x eqn:?
      end
  end.

Ltac run_M :=
  unfold processMessage, processIdpResponse;
  unfold when, try_catch;
  unfold mbind, M_bind, bind, mret, M_ret, ret, throw, act, await; simpl;
  repeat (inner_match; simpl).

Ltac no_elem_in H :=
  repeat first
    [ by apply elem_of_nil in H
    | apply elem_of_cons in H as [H|H]; [try discriminate|] ].

Ltac no_elem :=
  repeat match goal with
         | H : _ ∈ [] |- _ => by apply elem_of_nil in H
         | H : _ ∈ _ :: _ |- _ => apply elem_of_cons in H as [H|H]; [discriminate|]
         end.

(** X13: what [processMessage] does to the outside for one message.  It
    never both sends the data requests to the AS nodes and closes the
    request.  It calls the client, sends to the AS nodes or closes the
    request only for an IdP response, and only when the request is neither
    closed nor timed out.  It sends to the AS nodes only when the status is
    [confirmed] and the number of IdP answers is [min_idp], and closes the
    request only when the status is [completed]. *)
Theorem X13_processMessage_sends_or_closes nodeId messageId message env :
  let acts := (processMessage nodeId messageId message env []).1 in
  let requestStatus := getDetailedRequestStatus env in
  ¬ ((∃ d h, SendRequestToAS d h ∈ acts) ∧ (∃ r, CloseRequest r ∈ acts)) ∧
  (∀ a, a ∈ acts → outward a = true →
     type message = IDP_RESPONSE ∧
     closed requestStatus = false ∧ timed_out requestStatus = false) ∧
  (∀ d h, SendRequestToAS d h ∈ acts →
     status requestStatus = "confirmed" ∧
     answered_idp_count requestStatus = min_idp requestStatus) ∧
  (∀ r, CloseRequest r ∈ acts → status requestStatus = "completed").
Proof.
  intros acts requestStatus. subst acts requestStatus.
  split; [|split; [|split]].
  - intros [(d & h & Hs) (r & Hc)]. revert Hs Hc.
    run_M; intros Hs Hc; no_elem.
    all: try match goal with
      | H : isAllIdpRespondedAndValid _ _ = true |- _ =>
          apply sent_not_closed in H; congruence
      end.
  - intros a. run_M; intros Ha Hout; no_elem_in Ha;
      try (by subst a); subst a;
      match goal with
      | H : closed _ || timed_out _ = false |- _ =>
          by apply orb_false_iff in H
      end.
  - intros d h. run_M; intros Hs; no_elem;
      match goal with
      | H : isAllIdpRespondedAndValid _ _ = true |- _ =>
          revert H; unfold isAllIdpRespondedAndValid;
          destruct (String.eqb_spec (status (getDetailedRequestStatus env))
                      "confirmed"); [|done];
          destruct (Z.eqb_spec (answered_idp_count (getDetailedRequestStatus env))
                      (min_idp (getDetailedRequestStatus env))); done
      end.
  - intros r. run_M; intros Hs; no_elem;
      match goal with
      | H : completedAndValid _ _ = true |- _ =>
          revert H; unfold completedAndValid;
          destruct (String.eqb_spec (status (getDetailedRequestStatus env))
                      "completed"); done
      end.
Qed.

(** X14: [processMessage] reports every failure, once and as its last act.
    When it returns, [common.notifyError] was not called.  When it throws,
    the last thing it did was to call [common.notifyError] with the action
    [rp.processMessage] and the request id of the message, once; and what
    it throws is the error wrapped as "Error processing message from
    message queue", or the rejection of [notifyError] itself. *)
Theorem X14_processMessage_notifies_errors nodeId messageId message env :
  let notified := NotifyError "rp.processMessage" (request_id message) in
  match processMessage nodeId messageId message env [] with
  | (acts, inr _) => ∀ action request, NotifyError action request ∉ acts
  | (acts, inl error) =>
      (∃ acts', acts = acts' ++ [notified] ∧
                ∀ action request, NotifyError action request ∉ acts') ∧
      (notifyError env = inl error ∨
       ∃ cause,
         error = CustomError "Error processing message from message queue"
                             cause)
  end.
Proof.
  intros notified. subst notified.
  run_M.
  all: try (by intros action request Hin; no_elem_in Hin).
  all: split;
         [ match goal with
           | |- ∃ acts', ?l = acts' ++ [_] ∧ _ => exists (removelast l)
           end; split; [reflexivity|];
           by intros action request Hin; simpl in Hin; no_elem_in Hin
         | first [by left | right; by eexists] ].
Qed.

End RpTheory.

Module RpSendTheory.
Import RpSend.

(** The characters of a string. *)
Lemma chars_app s1 s2 :
  String.list_ascii_of_string (s1 +:+ s2)
  = String.list_ascii_of_string s1 ++ String.list_ascii_of_string s2.
Proof.
  induction s1 as [|c s1 IH]; [done|].
  unfold String.app in *. simpl. by rewrite IH.
Qed.

Lemma chars_inj s1 s2 :
  String.list_ascii_of_string s1 = String.list_ascii_of_string s2 → s1 = s2.
Proof.
  intros H. rewrite <- (String.string_of_list_ascii_of_string s1),
    <- (String.string_of_list_ascii_of_string s2). by rewrite H.
Qed.

Lemma pretty_N_char_digit n : is_digit (pretty_N_char n) = true.
Proof.
  destruct n as [|p]; [done|].
  do 4 (try destruct p as [p|p|]; try reflexivity).
Qed.

Lemma pretty_N_go_chars x s :
  ∃ ds, String.list_ascii_of_string (pretty_N_go x s)
        = ds ++ String.list_ascii_of_string s ∧
        Forall (λ c, is_digit c = true) ds ∧
        ((0 < x)%N → ds ≠ []).
Proof.
  revert s. induction (N.lt_wf_0 x) as [x _ IH]; intros s.
  destruct (decide (x = 0%N)) as [->|Hx].
  - exists []. rewrite pretty_N_go_0. repeat split; [done|lia].
  - rewrite pretty_N_go_step by lia.
    destruct (IH (x / 10)%N) with (s := String (pretty_N_char (x mod 10)) s)
      as (ds & -> & Hds & _).
    { apply N.div_lt; lia. }
    exists (ds ++ [pretty_N_char (x mod 10)]). simpl.
    rewrite <- app_assoc. split; [done|]. split.
    + apply Forall_app. split; [done|].
      apply Forall_singleton, pretty_N_char_digit.
    + intros _. by destruct ds.
Qed.

Lemma pretty_nat_chars (n : nat) :
  Forall (λ c, is_digit c = true) (String.list_ascii_of_string (pretty n)) ∧
  String.list_ascii_of_string (pretty n) ≠ [].
Proof.
  unfold pretty, pretty_nat, pretty, pretty_N.
  case_decide as Hn.
  - split; [|done]. repeat constructor.
  - destruct (pretty_N_go_chars (N.of_nat n) "") as (ds & -> & Hds & Hne).
    simpl. rewrite app_nil_r. split; [done|]. apply Hne. lia.
Qed.

(** Digits followed by nothing or by a character that is no digit: the
    digits are determined. *)
Lemma digits_split (d1 d2 r1 r2 : list ascii) :
  Forall (λ c, is_digit c = true) d1 →
  Forall (λ c, is_digit c = true) d2 →
  (∀ c r, r1 = c :: r → is_digit c = false) →
  (∀ c r, r2 = c :: r → is_digit c = false) →
  d1 ++ r1 = d2 ++ r2 → d1 = d2 ∧ r1 = r2.
Proof.
  revert d2. induction d1 as [|c d1 IH]; intros d2 H1 H2 Hr1 Hr2 E.
  - destruct d2 as [|c2 d2]; [done|]. simpl in E.
    apply Forall_cons in H2 as [H2 _].
    specialize (Hr1 _ _ E). congruence.
  - destruct d2 as [|c2 d2].
    + simpl in E. apply Forall_cons in H1 as [H1 _].
      specialize (Hr2 _ _ (eq_sym E)). congruence.
    + simpl in E. injection E as -> E.
      apply Forall_cons in H1 as [_ H1]. apply Forall_cons in H2 as [_ H2].
      destruct (IH d2 H1 H2 Hr1 Hr2 E) as [-> ->]. done.
Qed.

Lemma foldl_index_chars s l :
  String.list_ascii_of_string (foldl (λ s j, s +:+ "|" +:+ pretty j) s l)
  = String.list_ascii_of_string s ++ flat_map index_chars l.
Proof.
  revert s. induction l as [|j l IH]; intros s; simpl.
  - by rewrite app_nil_r.
  - rewrite IH, !chars_app. simpl. by rewrite <- app_assoc.
Qed.

Lemma index_chars_head l c r :
  flat_map index_chars l = c :: r → is_digit c = false.
Proof. destruct l; simpl; [done|]. by intros [= <- _]. Qed.

Lemma index_chars_inj l l' :
  flat_map index_chars l = flat_map index_chars l' → l = l'.
Proof.
  revert l'. induction l as [|j l IH]; intros [|j' l'] E; try done.
  simpl in E. injection E as E.
  destruct (pretty_nat_chars j) as [Hj _], (pretty_nat_chars j') as [Hj' _].
  destruct (digits_split _ _ _ _ Hj Hj'
              (index_chars_head l) (index_chars_head l') E) as [E1 E2].
  apply chars_inj, (inj pretty) in E1 as ->. by rewrite (IH _ E2).
Qed.

Lemma concat_index_inj l l' :
  l ≠ [] → l' ≠ [] → concat_index l = concat_index l' → l = l'.
Proof.
  destruct l as [|i l], l' as [|i' l']; try done. intros _ _ E.
  apply (f_equal String.list_ascii_of_string) in E.
  simpl in E. rewrite !foldl_index_chars in E.
  destruct (pretty_nat_chars i) as [Hi _], (pretty_nat_chars i') as [Hi' _].
  destruct (digits_split _ _ _ _ Hi Hi'
              (index_chars_head l) (index_chars_head l') E) as [E1 E2].
  apply chars_inj, (inj pretty) in E1 as ->.
  by rewrite (index_chars_inj _ _ E2).
Qed.
Lemma concat_index_snoc l j :
  l ≠ [] → concat_index (l ++ [j]) = concat_index l +:+ "|" +:+ pretty j.
Proof.
  destruct l as [|i l]; [done|]. intros _. simpl. by rewrite foldl_app.
Qed.

Lemma toReceiver_cases asNode :
  match effective_mq asNode with
  | None => toReceiver asNode = Some None
  | Some [] => toReceiver asNode = None
  | Some (a :: _) =>
      ∃ r, toReceiver asNode = Some (Some r) ∧
           r_node_id r = node_id asNode ∧
           r_public_key r = public_key asNode ∧
           match proxy asNode with
           | Some p =>
               r_address r =
               Behind {| rp_node_id := proxy_node_id p;
                         rp_public_key := proxy_public_key p;
                         rp_ip := ip a;
                         rp_port := port a;
                         rp_config := proxy_config p |}
           | None => r_address r = Own (ip a) (port a)
           end
  end.
Proof.
  unfold effective_mq, toReceiver.
  destruct (proxy asNode) as [p|].
  - destruct (proxy_mq p) as [[|a l]|]; try done. by eexists.
  - destruct (mq asNode) as [[|a l]|]; try done. by eexists.
Qed.

(** X15: [getASReceiverList] on the nodes the ledger lists.  The address
    list that counts is that of the proxy for a node behind a proxy, the
    node's own otherwise.  The function throws exactly when that list is
    present and empty for some node.  Otherwise the receivers are the
    nodes that have such a list, in the order of the ledger, each with the
    first address of the list (a node without the list is left out). *)
Theorem X15_getASReceiverList_receivers asNodes :
  (getASReceiverList asNodes = None ↔
   ∃ asNode, asNode ∈ asNodes ∧ effective_mq asNode = Some []) ∧
  ∀ receivers, getASReceiverList asNodes = Some receivers →
    r_node_id <$> receivers
    = node_id <$> filter (λ n, is_Some (effective_mq n)) asNodes ∧
    ∀ r, r ∈ receivers →
      ∃ asNode a l, asNode ∈ asNodes ∧
        effective_mq asNode = Some (a :: l) ∧
        r_node_id r = node_id asNode ∧
        r_public_key r = public_key asNode ∧
        match proxy asNode with
        | Some p =>
            r_address r =
            Behind {| rp_node_id := proxy_node_id p;
                      rp_public_key := proxy_public_key p;
                      rp_ip := ip a;
                      rp_port := port a;
                      rp_config := proxy_config p |}
        | None => r_address r = Own (ip a) (port a)
        end.
Proof.
  unfold getASReceiverList.
  induction asNodes as [|n asNodes [IH1 IH2]].
  - split.
    + split; [done|]. by intros (? & ?%elem_of_nil & _).
    + intros ? [= <-]. split; [done|]. by intros ? ?%elem_of_nil.
  - pose proof (toReceiver_cases n) as Hn. simpl.
    destruct (effective_mq n) as [[|a l]|] eqn:He.
    + rewrite Hn. simpl. split; [|done]. split; [|done]. intros _.
      exists n. split; [by left|done].
    + destruct Hn as (r & -> & Hid & Hpk & Haddr). simpl.
      destruct (mapM toReceiver asNodes) as [rs|] eqn:Hrs; simpl in *.
      * split.
        -- split; [done|]. intros (n' & [->|Hin]%elem_of_cons & He');
             [congruence|].
           by assert (Some (omap id rs) = None) by (apply IH1; eauto).
        -- intros ? [= <-]. destruct (IH2 _ eq_refl) as [E Hall].
           rewrite filter_cons, decide_True by by rewrite He.
           change (list_omap _ _ id rs) with (omap id rs).
           rewrite !fmap_cons. split; [by rewrite E, Hid|].
           intros r' [->|Hr']%elem_of_cons.
           ++ exists n, a, l. split; [by left|]. by rewrite He.
           ++ destruct (Hall r' Hr') as (n' & a' & l' & ? & ?).
              exists n', a', l'. split; [by right|done].
      * split; [|done]. split; [|done]. intros _.
        destruct (proj1 IH1 eq_refl) as (n' & ? & ?). exists n'.
        split; [by right|done].
    + rewrite Hn. simpl.
      destruct (mapM toReceiver asNodes) as [rs|] eqn:Hrs; simpl in *.
      * split.
        -- split; [done|]. intros (n' & [->|Hin]%elem_of_cons & He');
             [congruence|].
           by assert (Some (omap id rs) = None) by (apply IH1; eauto).
        -- intros ? [= <-]. destruct (IH2 _ eq_refl) as [E Hall].
           rewrite filter_cons, decide_False by (rewrite He; by intros [? ?]).
           split; [done|]. intros r' Hr'.
           destruct (Hall r' Hr') as (n' & a' & l' & ? & ?).
           exists n', a', l'. split; [by right|done].
      * split; [|done]. split; [|done]. intros _.
        destruct (proj1 IH1 eq_refl) as (n' & ? & ?). exists n'.
        split; [by right|done].
Qed.

Section Tracks.
Context (requestData : RequestData) (drl : list DataRequest).

Lemma services_snoc l i dr :
  drl !! i = Some dr →
  services requestData drl (l ++ [i])
  = services requestData drl l ++ [toServiceDataRequest requestData i dr].
Proof.
  intros H. unfold services. rewrite omap_app. simpl. by rewrite H.
Qed.

Lemma addReceiver_tracks m reqs i dr r m' :
  drl !! i = Some dr →
  tracks requestData drl m reqs →
  addReceiver i (toServiceDataRequest requestData i dr) m r = Some m' →
  tracks requestData drl m' (λ id, reqs id ++ hits id i [r]).
Proof.
  intros Hi Ht Hadd id. unfold addReceiver in Hadd.
  pose proof (Ht (r_node_id r)) as Hr. pose proof (Ht id) as Hid.
  unfold hits. rewrite filter_cons, filter_nil.
  destruct (m !! r_node_id r) as [d|] eqn:Hd.
  - injection Hadd as <-. destruct Hr as (Hk & Hne & Hs & Hc).
    destruct (decide (r_node_id r = id)) as [<-|Hneq].
    + rewrite lookup_insert_eq. simpl. split; [done|]. split.
      { by destruct (reqs (r_node_id r)). }
      split; [by rewrite Hs, (services_snoc _ _ _ Hi)|].
      by rewrite concat_index_snoc, Hc.
    + rewrite lookup_insert_ne by done. simpl. by rewrite app_nil_r.
  - destruct (inherited (r_node_id r)); [done|]. injection Hadd as <-.
    destruct (decide (r_node_id r = id)) as [<-|Hneq].
    + rewrite lookup_insert_eq. simpl. rewrite Hr. simpl.
      split; [done|]. split; [done|]. split; [|done].
      unfold services. simpl. by rewrite Hi.
    + rewrite lookup_insert_ne by done. simpl. by rewrite app_nil_r.
Qed.

Lemma hits_app id i rs1 rs2 :
  hits id i (rs1 ++ rs2) = hits id i rs1 ++ hits id i rs2.
Proof. unfold hits. by rewrite filter_app, fmap_app. Qed.

Lemma tracks_ext m reqs reqs' :
  (∀ id, reqs id = reqs' id) →
  tracks requestData drl m reqs → tracks requestData drl m reqs'.
Proof. intros E Ht id. specialize (Ht id). by rewrite <- E. Qed.

Lemma addReceivers_tracks rs m reqs i dr m' :
  drl !! i = Some dr →
  tracks requestData drl m reqs →
  foldl (λ acc r,
           m ← acc;
           addReceiver i (toServiceDataRequest requestData i dr) m r)
        (Some m) rs = Some m' →
  tracks requestData drl m' (λ id, reqs id ++ hits id i rs).
Proof.
  intros Hi. revert m reqs. induction rs as [|r rs IH]; intros m reqs Ht Hf.
  - simpl in Hf. injection Hf as <-.
    eapply tracks_ext; [|done]. intros id. by rewrite app_nil_r.
  - simpl in Hf.
    destruct (addReceiver i (toServiceDataRequest requestData i dr) m r)
      as [m1|] eqn:Hadd.
    + pose proof (addReceiver_tracks _ _ _ _ _ _ Hi Ht Hadd) as Ht1.
      pose proof (IH m1 _ Ht1 Hf) as Ht2.
      eapply tracks_ext; [|exact Ht2].
      intros id. simpl. rewrite <- app_assoc. f_equal. symmetry.
      apply (hits_app id i [r] rs).
    + exfalso. clear -Hf. induction rs; simpl in Hf; [done|auto].
Qed.

Lemma foldl_None {A B} (f : B → A → option B) l :
  foldl (λ acc a, m ← acc; f m a) None l = None.
Proof. induction l; simpl; [done|auto]. Qed.

Lemma requests_of_snoc id answers a :
  requests_of id (answers ++ [a])
  = requests_of id answers ++ hits id a.1 (found a).
Proof.
  unfold requests_of. rewrite flat_map_app. simpl. by rewrite app_nil_r.
Qed.

Lemma addDataRequests_tracks answers done m m' :
  tracks requestData drl m (λ id, requests_of id done) →
  foldl (λ acc a,
           m ← acc;
           data_request ← drl !! a.1;
           addDataRequest requestData m a.1 data_request a.2)
        (Some m) answers = Some m' →
  tracks requestData drl m' (λ id, requests_of id (done ++ answers)).
Proof.
  revert done m. induction answers as [|a answers IH]; intros done m Ht Hf.
  - simpl in Hf. injection Hf as <-. by rewrite app_nil_r.
  - simpl in Hf. destruct (drl !! a.1) as [dr|] eqn:Hi; simpl in Hf;
      [|by rewrite foldl_None in Hf].
    destruct (addDataRequest requestData m a.1 dr a.2) as [m1|] eqn:Hadd;
      [|by rewrite foldl_None in Hf].
    replace (done ++ a :: answers) with ((done ++ [a]) ++ answers)
      by by rewrite <- app_assoc.
    apply (IH _ m1); [|done].
    unfold addDataRequest in Hadd.
    destruct a as [i [asNodes|]]; simpl in *; [|done].
    destruct (getASReceiverList asNodes) as [rs|] eqn:Hrs; simpl in Hadd;
      [|done].
    pose proof (addReceivers_tracks _ _ _ _ _ _ Hi Ht Hadd) as Ht1.
    eapply tracks_ext; [|exact Ht1].
    intros id. simpl. rewrite requests_of_snoc. unfold found. simpl.
    by rewrite Hrs.
Qed.

End Tracks.

Lemma addToGroup_grouped g done d :
  grouped g done → grouped (addToGroup g d) (done ++ [d]).
Proof.
  intros [Ha Hb]. unfold addToGroup.
  destruct (g !! concat_service_id_index d) as [grp|] eqn:Hg.
  - split.
    + intros key grp' Hl.
      destruct (decide (concat_service_id_index d = key)) as [<-|Hne].
      * rewrite lookup_insert_eq in Hl. injection Hl as <-. simpl.
        destruct (Ha _ _ Hg) as [H1 (d0 & Hd0 & Hk & Hs)]. split.
        -- intros r [Hr|Hr]%elem_of_app.
           ++ destruct (H1 r Hr) as (d1 & ? & ? & ?). exists d1.
              split; [apply elem_of_app; by left|done].
           ++ apply list_elem_of_singleton in Hr as ->. exists d.
              split; [apply elem_of_app; right; by constructor|done].
        -- exists d0. split; [apply elem_of_app; by left|done].
      * rewrite lookup_insert_ne in Hl by done.
        destruct (Ha _ _ Hl) as [H1 (d0 & Hd0 & Hk & Hs)]. split.
        -- intros r Hr. destruct (H1 r Hr) as (d1 & ? & ? & ?). exists d1.
           split; [apply elem_of_app; by left|done].
        -- exists d0. split; [apply elem_of_app; by left|done].
    + rewrite <- insert_delete_eq.
      rewrite map_to_list_insert by apply lookup_delete_eq.
      rewrite <- (map_to_list_delete _ _ _ Hg) in Hb.
      rewrite fmap_cons in *. simpl in *. rewrite fmap_app. simpl.
      rewrite <- Hb, <- !app_assoc. apply Permutation_app_head.
      apply Permutation_app_comm.
  - split.
    + intros key grp' Hl.
      destruct (decide (concat_service_id_index d = key)) as [<-|Hne].
      * rewrite lookup_insert_eq in Hl. injection Hl as <-. simpl. split.
        -- intros r Hr. apply list_elem_of_singleton in Hr as ->. exists d.
           split; [apply elem_of_app; right; by constructor|done].
        -- exists d. split; [apply elem_of_app; right; by constructor|done].
      * rewrite lookup_insert_ne in Hl by done.
        destruct (Ha _ _ Hl) as [H1 (d0 & Hd0 & Hk & Hs)]. split.
        -- intros r Hr. destruct (H1 r Hr) as (d1 & ? & ? & ?). exists d1.
           split; [apply elem_of_app; by left|done].
        -- exists d0. split; [apply elem_of_app; by left|done].
    + rewrite map_to_list_insert by done. rewrite fmap_cons. simpl.
      rewrite fmap_app. simpl. rewrite Hb. apply Permutation_cons_append.
Qed.

Lemma foldl_addToGroup_grouped ds g done :
  grouped g done → grouped (foldl addToGroup g ds) (done ++ ds).
Proof.
  revert g done. induction ds as [|d ds IH]; intros g done Hg; simpl.
  - by rewrite app_nil_r.
  - replace (done ++ d :: ds) with ((done ++ [d]) ++ ds)
      by by rewrite <- app_assoc.
    by apply IH, addToGroup_grouped.
Qed.

Lemma grouped_empty : grouped ∅ [].
Proof.
  split; [|by rewrite map_to_list_empty].
  intros key grp H. by rewrite lookup_empty in H.
Qed.

Lemma flat_map_fmap {A B C} (f : B → C) (g : A → list B) l :
  flat_map (λ x, f <$> g x) l = f <$> flat_map g l.
Proof. induction l as [|x l IH]; simpl; [done|]. by rewrite fmap_app, IH. Qed.

Lemma tracks_keys requestData drl m reqs :
  tracks requestData drl m reqs →
  r_node_id <$> (receiver <$> (map_to_list m).*2) = (map_to_list m).*1.
Proof.
  intros Ht. rewrite <- !list_fmap_compose.
  apply list_fmap_ext. intros i [k d] Hl. simpl.
  apply list_elem_of_lookup_2, elem_of_map_to_list in Hl.
  specialize (Ht k). rewrite Hl in Ht. by destruct Ht.
Qed.

(** X16: the calls of [mq.send] of [sendRequestToAS], when each data
    request has been answered once by the ledger, in any order, and
    whatever the order in which [Object.values] lists the entries.  Every
    AS node found for at least one data request is addressed, and in
    exactly one call; no other node is.  The message a node receives lists
    the data requests for which the node was found, and no other. *)
Theorem X16_sendRequestToAS_addresses Object_values chainId nodeId requestData
    height cache answers drl sends :
  (∀ V (m : gmap string V), Object_values V m ≡ₚ (map_to_list m).*2) →
  data_request_list requestData = Some drl →
  answers.*1 ≡ₚ seq 0 (length drl) →
  sendRequestToAS Object_values chainId nodeId requestData height cache
    answers = Some sends →
  NoDup (addressed sends) ∧
  (∀ id, id ∈ addressed sends ↔ requests_of id answers ≠ []) ∧
  (∀ send r, send ∈ sends → r ∈ send_receivers send →
     msg_service_data_request_list (message send)
     = services requestData drl (requests_of (r_node_id r) answers)).
Proof.
  intros Hvalues Hdrl Hperm Hsend. unfold sendRequestToAS in Hsend.
  rewrite Hdrl in Hsend. destruct drl as [|dr0 drl0].
  { injection Hsend as <-. apply Permutation_nil_r in Hperm.
    apply fmap_nil_inv in Hperm as ->.
    split; [constructor|]. split; [|intros ?? []%elem_of_nil].
    intros id. simpl. split; [intros []%elem_of_nil|done]. }
  set (drl := dr0 :: drl0) in *.
  destruct cache as [[requestCreationMetadata responsePrivateDataList]|];
    [|done]. simpl in Hsend.
  match type of Hsend with
  | context [foldl ?f (Some ∅) answers] =>
      destruct (foldl f (Some ∅) answers) as [m|] eqn:Hm; [|done]
  end. simpl in Hsend.
  assert (Ht : tracks requestData drl m (λ id, requests_of id answers)).
  { apply (addDataRequests_tracks requestData drl answers [] ∅); [|done].
    intros id. by rewrite lookup_empty. }
  set (ds := Object_values ToSend m) in *.
  set (g := foldl addToGroup ∅ ds) in *.
  assert (Hg : grouped g ds)
    by apply (foldl_addToGroup_grouped ds ∅ []), grouped_empty.
  destruct Hg as [Hga Hgb].
  apply mapM_Some in Hsend.
  assert (Hrec : Forall2 (λ grp s,
            send_receivers s = receivers grp ∧
            msg_service_data_request_list (message s)
            = group_service_data_request_list grp)
          (Object_values Group g) sends).
  { eapply Forall2_impl; [exact Hsend|]. intros grp s Hs. simpl in Hs.
    destruct requestCreationMetadata; [|done]. by injection Hs as <-. }
  assert (Haddr : addressed sends ≡ₚ (map_to_list m).*1).
  { unfold addressed.
    assert (E : flat_map (λ s, r_node_id <$> send_receivers s) sends
                = r_node_id <$> flat_map receivers (Object_values Group g)).
    { rewrite <- flat_map_fmap. clear -Hrec.
      induction Hrec as [|grp s l k [E _] _ IH]; [done|].
      simpl. by rewrite E, IH. }
    rewrite E, (Hvalues _ g), Hgb. unfold ds. rewrite (Hvalues _ m).
    by rewrite (tracks_keys _ _ _ _ Ht). }
  split; [|split].
  - rewrite Haddr. apply NoDup_fst_map_to_list.
  - intros id. rewrite Haddr. specialize (Ht id). simpl in Ht. split.
    + intros [d Hd]%list_elem_of_fmap. destruct Hd as [-> Hd].
      destruct d as [k d]. apply elem_of_map_to_list in Hd. simpl in *.
      rewrite Hd in Ht. by destruct Ht as (_ & ? & _).
    + intros Hne. destruct (m !! id) as [d|] eqn:Hd; [|done].
      apply list_elem_of_fmap. exists (id, d). split; [done|].
      by apply elem_of_map_to_list.
  - intros send r Hs Hr.
    apply list_elem_of_lookup in Hs as [n Hs].
    destruct (Forall2_lookup_r _ _ _ _ _ Hrec Hs) as (grp & Hgrp & Er & Es).
    rewrite Es. rewrite Er in Hr.
    apply list_elem_of_lookup_2 in Hgrp. rewrite (Hvalues _ g) in Hgrp.
    apply list_elem_of_fmap in Hgrp as [[key grp'] [-> Hgrp]]. simpl in *.
    apply elem_of_map_to_list in Hgrp.
    destruct (Hga _ _ Hgrp) as [H1 (d0 & Hd0 & Hk0 & Hs0)].
    destruct (H1 r Hr) as (d & Hd & Hrd & Hk).
    assert (Hin : ∀ d, d ∈ ds → m !! r_node_id (receiver d) = Some d).
    { intros d' Hd'. unfold ds in Hd'. rewrite (Hvalues _ m) in Hd'.
      apply list_elem_of_fmap in Hd' as [[k d''] [-> Hd']]. simpl.
      apply elem_of_map_to_list in Hd'. pose proof (Ht k) as Htk.
      rewrite Hd' in Htk. destruct Htk as [-> _]. done. }
    pose proof (Ht (r_node_id (receiver d))) as Htd.
    rewrite (Hin d Hd) in Htd. destruct Htd as (_ & Hne & _ & Hc).
    pose proof (Ht (r_node_id (receiver d0))) as Htd0.
    rewrite (Hin d0 Hd0) in Htd0. destruct Htd0 as (_ & Hne0 & Hsd0 & Hc0).
    rewrite Hs0, Hsd0. rewrite <- Hrd. f_equal.
    apply concat_index_inj; [done|done|]. by rewrite <- Hc, <- Hc0, Hk, Hk0.
Qed.

Lemma X16_sendRequestToAS_addresses_witness :
  let drl := default [] (data_request_list sample_request) in
  let sends :=
    default [] (sendRequestToAS sample_values "ndid" "rp1" sample_request
                  105 (Some (Some 1000, [])) sample_answers) in
  ((∀ V (m : gmap string V), sample_values V m ≡ₚ (map_to_list m).*2) ∧
   data_request_list sample_request = Some drl ∧
   sample_answers.*1 ≡ₚ seq 0 (length drl) ∧
   sendRequestToAS sample_values "ndid" "rp1" sample_request 105
     (Some (Some 1000, [])) sample_answers = Some sends) ∧
  NoDup (addressed sends) ∧
  (∀ id, id ∈ addressed sends ↔ requests_of id sample_answers ≠ []).
Proof.
  intros drl sends.
  assert (H1 : ∀ V (m : gmap string V),
            sample_values V m ≡ₚ (map_to_list m).*2) by reflexivity.
  assert (H2 : data_request_list sample_request = Some drl) by reflexivity.
  assert (H3 : sample_answers.*1 ≡ₚ seq 0 (length drl)) by apply perm_swap.
  assert (H4 : sendRequestToAS sample_values "ndid" "rp1" sample_request 105
                 (Some (Some 1000, [])) sample_answers = Some sends)
    by (vm_compute; reflexivity).
  split; [exact (conj H1 (conj H2 (conj H3 H4)))|].
  destruct (X16_sendRequestToAS_addresses sample_values "ndid" "rp1"
              sample_request 105 (Some (Some 1000, [])) sample_answers
              drl sends H1 H2 H3 H4) as (Ha & Hb & _).
  exact (conj Ha Hb).
Defined.

End RpSendTheory.

Module UtilsTheory.
Import Utils.

Lemma euclideanGCD_rec_spec fuel a b :
  (Z.abs_nat a < fuel)%nat →
  ∃ g x y, euclideanGCD_rec fuel a b = Some (g, x, y) ∧
           a * x + b * y = g ∧
           Z.abs g = Z.gcd a b ∧
           (0 ≤ a → 0 ≤ b → 0 ≤ g).
Proof.
  revert a b. induction fuel as [|fuel IH]; intros a b Hlt; [lia|].
  cbn [euclideanGCD_rec]. destruct (Z.eqb_spec a 0) as [->|Hne].
  - exists b, 0, 1. split; [done|]. split; [lia|].
    split; [symmetry; apply Z.gcd_0_l|done].
  - pose proof (Z.rem_bound_abs b a Hne) as Hb.
    destruct (IH (Z.rem b a) a) as (g & y & x & -> & Hbez & Hg & Hpos);
      [lia|].
    exists g, (x - Z.quot (b - Z.rem b a) a * y), y.
    split; [done|]. split; [|split].
    + assert (Hq : b - Z.rem b a = Z.quot b a * a).
      { pose proof (Z.quot_rem' b a). lia. }
      rewrite Hq, Z.quot_mul by done.
      pose proof (Z.quot_rem' b a). nia.
    + by rewrite Hg, Z.gcd_rem.
    + intros Ha Hb0. apply Hpos; [|done].
      apply Z.rem_nonneg; [done|lia].
Qed.

(** X17: [euclideanGCD(a, b)] returns for all integers, and returns
    [[g, x, y]] with [a*x + b*y = g], where [g] is the greatest common
    divisor of [a] and [b] up to its sign, and is that divisor when
    neither [a] nor [b] is negative. *)
Theorem X17_euclideanGCD_bezout a b :
  ∃ g x y, euclideanGCD a b = Some (g, x, y) ∧
           a * x + b * y = g ∧
           Z.abs g = Z.gcd a b ∧
           (0 ≤ a → 0 ≤ b → g = Z.gcd a b).
Proof.
  destruct (euclideanGCD_rec_spec (S (Z.abs_nat a)) a b) as
    (g & x & y & H1 & H2 & H3 & H4); [lia|].
  exists g, x, y. repeat split; try done. intros Ha Hb.
  specialize (H4 Ha Hb). lia.
Qed.

(** X18: [moduloMultiplicativeInverse(a, modulo)], for [a] not negative
    and [modulo] positive.  When [a] and [modulo] have no common divisor
    but 1, it returns a number [r] with [a * r] congruent to 1 modulo
    [modulo]; otherwise it throws "No modular inverse". *)
Theorem X18_moduloMultiplicativeInverse_inverts a modulo :
  0 ≤ a → 0 < modulo →
  (Z.gcd a modulo = 1 →
   ∃ r, moduloMultiplicativeInverse a modulo = Some (inr r) ∧
        (a * r) mod modulo = 1 mod modulo) ∧
  (Z.gcd a modulo ≠ 1 →
   moduloMultiplicativeInverse a modulo = Some (inl "No modular inverse")).
Proof.
  intros Ha Hm. unfold moduloMultiplicativeInverse.
  unfold euclideanGCD.
  destruct (euclideanGCD_rec_spec (S (Z.abs_nat a)) a modulo)
    as (g & x & y & -> & Hbez & Habs & Hpos); [lia|].
  assert (Hg : g = Z.gcd a modulo).
  { specialize (Hpos Ha (Z.lt_le_incl _ _ Hm)). lia. }
  split.
  - intros H1. rewrite Hg, H1. simpl. eexists. split; [done|].
    unfold bn_mod. destruct (Z.eqb_spec modulo 0) as [?|_]; [lia|].
    rewrite <- Z.mul_mod_idemp_r by lia.
    assert (Hr : Z.rem x modulo mod modulo = x mod modulo).
    { pose proof (Z.quot_rem' x modulo) as E.
      rewrite E at 2. rewrite Z.add_comm, Z.mul_comm, Z.mod_add by lia. done. }
    rewrite Hr, Z.mul_mod_idemp_r by lia.
    assert (E : a * x = 1 + (- y) * modulo) by lia.
    by rewrite E, Z.mod_add by lia.
  - intros H1. destruct (Z.eqb_spec g 1); [congruence|done].
Qed.

Lemma X18_moduloMultiplicativeInverse_inverts_witness :
  (0 ≤ 3 ∧ 0 < 7) ∧
  ∃ r, moduloMultiplicativeInverse 3 7 = Some (inr r) ∧
       (3 * r) mod 7 = 1 mod 7.
Proof.
  assert (H1 : 0 ≤ 3) by lia.
  assert (H2 : 0 < 7) by lia.
  split; [exact (conj H1 H2)|].
  destruct (X18_moduloMultiplicativeInverse_inverts 3 7 H1 H2) as [H _].
  apply H. reflexivity.
Defined.

End UtilsTheory.

Module SaltTheory.
Import Salt.

Lemma string_length_app s1 s2 :
  String.length (s1 +:+ s2) = (String.length s1 + String.length s2)%nat.
Proof.
  induction s1 as [|c s1 IH]; simpl; [done|].
  unfold String.app in *. simpl. by rewrite IH.
Qed.

Lemma string_length_substring_0 n s :
  String.length (String.substring 0 n s) = Nat.min n (String.length s).
Proof.
  revert s. induction n as [|n IH]; intros [|c s]; simpl; try done.
  by rewrite IH.
Qed.
Example base64_sample : base64 [77; 97; 110; 1; 2] = "TWFuAQI=".
Proof. vm_compute. reflexivity. Qed.

Lemma base64_salt_length saltByte :
  length saltByte = saltByteLength →
  String.length (base64 saltByte) = 12%nat.
Proof.
  intros H. do 9 (destruct saltByte as [|? saltByte]; try done).
Qed.

(** X19: [compareSaltedHash] never accepts what [hashWithRandomSalt]
    makes, not even for the string that was hashed.  The salt of eight
    bytes is twelve characters in base64, but [compareSaltedHash] takes
    the first sixteen characters ([saltStringLength]) as the salt.  (For a
    hash whose results all have the same length, not zero.) *)
Theorem X19_salted_hash_never_compares (hash : string → string) (n : nat)
    saltByte stringToHash plain :
  (∀ x, String.length (hash x) = n) → (0 < n)%nat →
  length saltByte = saltByteLength →
  compareSaltedHash hash (hashWithRandomSalt hash saltByte stringToHash) plain
  = false.
Proof.
  intros Hn Hpos Hlen. unfold compareSaltedHash.
  apply String.eqb_neq. intros E.
  apply (f_equal String.length) in E.
  rewrite string_length_app, string_length_substring_0 in E.
  unfold hashWithRandomSalt in E.
  rewrite !string_length_app, !Hn, (base64_salt_length _ Hlen) in E.
  unfold saltStringLength, saltByteLength in E. lia.
Qed.

Lemma X19_salted_hash_never_compares_witness :
  ((∀ x, String.length (sample_hash x) = 4%nat) ∧
   (0 < 4)%nat ∧
   length sample_salt = saltByteLength) ∧
  compareSaltedHash sample_hash
    (hashWithRandomSalt sample_hash sample_salt "secret") "secret" = false.
Proof.
  assert (H1 : ∀ x, String.length (sample_hash x) = 4%nat).
  { intros x. unfold sample_hash.
    rewrite string_length_substring_0, string_length_app.
    apply Nat.min_l. simpl. lia. }
  assert (H2 : (0 < 4)%nat) by lia.
  assert (H3 : length sample_salt = saltByteLength) by reflexivity.
  split; [exact (conj H1 (conj H2 H3))|].
  exact (X19_salted_hash_never_compares sample_hash 4 sample_salt "secret"
           "secret" H1 H2 H3).
Defined.

End SaltTheory.

Module TendermintHttpTheory.
Import TendermintHttp.

Lemma string_app_assoc (s1 s2 s3 : string) :
  (s1 +:+ s2) +:+ s3 = s1 +:+ (s2 +:+ s3).
Proof.
  induction s1 as [|c s1 IH]; [done|].
  unfold String.app in *. simpl. by rewrite IH.
Qed.

Lemma string_app_nil (s1 s2 : string) : s1 +:+ s2 = "" → s1 = "" ∧ s2 = "".
Proof. destruct s1; [done|]. unfold String.app. by simpl. Qed.
Section Facts.
Context (encodeURIComponent : string → string).

Lemma part_nonempty param p :
  part encodeURIComponent param = Some p → p ≠ "".
Proof.
  unfold part. destruct (key param) as [k|]; [|done].
  destruct (value param) as [v|]; [|done]. simpl. intros [= <-] E.
  apply string_app_nil in E as [_ E]. by apply string_app_nil in E as [E _].
Qed.

Lemma addParam_part acc param :
  addParam encodeURIComponent acc param =
  match part encodeURIComponent param with
  | Some p => if negb (String.eqb acc "") then acc +:+ ("&" +:+ p)
              else acc +:+ p
  | None => acc
  end.
Proof.
  unfold addParam, part. destruct (key param) as [k|]; [|done].
  destruct (value param) as [v|]; [|done]. simpl.
  by destruct (String.eqb acc "").
Qed.

Lemma concat_merge sep a p l :
  String.concat sep ((a +:+ (sep +:+ p)) :: l) = String.concat sep (a :: p :: l).
Proof.
  destruct l as [|q l]; [done|].
  change (String.concat sep ((a +:+ (sep +:+ p)) :: q :: l))
    with ((a +:+ (sep +:+ p)) +:+ (sep +:+ String.concat sep (q :: l))).
  change (String.concat sep (a :: p :: q :: l))
    with (a +:+ (sep +:+ (p +:+ (sep +:+ String.concat sep (q :: l))))).
  by rewrite !string_app_assoc.
Qed.

Lemma foldl_addParam acc params :
  acc ≠ "" →
  foldl (addParam encodeURIComponent) acc params =
  String.concat "&" (acc :: omap (part encodeURIComponent) params).
Proof.
  revert acc. induction params as [|param params IH]; intros acc Hacc;
    [done|].
  simpl foldl. rewrite addParam_part.
  change (omap (part encodeURIComponent) (param :: params))
    with (match part encodeURIComponent param with
          | Some p => p :: omap (part encodeURIComponent) params
          | None => omap (part encodeURIComponent) params
          end).
  destruct (part encodeURIComponent param) as [p|] eqn:Hp; [|by apply IH].
  destruct (String.eqb_spec acc ""); [done|]. simpl negb. cbv iota.
  rewrite IH.
  2:{ intros E. by apply string_app_nil in E as [? _]. }
  apply concat_merge.
Qed.

Lemma queryString_parts params :
  queryString encodeURIComponent params =
  String.concat "&" (omap (part encodeURIComponent) params).
Proof.
  unfold queryString. induction params as [|param params IH]; [done|].
  simpl foldl. rewrite addParam_part.
  change (omap (part encodeURIComponent) (param :: params))
    with (match part encodeURIComponent param with
          | Some p => p :: omap (part encodeURIComponent) params
          | None => omap (part encodeURIComponent) params
          end).
  destruct (part encodeURIComponent param) as [p|] eqn:Hp; [|done].
  simpl negb. cbv iota.
  change ("" +:+ p) with p. apply foldl_addParam. by eapply part_nonempty.
Qed.

End Facts.

(** X20: the address [httpUriCall] fetches.  The query string has one
    [key="value"] (the value encoded) for each parameter that has both a
    key and a value, in their order, with [&] in between; the address is
    [http://<tendermintAddress>/<method>], followed by [?] and the query
    string when the list of parameters is not empty (so with parameters
    that all lack a value it ends in a bare [?]).  The result is the JSON
    of the answer, or an error with that address.  [status], which gives
    no list of parameters, throws a [TypeError] and fetches nothing. *)
Theorem X20_httpUriCall_uri encodeURIComponent tendermintAddress fetch
    method params :
  let query := String.concat "&" (omap (part encodeURIComponent) params) in
  let base := "http://" +:+ tendermintAddress +:+ "/" +:+ method in
  let uri := match params with
             | [] => base
             | _ :: _ => base +:+ ("?" +:+ query)
             end in
  httpUriCall encodeURIComponent tendermintAddress fetch method (Some params)
  = match fetch uri with
    | Some responseJson => Json responseJson
    | None => TENDERMINT_HTTP_CALL_ERROR uri
    end ∧
  status encodeURIComponent tendermintAddress fetch = TypeError.
Proof.
  intros query base uri. split; [|done].
  unfold httpUriCall, uriOf. subst uri base query.
  rewrite <- queryString_parts. by destruct params.
Qed.
End TendermintHttpTheory.

Module MqSendSocketTheory.
Import MqSendSocket.

Lemma send_map_ok dest payload seqId s :
  map_ok s → map_ok (send dest payload seqId s).
Proof.
  intros [Hopen Hinj]. unfold send, _init. simpl.
  assert (Hlt : ∀ q k, socketMap s !! q = Some k → (k < length (sockets s))%nat).
  { intros q k Hq. destruct (Hopen q k Hq) as (sock & Hk & _).
    by eapply lookup_lt_Some. }
  split.
  - intros q k. unfold is_open. simpl.
    destruct (decide (seqId = q)) as [<-|Hne].
    + rewrite lookup_insert_eq. intros [= <-].
      rewrite list_lookup_alter_eq, list_lookup_middle by done.
      simpl. eauto.
    + rewrite lookup_insert_ne by done. intros Hq.
      destruct (Hopen q k Hq) as (sock & Hk & Hc). exists sock.
      split; [|done]. simpl.
      rewrite list_lookup_alter_ne by (specialize (Hlt q k Hq); lia).
      by apply lookup_app_l_Some.
  - intros q q' k. simpl.
    destruct (decide (seqId = q)) as [<-|Hne],
      (decide (seqId = q')) as [<-|Hne']; try done.
    + rewrite lookup_insert_eq, lookup_insert_ne by done. intros [= <-] Hq.
      specialize (Hlt _ _ Hq). lia.
    + rewrite lookup_insert_eq, lookup_insert_ne by done. intros Hq [= <-].
      specialize (Hlt _ _ Hq). lia.
    + rewrite !lookup_insert_ne by done. apply Hinj.
Qed.

Lemma cleanUp_map_ok seqId s s' :
  map_ok s → cleanUp seqId s = Some s' → map_ok s'.
Proof.
  intros [Hopen Hinj]. unfold cleanUp.
  destruct (socketMap s !! seqId) as [k|] eqn:Hk; [|done].
  intros [= <-]. split.
  - intros q k'. simpl. intros [Hne Hq]%lookup_delete_Some.
    destruct (Hopen q k' Hq) as (sock & Hs & Hc). exists sock.
    split; [|done]. simpl. rewrite list_lookup_alter_ne; [done|].
    intros ->. by apply Hne, (Hinj seqId q k').
  - intros q q' k'. simpl.
    intros [_ Hq]%lookup_delete_Some [_ Hq']%lookup_delete_Some. eauto.
Qed.

Lemma call_map_ok s c : map_ok s → map_ok (call s c).
Proof.
  intros H. destruct c as [dest payload seqId|seqId]; simpl.
  - by apply send_map_ok.
  - destruct (cleanUp seqId s) as [s'|] eqn:E; [|done].
    by eapply cleanUp_map_ok.
Qed.

Lemma calls_map_ok cs s : map_ok s → map_ok (foldl call s cs).
Proof.
  revert s. induction cs as [|c cs IH]; intros s H; simpl; [done|].
  by apply IH, call_map_ok.
Qed.

Lemma init_map_ok : map_ok init.
Proof. split; intros ?; intros; simplify_map_eq. Qed.

(** X21: [send] and then [cleanUp] with the same [seqId], after any calls
    on the instance.  [send] makes a new socket with the three options at
    0, connected to [tcp://<ip>:<port>], and sends the payload on it;
    [cleanUp] closes that socket and removes the entry; the sockets made
    before are as they were.  A second [cleanUp] with the [seqId] throws a
    [TypeError]. *)
Theorem X21_send_then_cleanUp cs dest payload seqId :
  let s := foldl call init cs in
  let k := length (sockets s) in
  ∃ s', cleanUp seqId (send dest payload seqId s) = Some s' ∧
    socketMap s' = delete seqId (socketMap s) ∧
    sockets s' !! k =
      Some {| ZMQ_LINGER := 0; ZMQ_RCVTIMEO := 0; ZMQ_SNDTIMEO := 0;
              connected := "tcp://" +:+ ip dest +:+ ":" +:+ pretty (port dest);
              sent := [payload];
              closed := true |} ∧
    (∀ j, j ≠ k → sockets s' !! j = sockets s !! j) ∧
    cleanUp seqId s' = None.
Proof.
  intros s k. unfold cleanUp, send, _init. simpl.
  rewrite lookup_insert_eq. eexists. split; [done|]. simpl.
  split; [by rewrite delete_insert_eq|]. split; [|split].
  - by rewrite !list_lookup_alter_eq, list_lookup_middle.
  - intros j Hj. rewrite !list_lookup_alter_ne by done.
    destruct (decide (j < length (sockets s))%nat).
    + by rewrite lookup_app_l.
    + rewrite lookup_ge_None_2 by (rewrite length_app; simpl; subst k; lia).
      symmetry. apply lookup_ge_None_2. lia.
  - by rewrite lookup_delete_eq.
Qed.

(** A socket that is open and in no entry of the map stays so. *)
Lemma call_leaked s c k :
  map_ok s → is_open s k → (∀ q, socketMap s !! q ≠ Some k) →
  is_open (call s c) k ∧ (∀ q, socketMap (call s c) !! q ≠ Some k).
Proof.
  intros [Hopen Hinj] (sock & Hk & Hc) Hout.
  assert (Hlt : (k < length (sockets s))%nat) by by eapply lookup_lt_Some.
  destruct c as [dest payload seqId|seqId]; simpl.
  - unfold send, _init, is_open. simpl. split.
    + exists sock. split; [|done].
      rewrite list_lookup_alter_ne by lia. by apply lookup_app_l_Some.
    + intros q. destruct (decide (seqId = q)) as [<-|Hne].
      * rewrite lookup_insert_eq. intros [= E]. lia.
      * rewrite lookup_insert_ne by done. apply Hout.
  - unfold cleanUp. destruct (socketMap s !! seqId) as [k'|] eqn:Hk'; simpl.
    + split.
      * exists sock. split; [|done]. simpl.
        rewrite list_lookup_alter_ne; [done|]. intros ->. by eapply Hout.
      * intros q [_ Hq]%lookup_delete_Some. by eapply Hout.
    + split; [by exists sock|done].
Qed.

(** X22: [send] with a [seqId] that is still in the map puts the new
    socket in the place of the old one, which is not closed; and whatever
    is called on the instance afterwards, the old socket stays open and
    is in no entry of the map: no [cleanUp] can close it. *)
Theorem X22_reused_seqId_leaks_socket cs dest payload seqId k cs' :
  let s := foldl call init cs in
  socketMap s !! seqId = Some k →
  let s' := foldl call (send dest payload seqId s) cs' in
  is_open s' k ∧ ∀ q, socketMap s' !! q ≠ Some k.
Proof.
  intros s Hk s'. subst s'.
  assert (Hok : map_ok s) by apply calls_map_ok, init_map_ok.
  assert (H0 : map_ok (send dest payload seqId s) ∧
               is_open (send dest payload seqId s) k ∧
               ∀ q, socketMap (send dest payload seqId s) !! q ≠ Some k).
  { split; [by apply send_map_ok|].
    destruct Hok as [Hopen Hinj].
    destruct (Hopen _ _ Hk) as (sock & Hs & Hc).
    assert (Hlt : (k < length (sockets s))%nat) by by eapply lookup_lt_Some.
    unfold send, _init, is_open. simpl. split.
    - exists sock. split; [|done].
      rewrite list_lookup_alter_ne by lia. by apply lookup_app_l_Some.
    - intros q. destruct (decide (seqId = q)) as [<-|Hne].
      + rewrite lookup_insert_eq. intros [= E]. lia.
      + rewrite lookup_insert_ne by done. intros Hq. apply Hne.
        by apply (Hinj seqId q k). }
  revert H0. generalize (send dest payload seqId s). clear.
  induction cs' as [|c cs' IH]; intros s (Hok & Hopen & Hout); simpl;
    [done|].
  apply IH. split; [by apply call_map_ok|]. by apply call_leaked.
Qed.

Lemma X22_reused_seqId_leaks_socket_witness :
  let s := foldl call init [Send sample_dest "first" 7] in
  let s' := foldl call (send sample_dest "second" 7 s) [CleanUp 7] in
  socketMap s !! 7 = Some 0%nat ∧
  is_open s' 0 ∧ (∀ q, socketMap s' !! q ≠ Some 0%nat).
Proof.
  intros s s'.
  assert (H : socketMap s !! 7 = Some 0%nat) by (vm_compute; reflexivity).
  split; [exact H|].
  exact (X22_reused_seqId_leaks_socket [Send sample_dest "first" 7]
           sample_dest "second" 7 0%nat [CleanUp 7] H).
Defined.

End MqSendSocketTheory.
